(** * Leaf It Together: the fracture engine and its interaction layer

    A shallow embedding of the geometry utilities ([src/engine/geometry.js]),
    of the fracture engine (the module [./engine/fracture], whose text
    follows the component in [src/App.jsx]) and of the pointer, key and wheel
    handlers of [src/components/PuzzleCanvas.jsx].

    JavaScript numbers are kept abstract behind the class [Number]: every
    function below is written once, over any carrier offering the arithmetic
    the source uses.  Two carriers are provided:
    - [float], the kernel's IEEE 754 binary64 numbers, which are the numbers
      the program runs on; concrete runs are evaluated there;
    - [R], the real numbers, on which the geometric statements that the
      specification phrases over exact arithmetic are proved. *)

From Stdlib Require Import String ZArith List Bool Lia Floats Uint63.
From Stdlib Require Import Reals Lra.
From Stdlib Require Import Ascii DecimalString.
Import ListNotations.

(** ** Numbers *)

Class Number (num : Type) := {
  of_Z : Z -> num;                 (* an integer literal *)
  nadd : num -> num -> num;
  nsub : num -> num -> num;
  nmul : num -> num -> num;
  ndiv : num -> num -> num;
  nopp : num -> num;               (* unary minus *)
  nsqrt : num -> num;              (* Math.sqrt *)
  nabs : num -> num;               (* Math.abs *)
  nmax : num -> num -> num;        (* Math.max on two arguments *)
  nlt : num -> num -> bool;        (* a < b *)
  nle : num -> num -> bool         (* a <= b *)
}.

(** What the interaction layer needs besides: [Math.cos], [Math.sin],
    [Math.PI] and the remainder operator [%]. *)
Class Trig (num : Type) := {
  ncos : num -> num;
  nsin : num -> num;
  npi : num;
  nrem : num -> num -> num
}.

Declare Scope num_scope.
Delimit Scope num_scope with num.
Infix "+" := nadd : num_scope.
Infix "-" := nsub : num_scope.
Infix "*" := nmul : num_scope.
Infix "/" := ndiv : num_scope.
Notation "- a" := (nopp a) : num_scope.
Infix "<?" := nlt : num_scope.
Infix "<=?" := nle : num_scope.
Notation "a >? b" := (nlt b a) : num_scope.
Notation "a >=? b" := (nle b a) : num_scope.

(** *** Binary64 numbers *)

Module F64.

Definition of_Z (z : Z) : float :=
  match z with
  | Zneg p => PrimFloat.opp (PrimFloat.of_uint63 (Uint63.of_Z (Zpos p)))
  | _ => PrimFloat.of_uint63 (Uint63.of_Z z)
  end.

(** [Math.max(a, b)]: NaN if either argument is NaN, and [+0] is larger
    than [-0]. *)
Definition max (a b : float) : float :=
  if PrimFloat.is_nan a || PrimFloat.is_nan b then PrimFloat.nan
  else if PrimFloat.ltb a b then b
  else if PrimFloat.ltb b a then a
  else if PrimFloat.get_sign a then b else a.

(** [a % b]: the remainder of the division truncated toward zero, with the
    sign of the dividend.  It is a number of binary64 as it stands, so that
    nothing is rounded; it is computed on the integer mantissas brought to
    the smaller of the two exponents. *)
Definition rem (a b : float) : float :=
  match Prim2SF a, Prim2SF b with
  | S754_nan, _ | _, S754_nan => nan
  | S754_infinity _, _ | _, S754_zero _ => nan
  | _, S754_infinity _ | S754_zero _, _ => a
  | S754_finite sa ma ea, S754_finite _ mb eb =>
      let e := Z.min ea eb in
      let r := Z.rem (Zpos ma * 2 ^ (ea - e)) (Zpos mb * 2 ^ (eb - e)) in
      SF2Prim (binary_normalize prec emax (if sa then - r else r) e sa)
  end.

(** [Math.PI], 3.141592653589793. *)
Definition pi : float := 0x1.921fb54442d18p+1.

(** The real number a finite number of binary64 stands for. *)
Definition toR (a : float) : R :=
  match Prim2SF a with
  | S754_finite s m e =>
      let m := if s then Zneg m else Zpos m in
      if (0 <=? e)%Z then IZR (m * 2 ^ e) else (IZR m / IZR (2 ^ (- e)))%R
  | _ => 0%R
  end.

End F64.

#[export] Instance float_Number : Number float := {
  of_Z := F64.of_Z;
  nadd := PrimFloat.add;
  nsub := PrimFloat.sub;
  nmul := PrimFloat.mul;
  ndiv := PrimFloat.div;
  nopp := PrimFloat.opp;
  nsqrt := PrimFloat.sqrt;
  nabs := PrimFloat.abs;
  nmax := F64.max;
  nlt := PrimFloat.ltb;
  nle := PrimFloat.leb
}.

(** [Math.cos] and [Math.sin] are left to the engine by the language, up to
    an approximation: on binary64 they are whatever functions the engine
    has. *)
Definition float_Trig (cos sin : float -> float) : Trig float := {|
  ncos := cos;
  nsin := sin;
  npi := F64.pi;
  nrem := F64.rem
|}.

(** *** Real numbers *)

Module Real.

Definition ltb (a b : R) : bool := if Rlt_dec a b then true else false.
Definition leb (a b : R) : bool := if Rle_dec a b then true else false.

(** Truncation toward zero, and the remainder that has the sign of the
    dividend: [a % b = a - b * trunc (a / b)]. *)
Definition trunc (a : R) : Z :=
  if Rle_dec 0 a then Int_part a else (- Int_part (- a))%Z.

Definition rem (a b : R) : R := (a - b * IZR (trunc (a / b)))%R.

End Real.

#[export] Instance R_Number : Number R := {
  of_Z := IZR;
  nadd := Rplus;
  nsub := Rminus;
  nmul := Rmult;
  ndiv := Rdiv;
  nopp := Ropp;
  nsqrt := sqrt;
  nabs := Rabs;
  nmax := Rmax;
  nlt := Real.ltb;
  nle := Real.leb
}.

#[export] Instance R_Trig : Trig R := {
  ncos := cos;
  nsin := sin;
  npi := PI;
  nrem := Real.rem
}.

(** ** Data *)

Record Point (num : Type) := mkPoint { x : num; y : num }.
Arguments mkPoint {num}.
Arguments x {num}.
Arguments y {num}.

Record Bounds (num : Type) := mkBounds {
  minX : num; minY : num; maxX : num; maxY : num
}.
Arguments mkBounds {num}.
Arguments minX {num}.
Arguments minY {num}.
Arguments maxX {num}.
Arguments maxY {num}.

(** ** [geometry.js] *)

Section Geometry.

Context {num : Type} {N : Number num}.
Local Open Scope num_scope.

Local Notation "'Pt'" := (Point num).
Local Notation "'Poly'" := (list (Point num)).

(** [poly[(i + 1) % poly.length]] for every index [i]: the polygon turned
    by one place. *)
Definition successors (poly : Poly) : Poly :=
  match poly with
  | [] => []
  | p :: rest => rest ++ [p]
  end.

(** [poly[(i + poly.length - 1) % poly.length]] for every index [i]. *)
Definition predecessors (poly : Poly) : Poly :=
  match poly with
  | [] => []
  | p :: _ => last poly p :: removelast poly
  end.

(** Euclidean distance between two points. *)
Definition dist (a b : Pt) : num :=
  let dx := x a - x b in
  let dy := y a - y b in
  nsqrt (dx * dx + dy * dy).

(** Signed area of a polygon (positive = CCW). *)
Definition polygonArea (poly : Poly) : num :=
  fold_left
    (fun area '(pi, pj) => area + x pi * y pj - x pj * y pi)
    (combine poly (successors poly)) (of_Z 0)
  / of_Z 2.

(** The threshold [1e-10] of the degenerate cases. *)
Definition epsilon : num := of_Z 1 / of_Z 10000000000.

(** Centroid of a simple polygon. *)
Definition polygonCentroid (poly : Poly) : Pt :=
  let a := polygonArea poly in
  if nabs a <? epsilon then
    let n := of_Z (Z.of_nat (length poly)) in
    let cx := fold_left (fun s p => s + x p) poly (of_Z 0) / n in
    let cy := fold_left (fun s p => s + y p) poly (of_Z 0) / n in
    mkPoint cx cy
  else
    let '(cx, cy) :=
      fold_left
        (fun '(cx, cy) '(pi, pj) =>
           let cross := x pi * y pj - x pj * y pi in
           (cx + (x pi + x pj) * cross, cy + (y pi + y pj) * cross))
        (combine poly (successors poly)) (of_Z 0, of_Z 0) in
    mkPoint (cx / (of_Z 6 * a)) (cy / (of_Z 6 * a)).

(** Point-in-polygon test (ray casting). *)
Definition pointInPolygon (pt : Pt) (poly : Poly) : bool :=
  fold_left
    (fun inside '(pi, pj) =>
       let xi := x pi in let yi := y pi in
       let xj := x pj in let yj := y pj in
       if negb (Bool.eqb (yi >? y pt) (yj >? y pt))
          && (x pt <? ((xj - xi) * (y pt - yi)) / (yj - yi) + xi)
       then negb inside else inside)
    (combine poly (predecessors poly)) false.

(** The four tests of the loop of [polygonBounds], on one vertex. *)
Definition extendBounds (b : Bounds num) (p : Pt) : Bounds num :=
  let b1 := if x p <? minX b
            then mkBounds (x p) (minY b) (maxX b) (maxY b) else b in
  let b2 := if y p <? minY b1
            then mkBounds (minX b1) (y p) (maxX b1) (maxY b1) else b1 in
  let b3 := if x p >? maxX b2
            then mkBounds (minX b2) (minY b2) (x p) (maxY b2) else b2 in
  if y p >? maxY b3
  then mkBounds (minX b3) (minY b3) (maxX b3) (y p) else b3.

(** Axis-aligned bounding box of a polygon.  The source starts from
    [Infinity] and [-Infinity], which the first vertex (of finite
    coordinates) replaces in all four bounds; the fold starts from the first
    vertex and runs over the others.  For the empty polygon, where the
    source returns the infinite bounds, the carrier has no such value and
    the bounds are zero: every caller then works on an outline without
    vertices, whose cells are all empty. *)
Definition polygonBounds (poly : Poly) : Bounds num :=
  match poly with
  | [] => mkBounds (of_Z 0) (of_Z 0) (of_Z 0) (of_Z 0)
  | p0 :: rest =>
      fold_left extendBounds rest (mkBounds (x p0) (y p0) (x p0) (y p0))
  end.

(** Check if point is on the left side of directed edge from a to b. *)
Definition isInside (point a b : Pt) : bool :=
  (x b - x a) * (y point - y a) - (y b - y a) * (x point - x a) >=? of_Z 0.

(** Line segment intersection between (p1,p2) and (p3,p4). *)
Definition lineIntersection (p1 p2 p3 p4 : Pt) : option Pt :=
  let x1 := x p1 in let y1 := y p1 in let x2 := x p2 in let y2 := y p2 in
  let x3 := x p3 in let y3 := y p3 in let x4 := x p4 in let y4 := y p4 in
  let denom := (x1 - x2) * (y3 - y4) - (y1 - y2) * (x3 - x4) in
  if nabs denom <? epsilon then None
  else
    let t := ((x1 - x3) * (y3 - y4) - (y1 - y3) * (x3 - x4)) / denom in
    Some (mkPoint (x1 + t * (x2 - x1)) (y1 + t * (y2 - y1))).

(** What one vertex pushes onto the output, in both clippers. *)
Definition clipVertex (a b : Pt) (cp : Pt * Pt) : Poly :=
  let '(current, prev) := cp in
  let currInside := isInside current a b in
  let prevInside := isInside prev a b in
  let inter := match lineIntersection prev current a b with
               | Some p => [p]
               | None => []
               end in
  if currInside then
    (if negb prevInside then inter else []) ++ [current]
  else if prevInside then inter
  else [].

(** The loop over the vertices of [input], against the line [a]-[b]. *)
Definition clipAgainst (input : Poly) (a b : Pt) : Poly :=
  flat_map (clipVertex a b) (combine input (predecessors input)).

(** The loop over the edges of [clip]. *)
Fixpoint clipLoop (output : Poly) (edges : list (Pt * Pt)) : Poly :=
  match edges with
  | [] => output
  | (edgeStart, edgeEnd) :: rest =>
      match output with
      | [] => []
      | _ => clipLoop (clipAgainst output edgeStart edgeEnd) rest
      end
  end.

(** Sutherland-Hodgman polygon clipping. *)
Definition clipPolygon (subject clip : Poly) : Poly :=
  if (length subject <? 3)%nat || (length clip <? 3)%nat then []
  else clipLoop subject (combine clip (successors clip)).

(** Clip a polygon against a half-plane defined by a line from [lineA] to
    [lineB].  Keeps the left side (CCW winding). *)
Definition clipPolygonByLine (polygon : Poly) (lineA lineB : Pt) : Poly :=
  if (length polygon <? 3)%nat then []
  else clipAgainst polygon lineA lineB.

(** *** Random sources

    [Math.random] is the ambient source: what its successive calls return
    is a stream [mathRandom], and the number of calls made so far is the
    state.  [mulberry32(seed)] is a closure over one 32-bit integer. *)

Variable mathRandom : nat -> num.

Definition toInt32 (z : Z) : Z := ((z + 2147483648) mod 4294967296 - 2147483648)%Z.
Definition toUint32 (z : Z) : Z := (z mod 4294967296)%Z.
(** [a ^ b], [a | b], [a >>> k] and [Math.imul(a, b)]. *)
Definition xor32 (a b : Z) : Z := toInt32 (Z.lxor (toInt32 a) (toInt32 b)).
Definition or32 (a b : Z) : Z := toInt32 (Z.lor (toInt32 a) (toInt32 b)).
Definition ushr32 (a k : Z) : Z := Z.shiftr (toUint32 a) k.
Definition imul (a b : Z) : Z := toInt32 (toInt32 a * toInt32 b).

(** One call of the closure [mulberry32] returns: the number drawn, and the
    new value of its variable [s]. *)
Definition mulberry32_next (s : Z) : num * Z :=
  let s := toInt32 (s + 1831565813) in                 (* 0x6d2b79f5 *)
  let t := imul (xor32 s (ushr32 s 15)) (or32 1 s) in
  let t := xor32 (t + imul (xor32 t (ushr32 t 7)) (or32 61 t)) t in
  (of_Z (ushr32 (xor32 t (ushr32 t 14)) 0) / of_Z 4294967296, s).

Inductive Rng : Type :=
| Mulberry32 (s : Z)      (* the closure [mulberry32(seed)], in state [s] *)
| MathRandom.             (* [Math.random] itself *)

(** [mulberry32(seed)]: [let s = seed | 0]. *)
Definition mulberry32 (seed : Z) : Rng := Mulberry32 (toInt32 seed).

(** The state of the two sources: the generator passed around as [rng],
    and the number of calls [Math.random] has answered. *)
Record Random := mkRandom { rng : Rng; ambient : nat }.

(** [rng()]. *)
Definition callRng (r : Random) : num * Random :=
  match rng r with
  | Mulberry32 s =>
      let '(v, s') := mulberry32_next s in (v, mkRandom (Mulberry32 s') (ambient r))
  | MathRandom => (mathRandom (ambient r), mkRandom MathRandom (S (ambient r)))
  end.

(** [Math.random()]. *)
Definition callMathRandom (r : Random) : num * Random :=
  (mathRandom (ambient r), mkRandom (rng r) (S (ambient r))).

(** *** Seeding, relaxation, cells *)

(** The requested number of points, as the loop of [randomPointsInPolygon]
    reads it: a number, or a value whose conversion to a number is NaN, in
    which case both comparisons of the loop condition are false. *)
Inductive Count : Type :=
| CountNum (n : nat)
| CountNaN.

Record Sampling := mkSampling {
  points : Poly;
  attempts : nat;
  source : Random
}.

(** The [while] loop of [randomPointsInPolygon]; [fuel] bounds the number
    of iterations, and [randomPointsInPolygon] gives as many as the loop
    can make. *)
Fixpoint samplingLoop (fuel : nat) (polygon : Poly) (bounds : Bounds num)
    (n : nat) (st : Sampling) : Sampling :=
  match fuel with
  | O => st
  | S fuel =>
      if (length (points st) <? n)%nat && (attempts st <? n * 200)%nat then
        let '(r1, src) := callRng (source st) in
        let px := minX bounds + r1 * (maxX bounds - minX bounds) in
        let '(r2, src) := callRng src in
        let py := minY bounds + r2 * (maxY bounds - minY bounds) in
        let pt := mkPoint px py in
        samplingLoop fuel polygon bounds n
          (mkSampling
             (if pointInPolygon pt polygon then points st ++ [pt] else points st)
             (S (attempts st)) src)
      else st
  end.

Definition sampling (polygon : Poly) (n : Count) (r : Random) : Sampling :=
  match n with
  | CountNum n =>
      samplingLoop (n * 200) polygon (polygonBounds polygon) n (mkSampling [] 0 r)
  | CountNaN => mkSampling [] 0 r
  end.

(** Generate N random points inside a polygon using rejection sampling. *)
Definition randomPointsInPolygon (polygon : Poly) (n : Count) (r : Random)
  : Poly * Random :=
  let st := sampling polygon n r in (points st, source st).

(** The perpendicular bisector between seed [si] and seed [sj], as the two
    points [lineA] and [lineB] the source places on it. *)
Definition bisector (si sj : Pt) : Pt * Pt :=
  let mid := mkPoint ((x si + x sj) / of_Z 2) ((y si + y sj) / of_Z 2) in
  let dx := x sj - x si in
  let dy := y sj - y si in
  (mkPoint (x mid - dy) (y mid + dx), mkPoint (x mid + dy) (y mid - dx)).

(** The loop over [j] of [computeVoronoiCells], for the seed of index [i]:
    [continue] when [i === j], [break] once the cell has fewer than three
    vertices (no later iteration changes the cell then). *)
Fixpoint bisectorLoop (i : nat) (si : Pt) (j : nat) (others : Poly) (cell : Poly)
  : Poly :=
  match others with
  | [] => cell
  | sj :: rest =>
      if (i =? j)%nat then bisectorLoop i si (S j) rest cell
      else if (length cell <? 3)%nat then cell
      else
        let '(lineA, lineB) := bisector si sj in
        bisectorLoop i si (S j) rest (clipPolygonByLine cell lineA lineB)
  end.

Definition bigBox (polygon : Poly) : Poly :=
  let bounds := polygonBounds polygon in
  let pad := nmax (maxX bounds - minX bounds) (maxY bounds - minY bounds)
             * (of_Z 1 / of_Z 2) in
  [ mkPoint (minX bounds - pad) (minY bounds - pad);
    mkPoint (maxX bounds + pad) (minY bounds - pad);
    mkPoint (maxX bounds + pad) (maxY bounds + pad);
    mkPoint (minX bounds - pad) (maxY bounds + pad) ].

Definition voronoiCell (seeds polygon : Poly) (i : nat) (si : Pt) : Poly :=
  let cell := bisectorLoop i si 0 seeds (bigBox polygon) in
  let cell := if (3 <=? length cell)%nat then clipPolygon cell polygon else cell in
  if (3 <=? length cell)%nat then cell else [].

(** [f 0 a0; f 1 a1; ...]: a loop over an array that reads its index. *)
Fixpoint mapi_from {A B : Type} (f : nat -> A -> B) (i : nat) (l : list A)
  : list B :=
  match l with
  | [] => []
  | a :: rest => f i a :: mapi_from f (S i) rest
  end.

(** Compute Voronoi cells for seeds clipped to a bounding polygon.
    Uses half-plane intersection method. *)
Definition computeVoronoiCells (seeds polygon : Poly) : list Poly :=
  mapi_from (voronoiCell seeds polygon) 0 seeds.

(** One iteration of [lloydRelax]. *)
Definition lloydStep (current polygon : Poly) : Poly :=
  let cells := computeVoronoiCells current polygon in
  map (fun '(s, cell) =>
         if (3 <=? length cell)%nat then
           let c := polygonCentroid cell in
           (* Only move if centroid is inside the polygon *)
           if pointInPolygon c polygon then c else s
         else s)
      (combine current cells).

(** Lloyd relaxation: move each point toward the centroid of its Voronoi
    cell. *)
Fixpoint lloydRelax (seeds polygon : Poly) (iterations : nat) : Poly :=
  match iterations with
  | O => seeds
  | S iterations => lloydRelax (lloydStep seeds polygon) polygon iterations
  end.

End Geometry.

Arguments Sampling : clear implicits.
Arguments mulberry32_next : simpl never.

(** ** [fracture.js] *)

Record Fragment (num : Type) := mkFragment {
  id : Z;
  polygon : list (Point num);
  centroid : Point num;
  correctPosition : Point num;
  currentPosition : Point num;
  rotation : num;
  isPlaced : bool;
  zIndex : Z
}.
Arguments mkFragment {num}.
Arguments id {num}.
Arguments polygon {num}.
Arguments centroid {num}.
Arguments correctPosition {num}.
Arguments currentPosition {num}.
Arguments rotation {num}.
Arguments isPlaced {num}.
Arguments zIndex {num}.

(** The values a caller may pass as [difficulty]. *)
Inductive JSValue : Type :=
| JSUndefined                 (* the argument is omitted *)
| JSNull
| JSBoolean (b : bool)
| JSNumber (n : Z)
| JSString (s : string)
| JSArray (elements : list JSValue)
| JSObject (toString : string).
  (* an object that is no array, given by the string it converts to:
     "[object Object]" unless the object brings a conversion of its own *)

(** [String(value)], the name under which a value that is no string reads a
    property.  An integer prints in decimal (as a number does below 10^21);
    an array prints its elements joined by commas, [null] and [undefined]
    among them as nothing. *)
Fixpoint ToString (value : JSValue) : string :=
  match value with
  | JSUndefined => "undefined"
  | JSNull => "null"
  | JSBoolean b => if b then "true" else "false"
  | JSNumber n => NilZero.string_of_int (Z.to_int n)
  | JSString s => s
  | JSArray elements =>
      (fix join (elements : list JSValue) : string :=
         match elements with
         | [] => ""
         | element :: rest =>
             let text :=
               match element with
               | JSUndefined | JSNull => ""
               | _ => ToString element
               end in
             match rest with
             | [] => text
             | _ :: _ => text ++ "," ++ join rest
             end
         end) elements
  | JSObject toString => toString
  end%string.

(** What reading a property of the object literal [PIECE_COUNTS] gives. *)
Inductive Property : Type :=
| OwnCount (n : nat)          (* one of the three own properties *)
| Inherited                   (* a member of [Object.prototype]: a function or an object *)
| Missing.                    (* [undefined] *)

Section Fracture.

Context {num : Type} {N : Number num}.
Local Open Scope num_scope.

Local Notation "'Pt'" := (Point num).
Local Notation "'Poly'" := (list (Point num)).

Variable mathRandom : nat -> num.

(** The names [Object.prototype] answers to; an object literal inherits
    them. *)
Definition objectPrototype : list string :=
  [ "constructor"; "toString"; "toLocaleString"; "valueOf"; "hasOwnProperty";
    "isPrototypeOf"; "propertyIsEnumerable"; "__proto__";
    "__defineGetter__"; "__defineSetter__"; "__lookupGetter__";
    "__lookupSetter__" ]%string.

(** Piece counts for each difficulty level: [PIECE_COUNTS[key]]. *)
Definition PIECE_COUNTS (key : string) : Property :=
  if String.eqb key "easy"%string then OwnCount 5
  else if String.eqb key "medium"%string then OwnCount 8
  else if String.eqb key "hard"%string then OwnCount 13
  else if existsb (String.eqb key) objectPrototype then Inherited
  else Missing.

(** [PIECE_COUNTS[difficulty]]: the property is read under the name the
    argument converts to, so an array or an object reads the property its
    text names. *)
Definition lookupDifficulty (difficulty : JSValue) : Property :=
  match difficulty with
  | JSUndefined => PIECE_COUNTS "medium"%string    (* the default parameter *)
  | _ => PIECE_COUNTS (ToString difficulty)
  end.

(** [PIECE_COUNTS[difficulty] || PIECE_COUNTS.medium]: the own counts and
    the inherited members are truthy, [undefined] is not. *)
Definition pieceCount (difficulty : JSValue) : Count :=
  match lookupDifficulty difficulty with
  | OwnCount n => CountNum n
  | Inherited => CountNaN
  | Missing => CountNum 8
  end.

(** The inner loop of [addTornEdgeNoise], for [s] from [s] to
    [subdivisions], on the edge from [a] to [b]. *)
Fixpoint subdivide (todo : nat) (s : nat) (subdivisions : nat) (amount : num)
    (a b : Pt) (r : Random) : Poly * Random :=
  match todo with
  | O => ([], r)
  | S todo =>
      let t := of_Z (Z.of_nat s) / of_Z (Z.of_nat (subdivisions + 1)) in
      let mx := x a + (x b - x a) * t in
      let my := y a + (y b - y a) * t in
      (* Normal direction *)
      let dx := x b - x a in
      let dy := y b - y a in
      let len := nsqrt (dx * dx + dy * dy) in
      let '(p, r) :=
        if len >? of_Z 0 then
          let nx := (- dy) / len in
          let ny := dx / len in
          let '(u, r) := callMathRandom mathRandom r in
          let displacement := (u - of_Z 1 / of_Z 2) * of_Z 2 * amount in
          (mkPoint (mx + nx * displacement) (my + ny * displacement), r)
        else (mkPoint mx my, r) in
      let '(rest, r) := subdivide todo (S s) subdivisions amount a b r in
      (p :: rest, r)
  end.

(** The outer loop of [addTornEdgeNoise], over the edges. *)
Fixpoint noiseEdges (edges : list (Pt * Pt)) (amount : num) (subdivisions : nat)
    (r : Random) : Poly * Random :=
  match edges with
  | [] => ([], r)
  | (a, b) :: rest =>
      let '(mids, r) := subdivide subdivisions 1 subdivisions amount a b r in
      let '(more, r) := noiseEdges rest amount subdivisions r in
      (a :: mids ++ more, r)
  end.

(** Add slight noise to polygon edges so fractures look more like torn
    edges. *)
Definition addTornEdgeNoise (polygon : Poly) (amount : num) (subdivisions : nat)
    (r : Random) : Poly * Random :=
  if (length polygon <? 3)%nat then (polygon, r)
  else noiseEdges (combine polygon (successors polygon)) amount subdivisions r.

(** The seeds handed to the relaxation: the sampled points, or the three
    points around the centre of the bounding box. *)
Definition fallbackSeeds (outline : Poly) : Poly :=
  let bounds := polygonBounds outline in
  let cx := (minX bounds + maxX bounds) / of_Z 2 in
  let cy := (minY bounds + maxY bounds) / of_Z 2 in
  [ mkPoint cx cy;
    mkPoint (cx - of_Z 20) (cy - of_Z 20);
    mkPoint (cx + of_Z 20) (cy + of_Z 20) ].

Definition initialSeeds (outline : Poly) (n : Count) (r : Random) : Poly * Random :=
  let '(seeds, r) := randomPointsInPolygon mathRandom outline n r in
  (if (length seeds <? 3)%nat then fallbackSeeds outline else seeds, r).

(** The test a cell passes to become a fragment: three vertices at least,
    and an area that is not under 1% of the total. *)
Definition keepsCell (totalArea : num) (cell : Poly) : bool :=
  (3 <=? length cell)%nat
  && negb (nabs (polygonArea cell) <? totalArea * (of_Z 1 / of_Z 100)).

(** The loop that builds the fragment objects, from the cell of index [i]
    on. *)
Fixpoint buildFragments (totalArea : num) (i : nat) (cells : list Poly)
    (r : Random) : list (Fragment num) * Random :=
  match cells with
  | [] => ([], r)
  | cell :: rest =>
      if keepsCell totalArea cell then
        (* Add subtle torn edge noise *)
        let '(cell, r) := addTornEdgeNoise cell (of_Z 2) 1 r in
        let centroid := polygonCentroid cell in
        let frag :=
          mkFragment (Z.of_nat i) cell centroid centroid
            (mkPoint (of_Z 0) (of_Z 0)) (of_Z 0) false (Z.of_nat i) in
        let '(frags, r) := buildFragments totalArea (S i) rest r in
        (frag :: frags, r)
      else buildFragments totalArea (S i) rest r
  end.

(** The seeds after relaxation, and the cells the fragments are cut from. *)
Definition relaxedSeeds (outline : Poly) (n : Count) (r : Random) : Poly * Random :=
  let '(seeds, r) := initialSeeds outline n r in
  (lloydRelax seeds outline 2, r).

Definition fragmentCells (outline : Poly) (n : Count) (r : Random)
  : list Poly * Random :=
  let '(seeds, r) := relaxedSeeds outline n r in
  (computeVoronoiCells seeds outline, r).

(** Generate puzzle fragments from a leaf outline.  [seed] is [None] for
    an omitted or null seed; [calls] is the number of calls [Math.random]
    has answered before. *)
Definition generateFragmentsFrom (calls : nat) (outline : Poly)
    (difficulty : JSValue) (seed : option Z) : list (Fragment num) * Random :=
  let n := pieceCount difficulty in
  let r := mkRandom (match seed with
                     | Some seed => mulberry32 seed
                     | None => MathRandom
                     end) calls in
  let '(cells, r) := fragmentCells outline n r in
  let totalArea := nabs (polygonArea outline) in
  buildFragments totalArea 0 cells r.

Definition generateFragments (outline : Poly) (difficulty : JSValue)
    (seed : option Z) : list (Fragment num) :=
  fst (generateFragmentsFrom 0 outline difficulty seed).

End Fracture.

(** ** Placement and hit-testing *)

Section Placement.

Context {num : Type} {N : Number num} {T : Trig num}.
Local Open Scope num_scope.

Local Notation "'Pt'" := (Point num).
Local Notation "'Poly'" := (list (Point num)).

(** Transform a point by rotation around origin, then translate
    ([geometry.js]). *)
Definition transformPoint (p : Pt) (rotation : num) (translation : Pt) : Pt :=
  let cos := ncos rotation in
  let sin := nsin rotation in
  mkPoint (x p * cos - y p * sin + x translation)
          (x p * sin + y p * cos + y translation).

(** The canvas point in the fragment's local coordinates. *)
Definition localPoint (canvasPoint : Pt) (fragment : Fragment num) : Pt :=
  let dx := x canvasPoint - x (currentPosition fragment) in
  let dy := y canvasPoint - y (currentPosition fragment) in
  let cos := ncos (- rotation fragment) in
  let sin := nsin (- rotation fragment) in
  mkPoint (dx * cos - dy * sin) (dx * sin + dy * cos).

(** Check if a canvas-space point hits a fragment (accounting for position
    and rotation) ([geometry.js]). *)
Definition hitTestFragment (canvasPoint : Pt) (fragment : Fragment num) : bool :=
  (* Fragment polygon is relative to centroid *)
  let poly :=
    map (fun v => mkPoint (x v - x (centroid fragment)) (y v - y (centroid fragment)))
        (polygon fragment) in
  pointInPolygon (localPoint canvasPoint fragment) poly.

(** The rotation normalized to [0, 2π), and the test that it is close to
    0 (or 2π). *)
Definition normalizedRotation (rotation : num) : num :=
  let rot := nrem rotation (npi * of_Z 2) in
  if rot <? of_Z 0 then rot + npi * of_Z 2 else rot.

Definition angleOk (rotation snapAngle : num) : bool :=
  let rot := normalizedRotation rotation in
  (rot <? snapAngle) || (rot >? npi * of_Z 2 - snapAngle).

(** Check if a fragment is close enough to snap into place. *)
Definition checkSnap (fragment : Fragment num) (leafOrigin : Pt)
    (snapDistance snapAngle : num) : bool :=
  (* Target position in canvas space *)
  let targetX := x leafOrigin + x (centroid fragment) in
  let targetY := y leafOrigin + y (centroid fragment) in
  let dx := x (currentPosition fragment) - targetX in
  let dy := y (currentPosition fragment) - targetY in
  let distance := nsqrt (dx * dx + dy * dy) in
  (distance <? snapDistance) && angleOk (rotation fragment) snapAngle.

(** Record updates: the assignments to a fragment's fields. *)
Definition setCurrentPosition (f : Fragment num) (p : Pt) : Fragment num :=
  mkFragment (id f) (polygon f) (centroid f) (correctPosition f) p
    (rotation f) (isPlaced f) (zIndex f).
Definition setRotation (f : Fragment num) (r : num) : Fragment num :=
  mkFragment (id f) (polygon f) (centroid f) (correctPosition f)
    (currentPosition f) r (isPlaced f) (zIndex f).
Definition setIsPlaced (f : Fragment num) (b : bool) : Fragment num :=
  mkFragment (id f) (polygon f) (centroid f) (correctPosition f)
    (currentPosition f) (rotation f) b (zIndex f).
Definition setZIndex (f : Fragment num) (z : Z) : Fragment num :=
  mkFragment (id f) (polygon f) (centroid f) (correctPosition f)
    (currentPosition f) (rotation f) (isPlaced f) z.

(** Snap a fragment into its correct position. *)
Definition snapFragment (fragment : Fragment num) (leafOrigin : Pt) : Fragment num :=
  let fragment :=
    setCurrentPosition fragment
      (mkPoint (x leafOrigin + x (centroid fragment))
               (y leafOrigin + y (centroid fragment))) in
  let fragment := setRotation fragment (of_Z 0) in
  setIsPlaced fragment true.

End Placement.

(** ** [PuzzleCanvas.jsx]: the pointer, key and wheel handlers

    The fragments are objects shared between [fragmentsRef.current] and the
    handlers: an object is named by its place in the array, and a handler
    that assigns to a field of the object it found updates the array at
    that place. *)

Module PuzzleCanvas.

Section Handlers.

Context {num : Type} {N : Number num} {T : Trig num}.
Local Open Scope num_scope.

Local Notation "'Pt'" := (Point num).
Local Notation "'Frag'" := (Fragment num).

Definition SNAP_DISTANCE : num := of_Z 35.
Definition SNAP_ANGLE : num := of_Z 4 / of_Z 10.
Definition ROTATE_STEP : num := npi / of_Z 2.

(** [draggingRef.current], when it is not null. *)
Record Dragging := mkDragging {
  fragmentId : Z;
  offsetX : num;
  offsetY : num
}.

Record Canvas := mkCanvas {
  fragments : list Frag;              (* fragmentsRef.current *)
  dragging : option Dragging;         (* draggingRef.current *)
  leafOrigin : Pt;                    (* leafOriginRef.current *)
  scale : num;                        (* scaleRef.current *)
  showGhost : bool;
  isVictory : bool                    (* the prop, set by onVictory *)
}.

Definition withFragments (c : Canvas) (fs : list Frag) : Canvas :=
  mkCanvas fs (dragging c) (leafOrigin c) (scale c) (showGhost c) (isVictory c).
Definition withDragging (c : Canvas) (d : option Dragging) : Canvas :=
  mkCanvas (fragments c) d (leafOrigin c) (scale c) (showGhost c) (isVictory c).

(** The array with the object at place [i] replaced by [f i]. *)
Fixpoint updateAt (i : nat) (f : Frag -> Frag) (fs : list Frag) : list Frag :=
  match fs, i with
  | [], _ => []
  | a :: rest, O => f a :: rest
  | a :: rest, S i => a :: updateAt i f rest
  end.

(** The objects of the array, each with its place. *)
Definition places (fs : list Frag) : list (nat * Frag) :=
  mapi_from (fun i f => (i, f)) 0 fs.

(** [sort((a, b) => b.zIndex - a.zIndex)]: a stable sort, larger [zIndex]
    first. *)
Fixpoint insertByZ (e : nat * Frag) (sorted : list (nat * Frag))
  : list (nat * Frag) :=
  match sorted with
  | [] => [e]
  | a :: rest =>
      if (zIndex (snd a) <? zIndex (snd e))%Z then e :: a :: rest
      else a :: insertByZ e rest
  end.

Definition sortTopmostFirst (l : list (nat * Frag)) : list (nat * Frag) :=
  fold_left (fun sorted e => insertByZ e sorted) l [].

(** [[...fragments].filter((f) => !f.isPlaced).sort(...)]. *)
Definition unplacedTopmostFirst (fs : list Frag) : list (nat * Frag) :=
  sortTopmostFirst (filter (fun e => negb (isPlaced (snd e))) (places fs)).

(** The copy of a fragment that [findFragment] hands to the hit test. *)
Definition scaledFrag (frag : Frag) (scale : num) : Frag :=
  mkFragment (id frag)
    (map (fun v => mkPoint (x v * scale) (y v * scale)) (polygon frag))
    (mkPoint (x (centroid frag) * scale) (y (centroid frag) * scale))
    (correctPosition frag) (currentPosition frag) (rotation frag)
    (isPlaced frag) (zIndex frag).

(** Find topmost unplaced fragment at a point: the place of the object
    returned, or [None] for [null]. *)
Definition findFragment (c : Canvas) (pos : Pt) : option nat :=
  option_map fst
    (find (fun e => hitTestFragment pos (scaledFrag (snd e) (scale c)))
          (unplacedTopmostFirst (fragments c))).

(** [fragmentsRef.current.find((f) => f.id === fragmentId)]. *)
Definition findById (fs : list Frag) (fragmentId : Z) : option (nat * Frag) :=
  find (fun e => Z.eqb (id (snd e)) fragmentId) (places fs).

(** [Math.max(...fragments.map((f) => f.zIndex))]; it is read only after
    a fragment was found, hence on a list that is not empty. *)
Definition maxZIndex (fs : list Frag) : Z :=
  match fs with
  | [] => 0
  | f :: rest => fold_left Z.max (map (@zIndex num) rest) (zIndex f)
  end.

Definition handlePointerDown (c : Canvas) (pos : Pt) : Canvas :=
  if isVictory c then c
  else
    match findFragment c pos with
    | Some i =>
        match nth_error (fragments c) i with
        | Some frag =>
            (* Bring to top *)
            let maxZ := maxZIndex (fragments c) in
            let c := withFragments c
                       (updateAt i (fun f => setZIndex f (maxZ + 1)%Z) (fragments c)) in
            withDragging c
              (Some (mkDragging (id frag)
                       (x pos - x (currentPosition frag))
                       (y pos - y (currentPosition frag))))
        | None => c
        end
    | None => c
    end.

Definition handlePointerMove (c : Canvas) (pos : Pt) : Canvas :=
  match dragging c with
  | None => c
  | Some d =>
      match findById (fragments c) (fragmentId d) with
      | Some (i, _) =>
          withFragments c
            (updateAt i
               (fun f => setCurrentPosition f
                           (mkPoint (x pos - offsetX d) (y pos - offsetY d)))
               (fragments c))
      | None => c
      end
  end.

(** The three assignments of a successful snap. *)
Definition snapTo (target : Pt) (f : Frag) : Frag :=
  setIsPlaced (setRotation (setCurrentPosition f target) (of_Z 0)) true.

Definition handlePointerUp (c : Canvas) : Canvas :=
  match dragging c with
  | None => c
  | Some d =>
      let found := findById (fragments c) (fragmentId d) in
      let c := withDragging c None in
      match found with
      | Some (i, frag) =>
          (* Check snap with scaled positions *)
          let targetX := x (leafOrigin c) + x (centroid frag) * scale c in
          let targetY := y (leafOrigin c) + y (centroid frag) * scale c in
          let dx := x (currentPosition frag) - targetX in
          let dy := y (currentPosition frag) - targetY in
          let distance := nsqrt (dx * dx + dy * dy) in
          if (distance <? SNAP_DISTANCE) && angleOk (rotation frag) SNAP_ANGLE then
            (* Snap! *)
            let c := withFragments c
                       (updateAt i (snapTo (mkPoint targetX targetY)) (fragments c)) in
            let newPlaced := length (filter (@isPlaced num) (fragments c)) in
            (* Check victory *)
            if (newPlaced =? length (fragments c))%nat then
              mkCanvas (fragments c) (dragging c) (leafOrigin c) (scale c)
                (showGhost c) true
            else c
          else c
      | None => c
      end
  end.

(** Rotation of the fragment being dragged, by [step]. *)
Definition rotateDragged (c : Canvas) (step : num) : Canvas :=
  match dragging c with
  | None => c
  | Some d =>
      match findById (fragments c) (fragmentId d) with
      | Some (i, _) =>
          withFragments c
            (updateAt i (fun f => setRotation f (rotation f + step)) (fragments c))
      | None => c
      end
  end.

(** Keyboard: R to rotate, G to toggle ghost. *)
Definition handleKeyR (c : Canvas) : Canvas := rotateDragged c ROTATE_STEP.
Definition handleKeyG (c : Canvas) : Canvas :=
  mkCanvas (fragments c) (dragging c) (leafOrigin c) (scale c)
    (negb (showGhost c)) (isVictory c).

(** Scroll wheel to rotate selected piece. *)
Definition handleWheel (c : Canvas) (deltaY : num) : Canvas :=
  rotateDragged c (if deltaY >? of_Z 0 then ROTATE_STEP else - ROTATE_STEP).

(** Rotate button (for mobile): rotate the most recently interacted
    unplaced piece. *)
Definition handleRotateBtn (c : Canvas) : Canvas :=
  match unplacedTopmostFirst (fragments c) with
  | (i, _) :: _ =>
      withFragments c
        (updateAt i (fun f => setRotation f (rotation f + ROTATE_STEP)) (fragments c))
  | [] => c
  end.

Inductive Event : Type :=
| PointerDown (pos : Pt)
| PointerMove (pos : Pt)
| PointerUp
| KeyR
| KeyG
| Wheel (deltaY : num)
| RotateBtn.

Definition handle (c : Canvas) (e : Event) : Canvas :=
  match e with
  | PointerDown pos => handlePointerDown c pos
  | PointerMove pos => handlePointerMove c pos
  | PointerUp => handlePointerUp c
  | KeyR => handleKeyR c
  | KeyG => handleKeyG c
  | Wheel deltaY => handleWheel c deltaY
  | RotateBtn => handleRotateBtn c
  end.

Definition run (c : Canvas) (events : list Event) : Canvas :=
  fold_left handle events c.

End Handlers.

Arguments Dragging : clear implicits.
Arguments Canvas : clear implicits.
Arguments Event : clear implicits.

End PuzzleCanvas.

(** * Properties *)

(** ** Lengths: what the loops keep *)

Section Lengths.

Context {num : Type} {N : Number num}.
Variable mathRandom : nat -> num.

Lemma mapi_from_length {A B : Type} (f : nat -> A -> B) (l : list A) (i : nat) :
  length (mapi_from f i l) = length l.
Proof.
  revert i; induction l as [|a l IH]; intro i; simpl; [reflexivity|].
  now rewrite IH.
Qed.

Lemma computeVoronoiCells_length (seeds polygon : list (Point num)) :
  length (computeVoronoiCells seeds polygon) = length seeds.
Proof. apply mapi_from_length. Qed.

Lemma lloydStep_length (seeds polygon : list (Point num)) :
  length (lloydStep seeds polygon) = length seeds.
Proof.
  unfold lloydStep.
  rewrite length_map, length_combine, computeVoronoiCells_length.
  apply Nat.min_id.
Qed.

Lemma lloydRelax_length (iterations : nat) (seeds polygon : list (Point num)) :
  length (lloydRelax seeds polygon iterations) = length seeds.
Proof.
  revert seeds; induction iterations as [|k IH]; intro seeds; simpl.
  - reflexivity.
  - now rewrite IH, lloydStep_length.
Qed.

(** The sampling loop: the attempts never pass [200 * n], the points never
    pass [n], and with the fuel [randomPointsInPolygon] gives, the loop
    ends because its own condition fails. *)
Lemma samplingLoop_bounds (polygon : list (Point num)) (bounds : Bounds num)
    (n fuel : nat) (st : Sampling num) :
  (attempts st <= n * 200)%nat ->
  (length (points st) <= n)%nat ->
  let st' := samplingLoop mathRandom fuel polygon bounds n st in
  (attempts st' <= n * 200)%nat /\ (length (points st') <= n)%nat.
Proof.
  revert st; induction fuel as [|fuel IH]; intros st Ha Hp; simpl.
  - split; assumption.
  - destruct (length (points st) <? n)%nat eqn:E1; simpl; [|split; assumption].
    destruct (attempts st <? n * 200)%nat eqn:E2; simpl; [|split; assumption].
    apply Nat.ltb_lt in E1, E2.
    destruct (callRng mathRandom (source st)) as [r1 src1].
    destruct (callRng mathRandom src1) as [r2 src2].
    apply IH; simpl; [lia|].
    destruct (pointInPolygon _ polygon); [|lia].
    rewrite length_app; simpl; lia.
Qed.

Lemma samplingLoop_exit (polygon : list (Point num)) (bounds : Bounds num)
    (n fuel : nat) (st : Sampling num) :
  (n * 200 <= attempts st + fuel)%nat ->
  let st' := samplingLoop mathRandom fuel polygon bounds n st in
  ((length (points st') <? n)%nat && (attempts st' <? n * 200)%nat) = false.
Proof.
  revert st; induction fuel as [|fuel IH]; intros st Hf; simpl.
  - replace (attempts st <? n * 200)%nat with false
      by (symmetry; apply Nat.ltb_ge; lia).
    apply andb_false_r.
  - destruct ((length (points st) <? n)%nat && (attempts st <? n * 200)%nat) eqn:E;
      [|exact E].
    destruct (callRng mathRandom (source st)) as [r1 src1].
    destruct (callRng mathRandom src1) as [r2 src2].
    apply IH; simpl; lia.
Qed.

Lemma fallbackSeeds_length (outline : list (Point num)) :
  length (fallbackSeeds outline) = 3%nat.
Proof. reflexivity. Qed.

Lemma initialSeeds_length (outline : list (Point num)) (n : Count) (r : Random) :
  (3 <= length (fst (initialSeeds mathRandom outline n r)))%nat.
Proof.
  unfold initialSeeds, randomPointsInPolygon; simpl.
  destruct (length (points (sampling mathRandom outline n r)) <? 3)%nat eqn:E; simpl.
  - lia.
  - now apply Nat.ltb_ge in E.
Qed.

End Lengths.

(** ** The clipper *)

Section Clipper.

Context {num : Type} {N : Number num}.

Lemma clipLoop_nil (edges : list (Point num * Point num)) :
  clipLoop [] edges = [].
Proof. destruct edges as [|[a b] rest]; reflexivity. Qed.

Lemma clipLoop_app (output : list (Point num))
    (done todo : list (Point num * Point num)) :
  clipLoop output (done ++ todo) = clipLoop (clipLoop output done) todo.
Proof.
  revert output; induction done as [|[a b] done IH]; intro output; simpl.
  - reflexivity.
  - destruct output as [|p output].
    + now rewrite clipLoop_nil.
    + apply IH.
Qed.

Lemma voronoiCell_length (seeds polygon : list (Point num)) (i : nat)
    (si : Point num) :
  voronoiCell seeds polygon i si = [] \/
  (3 <= length (voronoiCell seeds polygon i si))%nat.
Proof.
  unfold voronoiCell.
  match goal with |- context [if (3 <=? length ?c)%nat then ?c else []] =>
    destruct (3 <=? length c)%nat eqn:E end.
  - right; now apply Nat.leb_le in E.
  - now left.
Qed.

Lemma mapi_from_In {A B : Type} (f : nat -> A -> B) (l : list A) (i : nat) (b : B) :
  In b (mapi_from f i l) -> exists j a, In a l /\ b = f j a.
Proof.
  revert i; induction l as [|a l IH]; intros i H; simpl in H; [contradiction|].
  destruct H as [H|H].
  - exists i, a; split; [now left|now symmetry].
  - destruct (IH _ H) as (j & a' & Ha & Hb).
    exists j, a'; split; [now right|assumption].
Qed.

(** C4, as the code has it.  [clipPolygon] returns the empty polygon when
    the subject or the clip polygon has fewer than three vertices, and as
    soon as the output of a stage is empty; an output of one or two
    vertices is clipped on and may be returned.  [computeVoronoiCells],
    its caller, drops such a result: each of its cells is empty or has at
    least three vertices. *)
Theorem clipPolygon_halts_on_empty_only :
  (forall subject clip : list (Point num),
      (length subject < 3)%nat \/ (length clip < 3)%nat ->
      clipPolygon subject clip = []) /\
  (forall (subject : list (Point num)) (done todo : list (Point num * Point num)),
      clipLoop subject done = [] -> clipLoop subject (done ++ todo) = []) /\
  (forall (seeds polygon cell : list (Point num)),
      In cell (computeVoronoiCells seeds polygon) ->
      cell = [] \/ (3 <= length cell)%nat).
Proof.
  split; [|split].
  - intros subject clip H; unfold clipPolygon.
    destruct H as [H|H]; apply Nat.ltb_lt in H; rewrite H;
      [reflexivity|now rewrite orb_true_r].
  - intros subject done todo H.
    now rewrite clipLoop_app, H, clipLoop_nil.
  - intros seeds polygon cell H.
    apply mapi_from_In in H; destruct H as (j & si & _ & ->).
    apply voronoiCell_length.
Qed.

End Clipper.

(** ** The fragment generator *)

Section Generator.

Context {num : Type} {N : Number num}.

(** With a seeded generator the sampling reads nothing of [Math.random]:
    two runs that differ in the ambient stream, or in how far it has been
    read, draw the same points. *)
Lemma samplingLoop_seeded (mr mr' : nat -> num) (polygon : list (Point num))
    (bounds : Bounds num) (n fuel : nat) (pts : list (Point num)) (att : nat)
    (s : Z) (c c' : nat) :
  let st := samplingLoop mr fuel polygon bounds n
              (mkSampling pts att (mkRandom (Mulberry32 s) c)) in
  let st' := samplingLoop mr' fuel polygon bounds n
               (mkSampling pts att (mkRandom (Mulberry32 s) c')) in
  points st = points st' /\ attempts st = attempts st' /\
  rng (source st) = rng (source st') /\
  ambient (source st) = c /\ ambient (source st') = c'.
Proof.
  revert pts att s; induction fuel as [|fuel IH]; intros pts att s.
  - simpl; repeat split.
  - cbn [samplingLoop points attempts source].
    destruct ((length pts <? n)%nat && (att <? n * 200)%nat).
    + unfold callRng; cbn [rng ambient].
      destruct (mulberry32_next s) as [r1 s1]; cbn [rng ambient].
      destruct (mulberry32_next s1) as [r2 s2].
      apply IH.
    + repeat split.
Qed.

Lemma fragmentCells_seeded (mr mr' : nat -> num) (outline : list (Point num))
    (n : Count) (s : Z) (c c' : nat) :
  fst (fragmentCells mr outline n (mkRandom (Mulberry32 s) c)) =
  fst (fragmentCells mr' outline n (mkRandom (Mulberry32 s) c')).
Proof.
  unfold fragmentCells, relaxedSeeds, initialSeeds, randomPointsInPolygon; simpl.
  assert (H : points (sampling mr outline n (mkRandom (Mulberry32 s) c)) =
              points (sampling mr' outline n (mkRandom (Mulberry32 s) c'))).
  { destruct n as [k|]; simpl; [|reflexivity].
    apply samplingLoop_seeded. }
  now rewrite H.
Qed.

Variable mathRandom : nat -> num.

(** The loop over the cells keeps the cells that pass [keepsCell], in
    order; the noise changes their vertices, not their number. *)
Lemma buildFragments_length (totalArea : num) (cells : list (list (Point num)))
    (i : nat) (r : Random) :
  length (fst (buildFragments mathRandom totalArea i cells r)) =
  length (filter (keepsCell totalArea) cells).
Proof.
  revert i r; induction cells as [|cell cells IH]; intros i r; simpl.
  - reflexivity.
  - destruct (keepsCell totalArea cell).
    + destruct (addTornEdgeNoise mathRandom cell (of_Z 2) 1 r) as [cell' r'].
      specialize (IH (S i) r').
      destruct (buildFragments mathRandom totalArea (S i) cells r') as [frags r''].
      simpl in *; now rewrite IH.
    + apply IH.
Qed.

(** Each fragment comes from the cell whose index is its [id]: a cell
    that passed [keepsCell], with the noise added. *)
Lemma buildFragments_In (totalArea : num) (cells : list (list (Point num)))
    (i : nat) (r : Random) (f : Fragment num) :
  In f (fst (buildFragments mathRandom totalArea i cells r)) ->
  exists (k : nat) (cell : list (Point num)) (r' : Random),
    nth_error cells k = Some cell /\
    id f = Z.of_nat (i + k) /\
    keepsCell totalArea cell = true /\
    polygon f = fst (addTornEdgeNoise mathRandom cell (of_Z 2) 1 r') /\
    centroid f = polygonCentroid (polygon f).
Proof.
  revert i r; induction cells as [|cell cells IH]; intros i r H; simpl in H.
  - contradiction.
  - destruct (keepsCell totalArea cell) eqn:K.
    + destruct (addTornEdgeNoise mathRandom cell (of_Z 2) 1 r) as [cell' r'] eqn:E.
      destruct (buildFragments mathRandom totalArea (S i) cells r') as [frags r''] eqn:B.
      simpl in H; destruct H as [<-|H].
      * exists 0%nat, cell, r; simpl; rewrite E; simpl.
        repeat split; [f_equal; lia|assumption].
      * specialize (IH (S i) r'); rewrite B in IH.
        destruct (IH H) as (k & c & r0 & Hn & Hi & Hk & Hp).
        exists (S k), c, r0; simpl; repeat split; try tauto.
        rewrite Hi; f_equal; lia.
    + destruct (IH (S i) r H) as (k & c & r0 & Hn & Hi & Hk & Hp).
      exists (S k), c, r0; simpl; repeat split; try tauto.
      rewrite Hi; f_equal; lia.
Qed.

(** The ids grow along the list: no two fragments share one. *)
Lemma buildFragments_ids (totalArea : num) (cells : list (list (Point num)))
    (i : nat) (r : Random) :
  let ids := map (@id num) (fst (buildFragments mathRandom totalArea i cells r)) in
  Forall (fun z => (Z.of_nat i <= z)%Z) ids /\ NoDup ids.
Proof.
  revert i r; induction cells as [|cell cells IH]; intros i r; simpl.
  - split; constructor.
  - destruct (keepsCell totalArea cell).
    + destruct (addTornEdgeNoise mathRandom cell (of_Z 2) 1 r) as [cell' r'].
      specialize (IH (S i) r').
      destruct (buildFragments mathRandom totalArea (S i) cells r') as [frags r''].
      simpl in *; destruct IH as [Hge Hnd]; split.
      * constructor; [lia|].
        eapply Forall_impl; [|exact Hge]; simpl; intros; lia.
      * constructor; [|assumption].
        intro Hin; rewrite Forall_forall in Hge.
        specialize (Hge _ Hin); lia.
    + destruct (IH (S i) r) as [Hge Hnd]; split; [|assumption].
      eapply Forall_impl; [|exact Hge]; simpl; intros; lia.
Qed.

Lemma generateFragments_ids (outline : list (Point num)) (difficulty : JSValue)
    (seed : option Z) :
  NoDup (map (@id num) (generateFragments mathRandom outline difficulty seed)).
Proof.
  unfold generateFragments, generateFragmentsFrom.
  destruct (fragmentCells _ _ _ _) as [cells r].
  apply buildFragments_ids.
Qed.

(** The number of seeds: what was asked for at most, or the three of the
    fallback. *)
Lemma initialSeeds_at_most (outline : list (Point num)) (n : Count) (r : Random) :
  (length (fst (initialSeeds mathRandom outline n r)) <=
   match n with CountNum k => Nat.max k 3 | CountNaN => 3 end)%nat.
Proof.
  unfold initialSeeds, randomPointsInPolygon; simpl.
  destruct (length (points (sampling mathRandom outline n r)) <? 3)%nat eqn:E; simpl.
  - destruct n; lia.
  - destruct n as [k|]; simpl in *; [|discriminate].
    pose proof (@samplingLoop_bounds _ _ mathRandom outline (polygonBounds outline)
                  k (k * 200) (mkSampling [] 0 r)) as H.
    simpl in H; destruct H as [_ H]; lia.
Qed.

Lemma fragmentCells_length (outline : list (Point num)) (n : Count) (r : Random) :
  length (fst (fragmentCells mathRandom outline n r)) =
  length (fst (initialSeeds mathRandom outline n r)).
Proof.
  unfold fragmentCells, relaxedSeeds.
  destruct (initialSeeds mathRandom outline n r) as [seeds r']; cbn [fst].
  now rewrite computeVoronoiCells_length, lloydRelax_length.
Qed.

End Generator.

(** Every difficulty that names a count names one of 5, 8 and 13. *)
Lemma pieceCount_tiers (difficulty : JSValue) (k : nat) :
  pieceCount difficulty = CountNum k -> k = 5%nat \/ k = 8%nat \/ k = 13%nat.
Proof.
  assert (H : forall key n, match PIECE_COUNTS key with
                            | OwnCount n => CountNum n
                            | Inherited => CountNaN
                            | Missing => CountNum 8
                            end = CountNum n ->
                            n = 5%nat \/ n = 8%nat \/ n = 13%nat).
  { intros key n; unfold PIECE_COUNTS.
    repeat match goal with |- context [if ?b then _ else _] => destruct b end;
      intros [= <-]; tauto. }
  unfold pieceCount, lookupDifficulty.
  destruct difficulty; apply H.
Qed.

Section Seeding.

Context {num : Type} {N : Number num}.
Variable mathRandom : nat -> num.
Local Open Scope num_scope.

(** C8.  Rejection sampling makes at most 200 times the requested number
    of attempts and then stops by its own condition; when it found fewer
    than three points the seeds are the three points around the centre of
    the bounding box; so the relaxation and the Voronoi builder always
    receive three seeds at least, whatever the outline. *)
Theorem seeding_is_bounded_and_falls_back
    (outline : list (Point num)) (n : Count) (r : Random) :
  let st := sampling mathRandom outline n r in
  let seeds := fst (initialSeeds mathRandom outline n r) in
  let bounds := polygonBounds outline in
  let cx := (minX bounds + maxX bounds) / of_Z 2 in
  let cy := (minY bounds + maxY bounds) / of_Z 2 in
  match n with
  | CountNum k =>
      (attempts st <= 200 * k)%nat /\
      ((length (points st) <? k)%nat && (attempts st <? k * 200)%nat) = false
  | CountNaN => attempts st = 0%nat
  end /\
  ((length (points st) < 3)%nat ->
   seeds = [ mkPoint cx cy;
             mkPoint (cx - of_Z 20) (cy - of_Z 20);
             mkPoint (cx + of_Z 20) (cy + of_Z 20) ]) /\
  ((3 <= length (points st))%nat -> seeds = points st) /\
  (3 <= length seeds)%nat /\
  (3 <= length (lloydRelax seeds outline 2))%nat /\
  (3 <= length (fst (fragmentCells mathRandom outline n r)))%nat.
Proof.
  intros st seeds bounds cx cy.
  pose proof (initialSeeds_length mathRandom outline n r) as H3.
  fold seeds in H3.
  repeat split.
  - destruct n as [k|]; [|reflexivity].
    pose proof (@samplingLoop_bounds _ _ mathRandom outline (polygonBounds outline)
                  k (k * 200) (mkSampling [] 0 r)) as Hb.
    pose proof (@samplingLoop_exit _ _ mathRandom outline (polygonBounds outline)
                  k (k * 200) (mkSampling [] 0 r)) as He.
    cbn [attempts points] in Hb, He.
    split; [|apply He; lia].
    subst st; unfold sampling.
    destruct Hb as [Hb _]; simpl; lia.
  - intro Hlt; subst seeds.
    unfold initialSeeds, randomPointsInPolygon; cbn [fst].
    fold st.
    apply Nat.ltb_lt in Hlt; now rewrite Hlt.
  - intro Hge; subst seeds.
    unfold initialSeeds, randomPointsInPolygon; cbn [fst].
    fold st.
    apply Nat.ltb_ge in Hge; now rewrite Hge.
  - exact H3.
  - now rewrite lloydRelax_length.
  - rewrite fragmentCells_length; exact H3.
Qed.

End Seeding.

(** ** Monotonic placement *)

Module Monotonic.

Import PuzzleCanvas.

Section Invariant.

Context {num : Type} {N : Number num} {T : Trig num}.

Local Notation "'Frag'" := (Fragment num).

(** What a handler does to the object it found: here, every assignment
    that leaves [id] and [isPlaced] alone. *)
Definition keepsIdentity (g : Frag -> Frag) : Prop :=
  forall f, id (g f) = id f /\ isPlaced (g f) = isPlaced f.

Lemma updateAt_ids (g : Frag -> Frag) (i : nat) (fs : list Frag) :
  (forall f, id (g f) = id f) ->
  map (@id num) (updateAt i g fs) = map (@id num) fs.
Proof.
  intro Hg; revert i; induction fs as [|a fs IH]; intros [|i]; simpl;
    try reflexivity.
  - now rewrite Hg.
  - now rewrite IH.
Qed.

Lemma updateAt_other (g : Frag -> Frag) (i j : nat) (fs : list Frag) :
  i <> j -> nth_error (updateAt i g fs) j = nth_error fs j.
Proof.
  revert i j; induction fs as [|a fs IH]; intros [|i] [|j] H; simpl;
    try reflexivity; try congruence.
  apply IH; congruence.
Qed.

Lemma updateAt_In (g : Frag -> Frag) (i : nat) (fs : list Frag) (a : Frag) :
  In a (updateAt i g fs) ->
  In a fs \/ exists b, nth_error fs i = Some b /\ a = g b.
Proof.
  revert i; induction fs as [|c fs IH]; intros [|i] H; simpl in *;
    try contradiction.
  - destruct H as [<-|H]; [right; now exists c|left; now right].
  - destruct H as [<-|H]; [left; now left|].
    destruct (IH _ H) as [H'|H']; [left; now right|right; exact H'].
Qed.

Lemma updateAt_length (g : Frag -> Frag) (i : nat) (fs : list Frag) :
  length (updateAt i g fs) = length fs.
Proof.
  revert i; induction fs as [|a fs IH]; intros [|i]; simpl; congruence.
Qed.

(** An update at the place of an unplaced object leaves every placed
    object as it was. *)
Lemma updateAt_placed (g : Frag -> Frag) (i : nat) (fs : list Frag) (b : Frag) :
  nth_error fs i = Some b -> isPlaced b = false ->
  forall j f, nth_error fs j = Some f -> isPlaced f = true ->
              nth_error (updateAt i g fs) j = Some f.
Proof.
  intros Hb Hu j f Hj Hp.
  rewrite updateAt_other; [assumption|].
  intros ->; rewrite Hb in Hj; injection Hj as ->; congruence.
Qed.

Lemma places_In (fs : list Frag) (k i : nat) (f : Frag) :
  In (i, f) (mapi_from (fun i f => (i, f)) k fs) ->
  (k <= i)%nat /\ nth_error fs (i - k) = Some f.
Proof.
  revert k; induction fs as [|a fs IH]; intros k H; simpl in H; [contradiction|].
  destruct H as [H|H].
  - injection H as <- <-; rewrite Nat.sub_diag; split; [lia|reflexivity].
  - destruct (IH _ H) as [Hk Hn]; split; [lia|].
    replace (i - k)%nat with (S (i - S k)) by lia; exact Hn.
Qed.

Lemma insertByZ_In (e a : nat * Frag) (sorted : list (nat * Frag)) :
  In a (insertByZ e sorted) -> a = e \/ In a sorted.
Proof.
  induction sorted as [|b sorted IH]; simpl.
  - intros [<-|[]]; now left.
  - destruct (zIndex (snd b) <? zIndex (snd e))%Z; simpl.
    + intros [<-|H]; [now left|now right].
    + intros [<-|H]; [right; now left|].
      destruct (IH H); [now left|right; now right].
Qed.

Lemma sortTopmostFirst_In (l : list (nat * Frag)) (a : nat * Frag) :
  In a (sortTopmostFirst l) -> In a l.
Proof.
  unfold sortTopmostFirst.
  assert (G : forall acc, In a (fold_left (fun sorted e => insertByZ e sorted) l acc) ->
                          In a acc \/ In a l).
  { induction l as [|e l IH]; intros acc H; simpl in *; [now left|].
    destruct (IH _ H) as [H'|H']; [|right; now right].
    destruct (insertByZ_In _ _ _ H') as [->|H'']; [right; now left|now left]. }
  intro H; destruct (G [] H) as [[]|H']; exact H'.
Qed.

(** What [filter(!isPlaced).sort(...)] lists: unplaced objects of the
    array, each at its place. *)
Lemma unplacedTopmostFirst_In (fs : list Frag) (i : nat) (f : Frag) :
  In (i, f) (unplacedTopmostFirst fs) ->
  nth_error fs i = Some f /\ isPlaced f = false.
Proof.
  unfold unplacedTopmostFirst, places; intro H.
  apply sortTopmostFirst_In, filter_In in H; destruct H as [H Hp].
  apply places_In in H; destruct H as [_ H].
  rewrite Nat.sub_0_r in H; split; [exact H|].
  simpl in Hp; now apply negb_true_iff in Hp.
Qed.

(** The hit-test lookup never returns a placed fragment. *)
Lemma findFragment_unplaced (c : Canvas num) (pos : Point num) (i : nat) :
  findFragment c pos = Some i ->
  exists f, nth_error (fragments c) i = Some f /\ isPlaced f = false.
Proof.
  unfold findFragment; intro H.
  destruct (find _ _) as [[j f]|] eqn:E; simpl in H; [|discriminate].
  injection H as ->.
  apply find_some in E; destruct E as [E _].
  exists f; now apply unplacedTopmostFirst_In.
Qed.

Lemma findById_Some (fs : list Frag) (z : Z) (i : nat) (f : Frag) :
  findById fs z = Some (i, f) -> nth_error fs i = Some f /\ id f = z.
Proof.
  unfold findById, places; intro H.
  apply find_some in H; destruct H as [H E]; simpl in E.
  apply places_In in H; destruct H as [_ H].
  rewrite Nat.sub_0_r in H; split; [exact H|now apply Z.eqb_eq].
Qed.

(** The state of a session: the ids are those [generateFragments] gave,
    all different, and the fragment being dragged, if any, is not
    placed. *)
Definition wellFormed (c : Canvas num) : Prop :=
  NoDup (map (@id num) (fragments c)) /\
  forall d, dragging c = Some d ->
    forall f, In f (fragments c) -> id f = fragmentId d -> isPlaced f = false.

(** A handler step: the placed objects are as before. *)
Definition placedKept (c c' : Canvas num) : Prop :=
  forall i f, nth_error (fragments c) i = Some f -> isPlaced f = true ->
              nth_error (fragments c') i = Some f.

Lemma NoDup_ids_In (fs : list Frag) (a b : Frag) :
  NoDup (map (@id num) fs) -> In a fs -> In b fs -> id a = id b -> a = b.
Proof.
  induction fs as [|c fs IH]; simpl; intros Hnd Ha Hb E; [contradiction|].
  inversion Hnd as [|? ? Hnot Hnd']; subst.
  destruct Ha as [->|Ha], Hb as [->|Hb]; try reflexivity.
  - elim Hnot; rewrite E; now apply in_map.
  - elim Hnot; rewrite <- E; now apply in_map.
  - now apply IH.
Qed.

(** An assignment to the dragged object, or to an unplaced one, that keeps
    [id] and [isPlaced]. *)
Lemma update_unplaced (c : Canvas num) (g : Frag -> Frag) (i : nat) (b : Frag) :
  wellFormed c -> keepsIdentity g ->
  nth_error (fragments c) i = Some b -> isPlaced b = false ->
  wellFormed (withFragments c (updateAt i g (fragments c))) /\
  placedKept c (withFragments c (updateAt i g (fragments c))).
Proof.
  intros [Hnd Hd] Hg Hb Hu; split; [split|]; simpl.
  - rewrite updateAt_ids; [assumption|apply Hg].
  - intros d Ed f Hin Hid.
    apply updateAt_In in Hin; destruct Hin as [Hin|(b' & Hb' & ->)].
    + now apply (Hd d Ed).
    + destruct (Hg b') as [Hi Hp]; rewrite Hp.
      apply (Hd d Ed); [now apply nth_error_In in Hb'|congruence].
  - intros j f Hj Hp; simpl; now apply (updateAt_placed g i _ b Hb Hu).
Qed.

Lemma dragged_unplaced (c : Canvas num) (d : Dragging num) (i : nat) (f : Frag) :
  wellFormed c -> dragging c = Some d ->
  findById (fragments c) (fragmentId d) = Some (i, f) ->
  nth_error (fragments c) i = Some f /\ isPlaced f = false.
Proof.
  intros [_ Hd] Ed Hf.
  apply findById_Some in Hf; destruct Hf as [Hn Hi].
  split; [assumption|].
  apply (Hd d Ed); [now apply nth_error_In in Hn|assumption].
Qed.

Lemma placedKept_refl (c : Canvas num) : placedKept c c.
Proof. intros i f H _; exact H. Qed.

Lemma handlePointerDown_keeps (c : Canvas num) (pos : Point num) :
  wellFormed c ->
  wellFormed (handlePointerDown c pos) /\ placedKept c (handlePointerDown c pos).
Proof.
  intro W; unfold handlePointerDown.
  destruct (isVictory c); [split; [assumption|apply placedKept_refl]|].
  destruct (findFragment c pos) as [i|] eqn:E;
    [|split; [assumption|apply placedKept_refl]].
  apply findFragment_unplaced in E; destruct E as (f & Hn & Hu).
  rewrite Hn.
  set (g := fun f0 : Frag => setZIndex f0 (maxZIndex (fragments c) + 1)).
  assert (Hg : keepsIdentity g) by (intro f0; split; reflexivity).
  destruct (update_unplaced c g i f W Hg Hn Hu) as [[Hnd _] Hk].
  split; [split|exact Hk]; simpl in *.
  - exact Hnd.
  - intros d [= <-] f' Hin Hid; simpl in Hid.
    apply updateAt_In in Hin; destruct Hin as [Hin|(b & Hb & ->)].
    + destruct W as [Wnd _].
      assert (f' = f) as ->; [|assumption].
      apply (NoDup_ids_In (fragments c)); try assumption.
      now apply nth_error_In in Hn.
    + rewrite Hn in Hb; injection Hb as <-; exact Hu.
Qed.

Lemma handlePointerMove_keeps (c : Canvas num) (pos : Point num) :
  wellFormed c ->
  wellFormed (handlePointerMove c pos) /\ placedKept c (handlePointerMove c pos).
Proof.
  intro W; unfold handlePointerMove.
  destruct (dragging c) as [d|] eqn:Ed; [|split; [assumption|apply placedKept_refl]].
  destruct (findById (fragments c) (fragmentId d)) as [[i f]|] eqn:E;
    [|split; [assumption|apply placedKept_refl]].
  destruct (dragged_unplaced c d i f W Ed E) as [Hn Hu].
  apply (update_unplaced c _ i f W); [intro f0; split; reflexivity|exact Hn|exact Hu].
Qed.

Lemma rotateDragged_keeps (c : Canvas num) (step : num) :
  wellFormed c ->
  wellFormed (rotateDragged c step) /\ placedKept c (rotateDragged c step).
Proof.
  intro W; unfold rotateDragged.
  destruct (dragging c) as [d|] eqn:Ed; [|split; [assumption|apply placedKept_refl]].
  destruct (findById (fragments c) (fragmentId d)) as [[i f]|] eqn:E;
    [|split; [assumption|apply placedKept_refl]].
  destruct (dragged_unplaced c d i f W Ed E) as [Hn Hu].
  apply (update_unplaced c _ i f W); [intro f0; split; reflexivity|exact Hn|exact Hu].
Qed.

Lemma handleRotateBtn_keeps (c : Canvas num) :
  wellFormed c ->
  wellFormed (handleRotateBtn c) /\ placedKept c (handleRotateBtn c).
Proof.
  intro W; unfold handleRotateBtn.
  destruct (unplacedTopmostFirst (fragments c)) as [|[i f] rest] eqn:E;
    [split; [assumption|apply placedKept_refl]|].
  assert (Hin : In (i, f) (unplacedTopmostFirst (fragments c)))
    by (rewrite E; now left).
  apply unplacedTopmostFirst_In in Hin; destruct Hin as [Hn Hu].
  apply (update_unplaced c _ i f W); [intro f0; split; reflexivity|exact Hn|exact Hu].
Qed.

Lemma handlePointerUp_keeps (c : Canvas num) :
  wellFormed c ->
  wellFormed (handlePointerUp c) /\ placedKept c (handlePointerUp c).
Proof.
  intro W; unfold handlePointerUp.
  destruct (dragging c) as [d|] eqn:Ed; [|split; [assumption|apply placedKept_refl]].
  assert (W0 : wellFormed (withDragging c None))
    by (destruct W as [Hnd _]; split; [exact Hnd|intros d' [=]]).
  assert (K0 : placedKept c (withDragging c None)) by (intros j f' H _; exact H).
  destruct (findById (fragments c) (fragmentId d)) as [[i f]|] eqn:E;
    [|split; assumption].
  destruct (dragged_unplaced c d i f W Ed E) as [Hn Hu].
  cbn [leafOrigin scale withDragging fragments].
  match goal with |- context [if ?b then _ else _] => destruct b end;
    [|split; assumption].
  assert (K : wellFormed (withFragments (withDragging c None)
                 (updateAt i (snapTo (mkPoint
                    (nadd (x (leafOrigin c)) (nmul (x (centroid f)) (scale c)))
                    (nadd (y (leafOrigin c)) (nmul (y (centroid f)) (scale c)))))
                    (fragments c))) /\
              placedKept c (withFragments (withDragging c None)
                 (updateAt i (snapTo (mkPoint
                    (nadd (x (leafOrigin c)) (nmul (x (centroid f)) (scale c)))
                    (nadd (y (leafOrigin c)) (nmul (y (centroid f)) (scale c)))))
                    (fragments c)))).
  { split; [split|]; simpl.
    - destruct W as [Hnd _]; rewrite updateAt_ids; [assumption|reflexivity].
    - intros d' [=].
    - intros j f' Hj Hp; simpl; now apply (updateAt_placed _ i _ f Hn Hu). }
  cbn [withFragments fragments dragging leafOrigin scale showGhost] in *.
  match goal with |- context [if ?b then _ else _] => destruct b end.
  - destruct K as [[Hnd Hd] Hk]; split; [split|]; simpl in *; assumption.
  - exact K.
Qed.

Lemma handle_keeps (c : Canvas num) (e : Event num) :
  wellFormed c -> wellFormed (handle c e) /\ placedKept c (handle c e).
Proof.
  intro W; destruct e as [pos|pos| | | |deltaY|]; simpl.
  - now apply handlePointerDown_keeps.
  - now apply handlePointerMove_keeps.
  - now apply handlePointerUp_keeps.
  - now apply rotateDragged_keeps.
  - split; [exact W|intros i f H _; exact H].
  - now apply rotateDragged_keeps.
  - now apply handleRotateBtn_keeps.
Qed.

Lemma run_keeps (events : list (Event num)) (c : Canvas num) :
  wellFormed c -> wellFormed (run c events) /\ placedKept c (run c events).
Proof.
  revert c; induction events as [|e events IH]; intros c W; simpl.
  - split; [exact W|apply placedKept_refl].
  - destruct (handle_keeps c e W) as [W' K'].
    destruct (IH _ W') as [W'' K'']; split; [exact W''|].
    intros i f Hn Hp; apply K''; [now apply K'|exact Hp].
Qed.

Lemma run_app (c : Canvas num) (before after : list (Event num)) :
  run c (before ++ after) = run (run c before) after.
Proof. apply fold_left_app. Qed.

End Invariant.

Section Locked.

Context {num : Type} {N : Number num} {T : Trig num}.
Local Open Scope num_scope.

(** C6.  [snapFragment] moves the fragment to [leafOrigin + centroid],
    sets its rotation to 0 and marks it placed.  In a session (distinct
    ids, nothing dragged at the start), a fragment that is placed after
    the events [before] is the same object after any further events
    [after]: position, rotation and [isPlaced] are unchanged; and the
    hit-test lookup returns unplaced fragments only. *)
Theorem placed_fragments_are_locked
    (c : Canvas num) (before after : list (Event num)) :
  NoDup (map (@id num) (fragments c)) ->
  dragging c = None ->
  (forall (f : Fragment num) (o : Point num),
      currentPosition (snapFragment f o)
      = mkPoint (x o + x (centroid f)) (y o + y (centroid f)) /\
      rotation (snapFragment f o) = of_Z 0 /\
      isPlaced (snapFragment f o) = true) /\
  (forall (i : nat) (f : Fragment num),
      nth_error (fragments (run c before)) i = Some f ->
      isPlaced f = true ->
      exists f',
        nth_error (fragments (run c (before ++ after))) i = Some f' /\
        currentPosition f' = currentPosition f /\
        rotation f' = rotation f /\
        isPlaced f' = true) /\
  (forall (pos : Point num) (i : nat),
      findFragment (run c (before ++ after)) pos = Some i ->
      exists f,
        nth_error (fragments (run c (before ++ after))) i = Some f /\
        isPlaced f = false).
Proof.
  intros Hnd Hd.
  assert (W : wellFormed c) by (split; [exact Hnd|intros d E; congruence]).
  split; [|split].
  - intros f o; repeat split.
  - intros i f Hn Hp.
    destruct (run_keeps before c W) as [W' _].
    destruct (run_keeps after _ W') as [_ K].
    exists f; rewrite run_app; repeat split; try assumption.
    now apply K.
  - intros pos i; apply findFragment_unplaced.
Qed.

End Locked.

(** A session on the reals: a placed fragment under a rotation, a drag and
    a release. *)
Local Open Scope R_scope.

Definition placedPiece : Fragment R :=
  mkFragment 0%Z [] (mkPoint 0 0) (mkPoint 0 0) (mkPoint 7 7) 0 true 0%Z.
Definition loosePiece : Fragment R :=
  mkFragment 1%Z [] (mkPoint 5 5) (mkPoint 5 5) (mkPoint 9 9) PI false 1%Z.
Definition session : Canvas R :=
  mkCanvas [placedPiece; loosePiece] None (mkPoint 0 0) 1 true false.
Definition gestures : list (Event R) :=
  [RotateBtn; PointerDown (mkPoint 9 9); PointerMove (mkPoint 5 5); KeyR; PointerUp].

Lemma placed_fragments_are_locked_witness :
  exists f',
    nth_error (fragments (run session ([] ++ gestures))) 0 = Some f' /\
    currentPosition f' = mkPoint 7 7 /\ rotation f' = 0 /\ isPlaced f' = true.
Proof.
  assert (Hnd : NoDup (map (@id R) (fragments session))).
  { simpl; constructor; [intros [E|[]]; discriminate E|].
    constructor; [intros []|constructor]. }
  exact (proj1 (proj2 (placed_fragments_are_locked session [] gestures Hnd eq_refl))
               0%nat placedPiece eq_refl eq_refl).
Defined.

End Monotonic.

(** ** Exact arithmetic: the statements on the reals *)

Module OnReals.

Local Open Scope R_scope.

Lemma ltb_true (a b : R) : Real.ltb a b = true <-> a < b.
Proof. unfold Real.ltb; destruct (Rlt_dec a b); split; intros; try easy. Qed.

Lemma ltb_false (a b : R) : Real.ltb a b = false <-> b <= a.
Proof.
  unfold Real.ltb; destruct (Rlt_dec a b); split; intros; try easy; lra.
Qed.

Lemma leb_true (a b : R) : Real.leb a b = true <-> a <= b.
Proof. unfold Real.leb; destruct (Rle_dec a b); split; intros; try easy. Qed.

Lemma leb_false (a b : R) : Real.leb a b = false <-> b < a.
Proof.
  unfold Real.leb; destruct (Rle_dec a b); split; intros; try easy; lra.
Qed.

(** *** The bisector clip of [computeVoronoiCells] *)

Definition sqDist (a b : Point R) : R :=
  (x a - x b) * (x a - x b) + (y a - y b) * (y a - y b).

Lemma sqDist_nonneg (a b : Point R) : 0 <= sqDist a b.
Proof.
  unfold sqDist.
  pose proof (Rle_0_sqr (x a - x b)) as Hx.
  pose proof (Rle_0_sqr (y a - y b)) as Hy.
  unfold Rsqr in Hx, Hy; lra.
Qed.

Lemma dist_sqDist (a b : Point R) : dist a b = sqrt (sqDist a b).
Proof. reflexivity. Qed.

Lemma dist_le_sqDist (p a b : Point R) :
  dist p a <= dist p b <-> sqDist p a <= sqDist p b.
Proof.
  rewrite !dist_sqDist.
  pose proof (sqDist_nonneg p a) as Ha.
  pose proof (sqDist_nonneg p b) as Hb.
  split; intro H.
  - now apply sqrt_le_0.
  - now apply sqrt_le_1.
Qed.

(** The inside test of the clip between seed [si] and seed [sj] holds for
    the points at least as close to [sj] as to [si]. *)
Lemma isInside_bisector (si sj p : Point R) :
  isInside p (fst (bisector si sj)) (snd (bisector si sj)) = true <->
  dist p sj <= dist p si.
Proof.
  rewrite dist_le_sqDist.
  unfold isInside, bisector; simpl.
  rewrite leb_true.
  match goal with |- 0 <= ?e <-> _ =>
    replace e with (sqDist p si - sqDist p sj) by (unfold sqDist; field)
  end.
  lra.
Qed.

(** C3 fails on the code.  The clip applied to the region of seed [si]
    against another seed [sj] keeps the side of [sj]: the points it keeps
    are those at least as close to [sj] as to [si], [sj] passes the inside
    test and [si] itself does not. *)
Theorem bisector_clip_keeps_the_other_seed (si sj : Point R) :
  si <> sj ->
  let '(lineA, lineB) := bisector si sj in
  isInside si lineA lineB = false /\
  isInside sj lineA lineB = true /\
  (forall p, isInside p lineA lineB = true <-> dist p sj <= dist p si).
Proof.
  intro Hne.
  pose proof (isInside_bisector si sj) as H.
  destruct (bisector si sj) as [lineA lineB]; simpl in H.
  assert (Hpos : 0 < sqDist si sj).
  { unfold sqDist.
    destruct si as [xi yi], sj as [xj yj]; simpl.
    pose proof (Rle_0_sqr (xi - xj)) as Hx0.
    pose proof (Rle_0_sqr (yi - yj)) as Hy0.
    destruct (Req_dec xi xj) as [->|Hx].
    - destruct (Req_dec yi yj) as [->|Hy]; [now elim Hne|].
      assert (Hy1 : 0 < Rsqr (yi - yj)) by (apply Rlt_0_sqr; lra).
      unfold Rsqr in *; lra.
    - assert (Hx1 : 0 < Rsqr (xi - xj)) by (apply Rlt_0_sqr; lra).
      unfold Rsqr in *; lra. }
  assert (Hii : sqDist si si = 0) by (unfold sqDist; ring).
  assert (Hjj : sqDist sj sj = 0) by (unfold sqDist; ring).
  assert (Hij : sqDist sj si = sqDist si sj) by (unfold sqDist; ring).
  split; [|split; [|exact H]].
  - destruct (isInside si lineA lineB) eqn:E; [|reflexivity].
    apply H, dist_le_sqDist in E; lra.
  - apply H, dist_le_sqDist; lra.
Qed.

Lemma bisector_clip_keeps_the_other_seed_witness :
  isInside (mkPoint 0 0) (mkPoint 1 2) (mkPoint 1 (-2)) = false.
Proof.
  assert (Hne : mkPoint 0 0 <> mkPoint 2 0 :> Point R).
  { intro E; injection E as E; lra. }
  pose proof (bisector_clip_keeps_the_other_seed (mkPoint 0 0) (mkPoint 2 0) Hne) as H.
  unfold bisector in H; simpl in H.
  replace ((0 + 2) / 2) with 1 in H by lra.
  replace ((0 + 0) / 2) with 0 in H by lra.
  replace (1 - (0 - 0)) with 1 in H by lra.
  replace (0 + (2 - 0)) with 2 in H by lra.
  replace (1 + (0 - 0)) with 1 in H by lra.
  replace (0 - (2 - 0)) with (-2) in H by lra.
  exact (proj1 H).
Defined.

(** *** The remainder and the normalized rotation *)

Lemma rem_range (a b : R) :
  0 < b ->
  exists k : Z,
    Real.rem a b = a - b * IZR k /\
    (0 <= a -> 0 <= Real.rem a b < b) /\
    (a < 0 -> - b < Real.rem a b <= 0).
Proof.
  intro Hb; unfold Real.rem, Real.trunc.
  assert (Ha : a = b * (a / b)) by (field; lra).
  set (q := a / b) in *.
  destruct (Rle_dec 0 q) as [Hq|Hq].
  - exists (Int_part q); split; [reflexivity|].
    destruct (base_Int_part q) as [H1 H2].
    assert (H0 : 0 <= b * (q - IZR (Int_part q)) < b) by (split; nra).
    split; intro; [lra|nra].
  - exists (- Int_part (- q))%Z; split; [reflexivity|].
    rewrite opp_IZR.
    destruct (base_Int_part (- q)) as [H1 H2].
    assert (H0 : - b < b * (q + IZR (Int_part (- q))) <= 0) by (split; nra).
    split; intro; [nra|lra].
Qed.

Definition twoPi : R := PI * 2.

Lemma twoPi_bounds : 6 < twoPi <= 8.
Proof.
  unfold twoPi; pose proof PI2_3_2; pose proof PI_4; lra.
Qed.

(** The rotation the snap test looks at is the representative of the
    fragment's rotation in [0, 2π). *)
Lemma normalizedRotation_spec (rot : R) :
  0 <= normalizedRotation rot < twoPi /\
  exists k : Z, normalizedRotation rot = rot + twoPi * IZR k.
Proof.
  pose proof twoPi_bounds as HP.
  assert (HP0 : 0 < twoPi) by lra.
  destruct (rem_range rot twoPi HP0) as (k & E & Hpos & Hneg).
  unfold normalizedRotation; simpl; fold twoPi.
  destruct (Real.ltb (Real.rem rot twoPi) 0) eqn:L.
  - apply ltb_true in L.
    destruct (Rle_dec 0 rot) as [H|H]; [specialize (Hpos H); lra|].
    assert (Hlt : rot < 0) by lra.
    specialize (Hneg Hlt); split; [lra|].
    exists (1 - k)%Z; rewrite minus_IZR, E; ring.
  - apply ltb_false in L.
    assert (Hr : 0 <= Real.rem rot twoPi < twoPi).
    { destruct (Rle_dec 0 rot) as [H|H]; [now apply Hpos|].
      assert (Hlt : rot < 0) by lra.
      specialize (Hneg Hlt); lra. }
    split; [exact Hr|].
    exists (- k)%Z; rewrite opp_IZR, E; ring.
Qed.

(** Two representatives in [0, 2π) of one angle are equal. *)
Lemma representative_unique (r1 r2 : R) (k : Z) :
  0 <= r1 < twoPi -> 0 <= r2 < twoPi -> r1 = r2 + twoPi * IZR k -> r1 = r2.
Proof.
  intros H1 H2 E.
  pose proof twoPi_bounds as HP.
  destruct (Z_lt_le_dec k 1) as [Hk|Hk].
  - destruct (Z_lt_le_dec (-1) k) as [Hk'|Hk'].
    + assert (k = 0%Z) as -> by lia. lra.
    + apply IZR_le in Hk'; nra.
  - apply IZR_le in Hk; nra.
Qed.

(** In exact arithmetic [checkSnap] holds exactly when the Euclidean
    distance between the fragment's position and [anchor + centroid] is
    below [snapDistance] and the representative in [0, 2π) of the
    fragment's rotation is within [snapAngleTolerance] of 0, on either side
    of the wrap.  With the distance 35 and the tolerance 0.4: distance 34
    and rotation 0.39 snap; distance 36 does not; rotation 0.41 does not. *)
Lemma checkSnap_in_exact_arithmetic
    (fragment : Fragment R) (anchor : Point R) :
  let target := mkPoint (x anchor + x (centroid fragment))
                        (y anchor + y (centroid fragment)) in
  let distance := dist (currentPosition fragment) target in
  (forall snapDistance snapAngleTolerance : R,
      checkSnap fragment anchor snapDistance snapAngleTolerance = true <->
      distance < snapDistance /\
      exists (r : R) (k : Z),
        rotation fragment = r + twoPi * IZR k /\ 0 <= r < twoPi /\
        (r < snapAngleTolerance \/ r > twoPi - snapAngleTolerance)) /\
  (distance = 34 -> rotation fragment = 39 / 100 ->
   checkSnap fragment anchor 35 (4 / 10) = true) /\
  (distance = 36 -> checkSnap fragment anchor 35 (4 / 10) = false) /\
  (rotation fragment = 41 / 100 -> checkSnap fragment anchor 35 (4 / 10) = false).
Proof.
  intros target distance.
  pose proof twoPi_bounds as HP.
  assert (Hiff : forall sd sa : R,
    checkSnap fragment anchor sd sa = true <->
    distance < sd /\
    exists (r : R) (k : Z),
      rotation fragment = r + twoPi * IZR k /\ 0 <= r < twoPi /\
      (r < sa \/ r > twoPi - sa)).
  { intros sd sa.
    unfold checkSnap, angleOk.
    change (nsqrt _) with distance.
    destruct (normalizedRotation_spec (rotation fragment)) as [Hr (k & Ek)].
    set (rot := normalizedRotation (rotation fragment)) in *.
    simpl; fold twoPi.
    rewrite andb_true_iff, orb_true_iff, !ltb_true.
    split.
    - intros [Hd Ha]; split; [exact Hd|].
      exists rot, (- k)%Z; rewrite opp_IZR; repeat split; try lra.
    - intros [Hd (r & k' & Er & Hr' & Ha)]; split; [exact Hd|].
      assert (rot = r) as ->; [|exact Ha].
      apply (representative_unique _ _ (k + k')%Z); try assumption.
      rewrite plus_IZR; lra. }
  split; [exact Hiff|split; [|split]].
  - intros Hd Hrot; apply Hiff; split; [lra|].
    exists (39 / 100), 0%Z; simpl; repeat split; try lra.
  - intro Hd.
    destruct (checkSnap fragment anchor 35 (4 / 10)) eqn:E; [|reflexivity].
    apply Hiff in E; lra.
  - intro Hrot.
    destruct (checkSnap fragment anchor 35 (4 / 10)) eqn:E; [|reflexivity].
    apply Hiff in E; destruct E as [_ (r & k & Er & Hr & Ha)].
    assert (r = 41 / 100); [|lra].
    apply (representative_unique _ _ (- k)%Z); try assumption; [lra|].
    rewrite opp_IZR; lra.
Qed.

(** *** Hit-testing *)

(** The square of side 10 centred at the origin, unrotated, at (100, 100). *)
Definition squareFragment : Fragment R :=
  mkFragment 0%Z
    [mkPoint (-5) (-5); mkPoint 5 (-5); mkPoint 5 5; mkPoint (-5) 5]
    (mkPoint 0 0) (mkPoint 0 0) (mkPoint 100 100) 0 false 0%Z.

Lemma localPoint_squareFragment (px py : R) :
  localPoint (mkPoint px py) squareFragment = mkPoint (px - 100) (py - 100).
Proof.
  unfold localPoint; simpl.
  rewrite Ropp_0, cos_0, sin_0; f_equal; ring.
Qed.

Ltac decide_comparisons :=
  repeat match goal with
    | |- context [Rlt_dec ?a ?b] => destruct (Rlt_dec a b); try lra
    | |- context [Rle_dec ?a ?b] => destruct (Rle_dec a b); try lra
    end.

(** C9.  [hitTestFragment] tests, against the fragment's polygon offset by
    [-centroid], the point [q] of the fragment's local frame: the canvas
    point translated by [-currentPosition] and turned by [-rotation], that
    is the point that [transformPoint] by the fragment's rotation and
    position sends to the canvas point.  For the square of side 10 centred
    at the origin, unrotated, at (100, 100): (100, 100) hits, (200, 200)
    does not. *)
Theorem hitTestFragment_in_local_frame (canvasPoint : Point R) (fragment : Fragment R) :
  let dx := x canvasPoint - x (currentPosition fragment) in
  let dy := y canvasPoint - y (currentPosition fragment) in
  let theta := rotation fragment in
  let q := mkPoint (dx * cos theta + dy * sin theta)
                   (dy * cos theta - dx * sin theta) in
  transformPoint q theta (currentPosition fragment) = canvasPoint /\
  hitTestFragment canvasPoint fragment =
    pointInPolygon q
      (map (fun v => mkPoint (x v - x (centroid fragment))
                             (y v - y (centroid fragment)))
           (polygon fragment)) /\
  hitTestFragment (mkPoint 100 100) squareFragment = true /\
  hitTestFragment (mkPoint 200 200) squareFragment = false.
Proof.
  intros dx dy theta q.
  split; [|split; [|split]].
  - destruct canvasPoint as [px py]; unfold transformPoint, q, dx, dy; simpl.
    pose proof (sin2_cos2 theta) as H; unfold Rsqr in H.
    f_equal.
    + transitivity ((px - x (currentPosition fragment))
                    * (sin theta * sin theta + cos theta * cos theta)
                    + x (currentPosition fragment)); [ring|rewrite H; ring].
    + transitivity ((py - y (currentPosition fragment))
                    * (sin theta * sin theta + cos theta * cos theta)
                    + y (currentPosition fragment)); [ring|rewrite H; ring].
  - unfold hitTestFragment; f_equal.
    unfold localPoint, q, dx, dy, theta; simpl.
    rewrite cos_neg, sin_neg; f_equal; ring.
  - unfold hitTestFragment; rewrite localPoint_squareFragment.
    unfold pointInPolygon; simpl; unfold Real.ltb.
    decide_comparisons; reflexivity.
  - unfold hitTestFragment; rewrite localPoint_squareFragment.
    unfold pointInPolygon; simpl; unfold Real.ltb.
    decide_comparisons; reflexivity.
Qed.

End OnReals.

(** ** The generator, counted *)

Section Counting.

Context {num : Type} {N : Number num}.
Variable mathRandom : nat -> num.

Definition seedRng (seed : option Z) : Rng :=
  match seed with
  | Some seed => mulberry32 seed
  | None => MathRandom
  end.

(** The cells [generateFragments] cuts its fragments from. *)
Definition cellsOf (outline : list (Point num)) (difficulty : JSValue)
    (seed : option Z) : list (list (Point num)) :=
  fst (fragmentCells mathRandom outline (pieceCount difficulty)
         (mkRandom (seedRng seed) 0)).

(** The seeds of those cells: the seeds after relaxation. *)
Definition seedsOf (outline : list (Point num)) (difficulty : JSValue)
    (seed : option Z) : list (Point num) :=
  fst (relaxedSeeds mathRandom outline (pieceCount difficulty)
         (mkRandom (seedRng seed) 0)).

Lemma cellsOf_seedsOf (outline : list (Point num)) (difficulty : JSValue)
    (seed : option Z) :
  cellsOf outline difficulty seed =
  computeVoronoiCells (seedsOf outline difficulty seed) outline.
Proof.
  unfold cellsOf, seedsOf, fragmentCells.
  now destruct (relaxedSeeds _ _ _ _) as [seeds r].
Qed.

Lemma generateFragments_length (outline : list (Point num))
    (difficulty : JSValue) (seed : option Z) :
  length (generateFragments mathRandom outline difficulty seed) =
  length (filter (keepsCell (nabs (polygonArea outline)))
                 (cellsOf outline difficulty seed)).
Proof.
  unfold generateFragments, generateFragmentsFrom, cellsOf, seedRng.
  destruct (fragmentCells _ _ _ _) as [cells r]; cbn [fst].
  apply buildFragments_length.
Qed.

Lemma generateFragments_at_most (outline : list (Point num))
    (difficulty : JSValue) (seed : option Z) :
  (length (generateFragments mathRandom outline difficulty seed) <=
   match pieceCount difficulty with CountNum n => n | CountNaN => 3 end)%nat.
Proof.
  rewrite generateFragments_length.
  eapply Nat.le_trans; [apply filter_length_le|].
  unfold cellsOf; rewrite fragmentCells_length.
  eapply Nat.le_trans; [apply initialSeeds_at_most|].
  destruct (pieceCount difficulty) as [k|] eqn:E; [|lia].
  apply pieceCount_tiers in E; lia.
Qed.

Lemma generateFragments_In (outline : list (Point num))
    (difficulty : JSValue) (seed : option Z) (f : Fragment num) :
  In f (generateFragments mathRandom outline difficulty seed) ->
  exists (k : nat) (cell : list (Point num)) (r : Random),
    nth_error (cellsOf outline difficulty seed) k = Some cell /\
    id f = Z.of_nat k /\
    polygon f = fst (addTornEdgeNoise mathRandom cell (of_Z 2) 1 r) /\
    (3 <= length cell)%nat /\
    nlt (nabs (polygonArea cell))
        (nmul (nabs (polygonArea outline)) (ndiv (of_Z 1) (of_Z 100))) = false.
Proof.
  unfold generateFragments, generateFragmentsFrom, cellsOf, seedRng.
  destruct (fragmentCells _ _ _ _) as [cells r]; cbn [fst]; intro H.
  apply buildFragments_In in H.
  destruct H as (k & cell & r' & Hn & Hi & Hk & Hp & _).
  exists k, cell, r'; unfold keepsCell in Hk.
  apply andb_true_iff in Hk; destruct Hk as [Hl Ha].
  apply Nat.leb_le in Hl; apply negb_true_iff in Ha.
  repeat split; assumption.
Qed.

End Counting.

(** ** The difficulty tiers *)

Lemma PIECE_COUNTS_inherited (name : string) :
  In name objectPrototype -> PIECE_COUNTS name = Inherited.
Proof.
  unfold objectPrototype; simpl.
  intros H; repeat (destruct H as [<-|H]; [reflexivity|]); elim H.
Qed.

Lemma PIECE_COUNTS_missing (name : string) :
  name <> "easy"%string -> name <> "medium"%string -> name <> "hard"%string ->
  ~ In name objectPrototype ->
  PIECE_COUNTS name = Missing.
Proof.
  intros He Hm Hh Hp; unfold PIECE_COUNTS.
  destruct (String.eqb_spec name "easy") as [E|_]; [now elim He|].
  destruct (String.eqb_spec name "medium") as [E|_]; [now elim Hm|].
  destruct (String.eqb_spec name "hard") as [E|_]; [now elim Hh|].
  destruct (existsb (String.eqb name) objectPrototype) eqn:E; [|reflexivity].
  apply existsb_exists in E; destruct E as (k & Hin & Heq).
  apply String.eqb_eq in Heq; subst k.
  now elim Hp.
Qed.

(** The text of a number starts with a digit or with a minus sign: it is no
    name the object answers to. *)
Lemma PIECE_COUNTS_number (n : Z) :
  PIECE_COUNTS (ToString (JSNumber n)) = Missing.
Proof.
  assert (U : forall d : Decimal.uint,
             PIECE_COUNTS (NilZero.string_of_uint d) = Missing)
    by (intros [|d|d|d|d|d|d|d|d|d|d]; reflexivity).
  cbn [ToString]; unfold NilZero.string_of_int.
  destruct (Z.to_int n) as [d|d]; [apply U|reflexivity].
Qed.

(** C10 fails on the code.  [PIECE_COUNTS[difficulty] || PIECE_COUNTS.medium]
    falls back to the 8 pieces of the medium tier for every argument that
    names no property of the object: an unknown string such as ['Easy'], a
    number, [null], an omitted argument.  But the object literal inherits
    the members of [Object.prototype], and they are truthy: for their names
    the fallback is not taken and the count is no number, so that no seed
    is sampled, the seeds are the three of the fallback and three fragments
    at most are returned.  A value that is no string reads the tier its
    text names: the array [['hard']] asks for 13 pieces. *)
Theorem pieceCount_misses_the_fallback_on_inherited_names :
  (forall name : string,
      In name objectPrototype -> pieceCount (JSString name) = CountNaN) /\
  (forall (num : Type) (N : Number num) (mathRandom : nat -> num)
          (outline : list (Point num)) (seed : option Z) (r : Random)
          (name : string),
      In name objectPrototype ->
      attempts (sampling mathRandom outline (pieceCount (JSString name)) r) = 0%nat /\
      fst (initialSeeds mathRandom outline (pieceCount (JSString name)) r)
      = fallbackSeeds outline /\
      (length (generateFragments mathRandom outline (JSString name) seed) <= 3)%nat) /\
  (forall difficulty : JSValue,
      let name := ToString difficulty in
      difficulty <> JSUndefined ->
      name <> "easy"%string -> name <> "medium"%string -> name <> "hard"%string ->
      ~ In name objectPrototype ->
      pieceCount difficulty = CountNum 8) /\
  pieceCount JSUndefined = CountNum 8 /\
  pieceCount JSNull = CountNum 8 /\
  (forall n : Z, pieceCount (JSNumber n) = CountNum 8) /\
  pieceCount (JSString "Easy") = CountNum 8 /\
  (forall difficulty : JSValue,
      difficulty <> JSUndefined ->
      (ToString difficulty = "easy"%string -> pieceCount difficulty = CountNum 5) /\
      (ToString difficulty = "medium"%string -> pieceCount difficulty = CountNum 8) /\
      (ToString difficulty = "hard"%string -> pieceCount difficulty = CountNum 13)) /\
  pieceCount (JSArray [JSString "hard"]) = CountNum 13.
Proof.
  assert (K : forall difficulty, difficulty <> JSUndefined ->
            pieceCount difficulty =
            match PIECE_COUNTS (ToString difficulty) with
            | OwnCount n => CountNum n
            | Inherited => CountNaN
            | Missing => CountNum 8
            end).
  { intros difficulty H; unfold pieceCount, lookupDifficulty.
    destruct difficulty; try reflexivity; now elim H. }
  assert (I : forall name, In name objectPrototype ->
            pieceCount (JSString name) = CountNaN).
  { intros name H; rewrite K by discriminate.
    cbn [ToString]; now rewrite PIECE_COUNTS_inherited. }
  repeat match goal with |- _ /\ _ => split end; try reflexivity.
  - exact I.
  - intros num N mathRandom outline seed r name H.
    pose proof (generateFragments_at_most mathRandom outline (JSString name) seed) as L.
    rewrite (I name H) in *.
    split; [reflexivity|split; [reflexivity|exact L]].
  - intros difficulty name Hu He Hm Hh Hp.
    rewrite K by assumption; fold name.
    now rewrite PIECE_COUNTS_missing.
  - intro n; rewrite K by discriminate.
    now rewrite PIECE_COUNTS_number.
  - intros difficulty Hu.
    repeat split; intros E; rewrite K by assumption; now rewrite E.
Qed.

(** ** Cells of different seeds do not overlap *)

Module Cells.

Import OnReals.
Local Open Scope R_scope.

(** The side function of the clippers: [isInside point a b] tests that it is
    not negative. *)
Definition side (a b p : Point R) : R :=
  (x b - x a) * (y p - y a) - (y b - y a) * (x p - x a).

Lemma isInside_side (p a b : Point R) :
  isInside p a b = true <-> 0 <= side a b p.
Proof. unfold isInside, side; simpl; apply leb_true. Qed.

Lemma isInside_side_false (p a b : Point R) :
  isInside p a b = false <-> side a b p < 0.
Proof. unfold isInside, side; simpl; apply leb_false. Qed.

(** The point at parameter [t] on the segment from [p] to [q]. *)
Definition mix (p q : Point R) (t : R) : Point R :=
  mkPoint (x p + t * (x q - x p)) (y p + t * (y q - y p)).

(** The convex hull of the vertices of a polygon; the region a polygon
    encloses lies within it. *)
Inductive Hull (poly : list (Point R)) : Point R -> Prop :=
| Hull_vertex (v : Point R) : In v poly -> Hull poly v
| Hull_mix (p q : Point R) (t : R) :
    Hull poly p -> Hull poly q -> 0 <= t <= 1 -> Hull poly (mix p q t).

(** Functions that are affine along segments: the side functions are. *)
Definition Affine (g : Point R -> R) : Prop :=
  forall p q t, g (mix p q t) = g p + t * (g q - g p).

Lemma side_Affine (a b : Point R) : Affine (side a b).
Proof. intros p q t; unfold side, mix; simpl; ring. Qed.

Definition holdsOn (g : Point R -> R) (poly : list (Point R)) : Prop :=
  forall v, In v poly -> 0 <= g v.

Lemma Affine_mix (g : Point R -> R) (p q : Point R) (t : R) :
  Affine g -> 0 <= t <= 1 -> 0 <= g p -> 0 <= g q -> 0 <= g (mix p q t).
Proof.
  intros Hg Ht Hp Hq; rewrite Hg.
  replace (g p + t * (g q - g p)) with ((1 - t) * g p + t * g q) by ring.
  assert (0 <= (1 - t) * g p) by (apply Rmult_le_pos; lra).
  assert (0 <= t * g q) by (apply Rmult_le_pos; lra).
  lra.
Qed.

Lemma Hull_holds (g : Point R -> R) (poly : list (Point R)) (p : Point R) :
  Affine g -> holdsOn g poly -> Hull poly p -> 0 <= g p.
Proof.
  intros Hg Hv H; induction H as [v Hin|p q t _ IHp _ IHq Ht].
  - now apply Hv.
  - now apply Affine_mix.
Qed.

(** *** One clipping stage *)

(** The intersection the clippers push lies on the clipping line and on the
    segment from [prev] to [current], when exactly one of the two is
    inside. *)
Lemma lineIntersection_on_segment (prev current a b q : Point R) :
  lineIntersection prev current a b = Some q ->
  isInside prev a b <> isInside current a b ->
  side a b q = 0 /\ exists t, 0 <= t <= 1 /\ q = mix prev current t.
Proof.
  unfold lineIntersection; simpl.
  set (denom := (x prev - x current) * (y a - y b)
                - (y prev - y current) * (x a - x b)).
  set (t := ((x prev - x a) * (y a - y b) - (y prev - y a) * (x a - x b)) / denom).
  destruct (Real.ltb (Rabs denom) (1 / 10000000000)) eqn:E; [discriminate|].
  intros [= <-] Hne.
  apply ltb_false in E.
  assert (Hd : denom = side a b prev - side a b current)
    by (unfold denom, side; ring).
  assert (Hd0 : denom <> 0).
  { intro H0; rewrite H0, Rabs_R0 in E; lra. }
  assert (Ht : t * denom = side a b prev).
  { unfold t; field_simplify; [|exact Hd0]. unfold side; ring. }
  fold (mix prev current t).
  split.
  - rewrite side_Affine.
    replace (side a b current - side a b prev) with (- denom) by lra.
    lra.
  - exists t; split; [|reflexivity].
    assert (Hcases : isInside prev a b <> isInside current a b ->
                     (0 <= side a b prev /\ side a b current < 0) \/
                     (side a b prev < 0 /\ 0 <= side a b current)).
    { destruct (isInside prev a b) eqn:Ep; destruct (isInside current a b) eqn:Ec;
        intro Hne'; try (now elim Hne'); [left|right]; split;
        first [now apply isInside_side|now apply isInside_side_false]. }
    destruct (Hcases Hne) as [[Ep Ec]|[Ep Ec]].
    + assert (0 < denom) by lra.
      assert (t = side a b prev / denom) as -> by (rewrite <- Ht; field; lra).
      split.
      * apply Rmult_le_pos; [assumption|].
        apply Rlt_le, Rinv_0_lt_compat; assumption.
      * apply Rmult_le_reg_r with denom; [assumption|].
        unfold Rdiv; rewrite Rmult_assoc, Rinv_l by assumption; lra.
    + assert (denom < 0) by lra.
      assert (t = (- side a b prev) / (- denom)) as -> by (rewrite <- Ht; field; lra).
      assert (0 < - denom) by lra.
      split.
      * apply Rmult_le_pos; [lra|].
        apply Rlt_le, Rinv_0_lt_compat; assumption.
      * apply Rmult_le_reg_r with (- denom); [assumption|].
        unfold Rdiv; rewrite Rmult_assoc, Rinv_l by lra; lra.
Qed.

Lemma mix_end (p q : Point R) : mix p q 1 = q.
Proof. destruct q as [xq yq]; unfold mix; simpl; f_equal; ring. Qed.

(** What one vertex pushes: points that pass the inside test, on the
    segment from the previous vertex to the current one. *)
Lemma clipVertex_In (a b current prev q : Point R) :
  In q (clipVertex a b (current, prev)) ->
  0 <= side a b q /\ exists t, 0 <= t <= 1 /\ q = mix prev current t.
Proof.
  unfold clipVertex.
  destruct (isInside current a b) eqn:Ec, (isInside prev a b) eqn:Ep; simpl.
  - intros [<-|[]]; split; [now apply isInside_side|].
    exists 1; split; [lra|now rewrite mix_end].
  - intro H; apply in_app_or in H; destruct H as [H|[<-|[]]].
    + destruct (lineIntersection prev current a b) as [i|] eqn:E; [|contradiction].
      destruct H as [<-|[]].
      apply lineIntersection_on_segment in E; [|congruence].
      destruct E as [E0 Et]; split; [lra|exact Et].
    + split; [now apply isInside_side|].
      exists 1; split; [lra|now rewrite mix_end].
  - intro H.
    destruct (lineIntersection prev current a b) as [i|] eqn:E; [|contradiction].
    destruct H as [<-|[]].
    apply lineIntersection_on_segment in E; [|congruence].
    destruct E as [E0 Et]; split; [lra|exact Et].
  - intros [].
Qed.

Lemma predecessors_In (poly : list (Point R)) (v : Point R) :
  In v (predecessors poly) -> In v poly.
Proof.
  destruct poly as [|p rest]; [intros []|].
  unfold predecessors; intros [<-|H].
  - destruct (exists_last (l := p :: rest)) as (l' & a & E); [discriminate|].
    rewrite E, last_last; apply in_or_app; right; now left.
  - destruct (exists_last (l := p :: rest)) as (l' & a & E); [discriminate|].
    rewrite E in *; rewrite removelast_last in H.
    apply in_or_app; now left.
Qed.

(** A clipping stage keeps what passes the inside test of its line, and
    what it keeps satisfies every affine condition its input satisfies. *)
Lemma clipAgainst_inside (input : list (Point R)) (a b : Point R) :
  holdsOn (side a b) (clipAgainst input a b).
Proof.
  intros q H; unfold clipAgainst in H.
  apply in_flat_map in H; destruct H as ([current prev] & _ & H).
  now apply clipVertex_In in H.
Qed.

Lemma clipAgainst_keeps (g : Point R -> R) (input : list (Point R)) (a b : Point R) :
  Affine g -> holdsOn g input -> holdsOn g (clipAgainst input a b).
Proof.
  intros Hg Hin q H; unfold clipAgainst in H.
  apply in_flat_map in H; destruct H as ([current prev] & Hc & H).
  apply clipVertex_In in H; destruct H as [_ (t & Ht & ->)].
  apply Affine_mix; try assumption.
  - apply Hin, predecessors_In; eapply in_combine_r; exact Hc.
  - apply Hin; eapply in_combine_l; exact Hc.
Qed.

Lemma holdsOn_nil (g : Point R -> R) : holdsOn g [].
Proof. intros v []. Qed.

Lemma clipPolygonByLine_inside (poly : list (Point R)) (a b : Point R) :
  holdsOn (side a b) (clipPolygonByLine poly a b).
Proof.
  unfold clipPolygonByLine; destruct (length poly <? 3)%nat.
  - apply holdsOn_nil.
  - apply clipAgainst_inside.
Qed.

Lemma clipPolygonByLine_keeps (g : Point R -> R) (poly : list (Point R)) (a b : Point R) :
  Affine g -> holdsOn g poly -> holdsOn g (clipPolygonByLine poly a b).
Proof.
  intros Hg H; unfold clipPolygonByLine; destruct (length poly <? 3)%nat.
  - apply holdsOn_nil.
  - now apply clipAgainst_keeps.
Qed.

Lemma clipLoop_keeps (g : Point R -> R) (edges : list (Point R * Point R))
    (output : list (Point R)) :
  Affine g -> holdsOn g output -> holdsOn g (clipLoop output edges).
Proof.
  intro Hg; revert output; induction edges as [|[a b] edges IH]; intros output H.
  - exact H.
  - simpl; destruct output as [|p output]; [apply holdsOn_nil|].
    apply IH; now apply clipAgainst_keeps.
Qed.

Lemma clipPolygon_keeps (g : Point R -> R) (subject clip : list (Point R)) :
  Affine g -> holdsOn g subject -> holdsOn g (clipPolygon subject clip).
Proof.
  intros Hg H; unfold clipPolygon.
  destruct ((length subject <? 3)%nat || (length clip <? 3)%nat).
  - apply holdsOn_nil.
  - now apply clipLoop_keeps.
Qed.

(** *** The cell of a seed *)

Definition bisectorSide (si sj : Point R) : Point R -> R :=
  side (fst (bisector si sj)) (snd (bisector si sj)).

Lemma bisectorSide_far (si sj p : Point R) :
  0 <= bisectorSide si sj p <-> dist p sj <= dist p si.
Proof.
  unfold bisectorSide; rewrite <- isInside_side; apply isInside_bisector.
Qed.

Lemma bisectorLoop_keeps (g : Point R -> R) (i : nat) (si : Point R)
    (others : list (Point R)) (j : nat) (cell : list (Point R)) :
  Affine g -> holdsOn g cell -> holdsOn g (bisectorLoop i si j others cell).
Proof.
  intro Hg; revert j cell; induction others as [|sj rest IH]; intros j cell H;
    cbn [bisectorLoop].
  - exact H.
  - destruct (i =? j)%nat; [now apply IH|].
    destruct (length cell <? 3)%nat; [exact H|].
    destruct (bisector si sj) as [lineA lineB].
    apply IH; now apply clipPolygonByLine_keeps.
Qed.

(** A region that comes out of the loop with three vertices at least has
    been clipped against every other seed. *)
Lemma bisectorLoop_inside (i : nat) (si : Point R) (others : list (Point R))
    (j : nat) (cell : list (Point R)) (k : nat) (sj : Point R) :
  (3 <= length (bisectorLoop i si j others cell))%nat ->
  nth_error others k = Some sj -> (j + k)%nat <> i ->
  holdsOn (bisectorSide si sj) (bisectorLoop i si j others cell).
Proof.
  revert j cell k; induction others as [|s rest IH]; intros j cell k Hlen Hk Hne.
  - destruct k; discriminate Hk.
  - cbn [bisectorLoop] in *.
    destruct (i =? j)%nat eqn:Eij.
    + apply Nat.eqb_eq in Eij; subst j.
      destruct k as [|k]; [elim Hne; lia|].
      apply (IH (S i) cell k); [assumption|assumption|lia].
    + destruct (length cell <? 3)%nat eqn:El.
      * apply Nat.ltb_lt in El; lia.
      * destruct (bisector si s) as [lineA lineB] eqn:Eb.
        destruct k as [|k].
        -- injection Hk as <-.
           apply bisectorLoop_keeps; [apply side_Affine|].
           unfold bisectorSide; rewrite Eb; simpl.
           apply clipPolygonByLine_inside.
        -- apply (IH (S j) _ k); [assumption|assumption|lia].
Qed.

Lemma voronoiCell_inside (seeds polygon : list (Point R)) (i j : nat) (si sj : Point R) :
  nth_error seeds j = Some sj -> j <> i ->
  holdsOn (bisectorSide si sj) (voronoiCell seeds polygon i si).
Proof.
  intros Hj Hne; unfold voronoiCell.
  set (cell := bisectorLoop i si 0 seeds (bigBox polygon)).
  destruct (3 <=? length cell)%nat eqn:E.
  - apply Nat.leb_le in E.
    assert (H : holdsOn (bisectorSide si sj) (clipPolygon cell polygon)).
    { apply clipPolygon_keeps; [apply side_Affine|].
      now apply (bisectorLoop_inside i si seeds 0 (bigBox polygon) j sj). }
    destruct (3 <=? length (clipPolygon cell polygon))%nat;
      [exact H|apply holdsOn_nil].
  - rewrite E; apply holdsOn_nil.
Qed.

Lemma nth_error_mapi_from {A B : Type} (f : nat -> A -> B) (l : list A) (k n : nat) :
  nth_error (mapi_from f k l) n = option_map (f (k + n)%nat) (nth_error l n).
Proof.
  revert k n; induction l as [|a l IH]; intros k [|n]; simpl; try reflexivity.
  - now rewrite Nat.add_0_r.
  - rewrite IH; do 2 f_equal; lia.
Qed.

Lemma computeVoronoiCells_nth (seeds polygon : list (Point R)) (i : nat)
    (ci : list (Point R)) :
  nth_error (computeVoronoiCells seeds polygon) i = Some ci ->
  exists si, nth_error seeds i = Some si /\ ci = voronoiCell seeds polygon i si.
Proof.
  unfold computeVoronoiCells; rewrite nth_error_mapi_from; simpl.
  destruct (nth_error seeds i) as [si|]; [|discriminate].
  intros [= <-]; now exists si.
Qed.

(** Every point of the cell of seed [i] is at least as far from seed [i] as
    from any other seed. *)
Lemma cell_is_far_from_its_seed (seeds polygon : list (Point R)) (i j : nat)
    (si sj : Point R) (ci : list (Point R)) (p : Point R) :
  nth_error seeds i = Some si -> nth_error seeds j = Some sj -> i <> j ->
  nth_error (computeVoronoiCells seeds polygon) i = Some ci ->
  Hull ci p -> dist p sj <= dist p si.
Proof.
  intros Hi Hj Hne Hc Hp.
  apply computeVoronoiCells_nth in Hc; destruct Hc as (si' & Hi' & ->).
  rewrite Hi in Hi'; injection Hi' as <-.
  apply bisectorSide_far.
  apply (Hull_holds (bisectorSide si sj) (voronoiCell seeds polygon i si));
    [apply side_Affine| |exact Hp].
  apply voronoiCell_inside with (j := j); [exact Hj|congruence].
Qed.

(** The cells of two different seeds meet on the bisector of the seeds at
    most. *)
Lemma cells_equidistant (seeds polygon : list (Point R))
    (i j : nat) (si sj : Point R) (ci cj : list (Point R)) (p : Point R) :
  i <> j ->
  nth_error seeds i = Some si -> nth_error seeds j = Some sj ->
  nth_error (computeVoronoiCells seeds polygon) i = Some ci ->
  nth_error (computeVoronoiCells seeds polygon) j = Some cj ->
  Hull ci p -> Hull cj p ->
  dist p si = dist p sj.
Proof.
  intros Hne Hi Hj Hci Hcj Hpi Hpj.
  apply Rle_antisym.
  - apply (cell_is_far_from_its_seed seeds polygon j i sj si cj p);
      try assumption; congruence.
  - apply (cell_is_far_from_its_seed seeds polygon i j si sj ci p);
      assumption.
Qed.

(** The same for the un-perturbed cells underlying two different
    fragments that [generateFragments] returns: a point within the vertices
    of both cells is at the same distance from the two seeds, the seeds
    after relaxation.  When the two seeds differ the cells meet on their
    bisector only; when they are equal this says nothing, and the two
    cells are the same. *)
Lemma fragments_share_equidistant_points
    (mathRandom : nat -> R) (outline : list (Point R)) (difficulty : JSValue)
    (seed : option Z) (f g : Fragment R) :
  In f (generateFragments mathRandom outline difficulty seed) ->
  In g (generateFragments mathRandom outline difficulty seed) ->
  id f <> id g ->
  let cells := cellsOf mathRandom outline difficulty seed in
  let seeds := seedsOf mathRandom outline difficulty seed in
  exists (cf cg : list (Point R)) (sf sg : Point R),
    nth_error cells (Z.to_nat (id f)) = Some cf /\
    nth_error cells (Z.to_nat (id g)) = Some cg /\
    nth_error seeds (Z.to_nat (id f)) = Some sf /\
    nth_error seeds (Z.to_nat (id g)) = Some sg /\
    forall p, Hull cf p -> Hull cg p -> dist p sf = dist p sg.
Proof.
  intros Hf Hg Hne cells seeds.
  apply generateFragments_In in Hf, Hg.
  destruct Hf as (kf & cf & _ & Hcf & Hif & _).
  destruct Hg as (kg & cg & _ & Hcg & Hig & _).
  rewrite Hif, Hig, !Nat2Z.id.
  assert (Hk : kf <> kg) by (intro E; apply Hne; congruence).
  fold cells in Hcf, Hcg.
  assert (Ec : cells = computeVoronoiCells seeds outline)
    by apply cellsOf_seedsOf.
  rewrite Ec in Hcf, Hcg |- *.
  destruct (computeVoronoiCells_nth seeds outline kf cf Hcf) as (sf & Hsf & _).
  destruct (computeVoronoiCells_nth seeds outline kg cg Hcg) as (sg & Hsg & _).
  exists cf, cg, sf, sg; repeat split; try assumption.
  intros p Hpf Hpg.
  now apply (cells_equidistant seeds outline kf kg sf sg cf cg p).
Qed.

(** *** A run on an outline reduced to a point

    No sampled point is inside, the seeds are the three of the fallback,
    the relaxation moves none, and the cells of the second and the third
    seed are the bounding box, itself reduced to the point. *)

Definition origin : Point R := mkPoint 0 0.
Definition pointOutline : list (Point R) := [origin; origin; origin].
Definition pointCell : list (Point R) := [origin; origin; origin; origin].
Definition threeSeeds : list (Point R) :=
  [origin; mkPoint (-20) (-20); mkPoint 20 20].

Lemma predecessors_length (poly : list (Point R)) :
  length (predecessors poly) = length poly.
Proof.
  destruct poly as [|p rest]; [reflexivity|].
  unfold predecessors; cbn [length].
  rewrite removelast_firstn_len, length_firstn; cbn [length]; lia.
Qed.

(** A stage all of whose input is inside returns its input; a stage none
    of whose input is inside returns nothing. *)
Lemma clipAgainst_all_inside (input : list (Point R)) (a b : Point R) :
  holdsOn (side a b) input -> clipAgainst input a b = input.
Proof.
  intro H; unfold clipAgainst.
  assert (G : forall l m : list (Point R),
             length m = length l ->
             (forall v, In v l -> 0 <= side a b v) ->
             (forall v, In v m -> 0 <= side a b v) ->
             flat_map (clipVertex a b) (combine l m) = l).
  { induction l as [|c l IH]; intros [|q m] Hlen Hl Hm;
      try reflexivity; try discriminate.
    assert (Ec : isInside c a b = true) by (apply isInside_side, Hl; now left).
    assert (Eq : isInside q a b = true) by (apply isInside_side, Hm; now left).
    cbn [combine flat_map]; unfold clipVertex at 1.
    rewrite Ec, Eq; cbn [negb app]; f_equal.
    apply IH; [simpl in Hlen; lia|intros; apply Hl; now right
              |intros; apply Hm; now right]. }
  apply G; [apply predecessors_length|exact H|].
  intros v Hv; now apply H, predecessors_In.
Qed.

Lemma clipAgainst_all_outside (input : list (Point R)) (a b : Point R) :
  (forall v, In v input -> side a b v < 0) -> clipAgainst input a b = [].
Proof.
  intro H; unfold clipAgainst.
  assert (G : forall l m : list (Point R),
             (forall v, In v l -> side a b v < 0) ->
             (forall v, In v m -> side a b v < 0) ->
             flat_map (clipVertex a b) (combine l m) = []).
  { induction l as [|c l IH]; intros [|q m] Hl Hm; try reflexivity.
    assert (Ec : isInside c a b = false)
      by (apply isInside_side_false, Hl; now left).
    assert (Eq : isInside q a b = false)
      by (apply isInside_side_false, Hm; now left).
    cbn [combine flat_map]; unfold clipVertex at 1.
    rewrite Ec, Eq; cbn [app].
    apply IH; [intros; apply Hl; now right|intros; apply Hm; now right]. }
  apply G; [exact H|].
  intros v Hv; now apply H, predecessors_In.
Qed.

Lemma extendBounds_origin :
  extendBounds (mkBounds 0 0 0 0) origin = mkBounds 0 0 0 0.
Proof.
  assert (E : Real.ltb 0 0 = false) by (apply ltb_false; lra).
  unfold extendBounds, origin; cbn [x y minX minY maxX maxY nlt R_Number].
  repeat (rewrite E; cbn [x y minX minY maxX maxY]); reflexivity.
Qed.

Lemma polygonBounds_pointOutline : polygonBounds pointOutline = mkBounds 0 0 0 0.
Proof.
  unfold polygonBounds, pointOutline; cbn [fold_left].
  change (mkBounds (x origin) (y origin) (x origin) (y origin))
    with (mkBounds 0 0 0 0).
  now rewrite !extendBounds_origin.
Qed.

Lemma bigBox_pointOutline : bigBox pointOutline = pointCell.
Proof.
  unfold bigBox; rewrite polygonBounds_pointOutline; cbn [minX minY maxX maxY].
  simpl.
  assert (E : Rmax (0 - 0) (0 - 0) = 0) by (rewrite Rmax_left; lra).
  rewrite E; unfold pointCell, origin; repeat f_equal; lra.
Qed.

Lemma fallbackSeeds_pointOutline : fallbackSeeds pointOutline = threeSeeds.
Proof.
  unfold fallbackSeeds; rewrite polygonBounds_pointOutline.
  cbn [minX minY maxX maxY]; simpl.
  unfold threeSeeds, origin; repeat f_equal; lra.
Qed.

Lemma side_pointCell (a b : Point R) :
  0 <= side a b origin -> holdsOn (side a b) pointCell.
Proof. intros H v Hv; simpl in Hv; intuition (subst; assumption). Qed.

Lemma clipPolygonByLine_pointCell (a b : Point R) :
  0 <= side a b origin -> clipPolygonByLine pointCell a b = pointCell.
Proof.
  intro H; unfold clipPolygonByLine.
  change (length pointCell <? 3)%nat with false; cbv iota.
  apply clipAgainst_all_inside; now apply side_pointCell.
Qed.

Lemma clipPolygonByLine_pointCell_outside (a b : Point R) :
  side a b origin < 0 -> clipPolygonByLine pointCell a b = [].
Proof.
  intro H; unfold clipPolygonByLine.
  change (length pointCell <? 3)%nat with false; cbv iota.
  apply clipAgainst_all_outside.
  intros v Hv; simpl in Hv; intuition (subst; assumption).
Qed.

Lemma clipPolygon_pointCell : clipPolygon pointCell pointOutline = pointCell.
Proof.
  unfold clipPolygon.
  change ((length pointCell <? 3)%nat || (length pointOutline <? 3)%nat) with false;
    cbv iota.
  assert (Ho : holdsOn (side origin origin) pointCell)
    by (apply side_pointCell; unfold side; simpl; lra).
  unfold pointOutline; cbn [successors app combine].
  unfold pointCell at 1; cbn [clipLoop]; fold pointCell.
  rewrite (clipAgainst_all_inside pointCell origin origin Ho).
  unfold pointCell at 1; cbn [clipLoop]; fold pointCell.
  rewrite (clipAgainst_all_inside pointCell origin origin Ho).
  unfold pointCell at 1; cbn [clipLoop]; fold pointCell.
  now rewrite (clipAgainst_all_inside pointCell origin origin Ho).
Qed.

Ltac bisector_step :=
  cbn [bisectorLoop Nat.eqb];
  try (change (length pointCell <? 3)%nat with false; cbv iota);
  unfold bisector; cbv iota beta.

Lemma computeVoronoiCells_threeSeeds :
  computeVoronoiCells threeSeeds pointOutline = [[]; pointCell; pointCell].
Proof.
  unfold computeVoronoiCells, threeSeeds; cbn [mapi_from].
  unfold voronoiCell; rewrite bigBox_pointOutline.
  repeat f_equal.
  - bisector_step.
    rewrite clipPolygonByLine_pointCell_outside
      by (unfold side, origin; simpl; lra).
    reflexivity.
  - bisector_step.
    rewrite clipPolygonByLine_pointCell by (unfold side, origin; simpl; lra).
    bisector_step.
    rewrite clipPolygonByLine_pointCell by (unfold side, origin; simpl; lra).
    cbn [bisectorLoop].
    change (3 <=? length pointCell)%nat with true; cbv iota.
    rewrite clipPolygon_pointCell.
    change (3 <=? length pointCell)%nat with true; reflexivity.
  - bisector_step.
    rewrite clipPolygonByLine_pointCell by (unfold side, origin; simpl; lra).
    bisector_step.
    rewrite clipPolygonByLine_pointCell by (unfold side, origin; simpl; lra).
    cbn [bisectorLoop].
    change (3 <=? length pointCell)%nat with true; cbv iota.
    rewrite clipPolygon_pointCell.
    change (3 <=? length pointCell)%nat with true; reflexivity.
Qed.

Section PointRun.

Variable mathRandom : nat -> R.

Lemma pointInPolygon_pointOutline (pt : Point R) :
  pointInPolygon pt pointOutline = false.
Proof.
  unfold pointInPolygon, pointOutline, predecessors.
  cbn [length removelast last app firstn combine fold_left origin x y].
  now rewrite !eqb_reflx.
Qed.

Lemma samplingLoop_pointOutline (fuel n : nat) (bounds : Bounds R)
    (st : Sampling R) :
  points (samplingLoop mathRandom fuel pointOutline bounds n st) = points st.
Proof.
  revert st; induction fuel as [|fuel IH]; intro st; [reflexivity|].
  cbn [samplingLoop].
  destruct ((length (points st) <? n)%nat && (attempts st <? n * 200)%nat);
    [|reflexivity].
  destruct (callRng mathRandom (source st)) as [r1 src].
  destruct (callRng mathRandom src) as [r2 src'].
  now rewrite IH, pointInPolygon_pointOutline.
Qed.

Lemma initialSeeds_pointOutline (n : Count) (r : Random) :
  fst (initialSeeds mathRandom pointOutline n r) = threeSeeds.
Proof.
  unfold initialSeeds, randomPointsInPolygon.
  assert (E : points (sampling mathRandom pointOutline n r) = []).
  { destruct n as [n|]; [|reflexivity].
    unfold sampling; now rewrite samplingLoop_pointOutline. }
  rewrite E; cbn [length Nat.ltb Nat.leb fst].
  apply fallbackSeeds_pointOutline.
Qed.

Lemma lloydStep_pointOutline (seeds : list (Point R)) :
  lloydStep seeds pointOutline = seeds.
Proof.
  unfold lloydStep.
  assert (G : forall (l : list (Point R)) (cells : list (list (Point R))),
             length cells = length l ->
             map (fun '(s, cell) =>
                    if (3 <=? length cell)%nat then
                      if pointInPolygon (polygonCentroid cell) pointOutline
                      then polygonCentroid cell else s
                    else s) (combine l cells) = l).
  { induction l as [|s l IH]; intros [|c cells] Hlen;
      try reflexivity; try discriminate.
    cbn [combine map]; rewrite pointInPolygon_pointOutline.
    rewrite IH by (simpl in Hlen; lia).
    now destruct (3 <=? length c)%nat. }
  apply G, computeVoronoiCells_length.
Qed.

Lemma seedsOf_pointOutline (difficulty : JSValue) (seed : option Z) :
  seedsOf mathRandom pointOutline difficulty seed = threeSeeds.
Proof.
  unfold seedsOf, relaxedSeeds.
  pose proof (initialSeeds_pointOutline (pieceCount difficulty)
                (mkRandom (seedRng seed) 0)) as E.
  destruct (initialSeeds _ _ _ _) as [seeds r]; cbn [fst] in *; subst seeds.
  cbn [lloydRelax]; now rewrite !lloydStep_pointOutline.
Qed.

Lemma cellsOf_pointOutline (difficulty : JSValue) (seed : option Z) :
  cellsOf mathRandom pointOutline difficulty seed = [[]; pointCell; pointCell].
Proof.
  rewrite cellsOf_seedsOf, seedsOf_pointOutline.
  apply computeVoronoiCells_threeSeeds.
Qed.

(** The fragment cut from such a cell: eight vertices, all at the point. *)
Definition dotCell : list (Point R) :=
  [origin; origin; origin; origin; origin; origin; origin; origin].
Definition dot (i : Z) : Fragment R :=
  mkFragment i dotCell origin origin origin 0 false i.

Lemma polygonArea_pointOutline : polygonArea pointOutline = 0.
Proof. unfold polygonArea, pointOutline, origin; simpl; lra. Qed.

Lemma polygonArea_pointCell : polygonArea pointCell = 0.
Proof. unfold polygonArea, pointCell, origin; simpl; lra. Qed.

Lemma polygonArea_dotCell : polygonArea dotCell = 0.
Proof. unfold polygonArea, dotCell, origin; simpl; lra. Qed.

Lemma keepsCell_pointCell :
  keepsCell (nabs (polygonArea pointOutline)) pointCell = true.
Proof.
  unfold keepsCell; rewrite polygonArea_pointOutline, polygonArea_pointCell.
  change (3 <=? length pointCell)%nat with true; cbn [andb nabs R_Number].
  apply negb_true_iff, ltb_false; rewrite Rabs_R0; simpl; lra.
Qed.

Lemma subdivide_origin (r : Random) :
  subdivide mathRandom 1 1 1 2 origin origin r = ([origin], r).
Proof.
  cbn [subdivide origin x y].
  assert (E : Real.ltb 0 (sqrt ((0 - 0) * (0 - 0) + (0 - 0) * (0 - 0))) = false).
  { apply ltb_false.
    replace ((0 - 0) * (0 - 0) + (0 - 0) * (0 - 0)) with 0 by lra.
    rewrite sqrt_0; lra. }
  cbn [nlt nsqrt nadd nsub nmul ndiv of_Z R_Number]; rewrite E.
  unfold origin; repeat f_equal; simpl; lra.
Qed.

Lemma addTornEdgeNoise_pointCell (r : Random) :
  addTornEdgeNoise mathRandom pointCell 2 1 r = (dotCell, r).
Proof.
  unfold addTornEdgeNoise.
  change (length pointCell <? 3)%nat with false; cbv iota.
  unfold pointCell, successors; cbn [app combine noiseEdges].
  now rewrite !subdivide_origin.
Qed.

Lemma polygonCentroid_dotCell : polygonCentroid dotCell = origin.
Proof.
  unfold polygonCentroid; rewrite polygonArea_dotCell.
  assert (E : Real.ltb (Rabs 0) epsilon = true).
  { apply ltb_true; rewrite Rabs_R0; unfold epsilon; simpl; lra. }
  cbn [nlt nabs R_Number]; rewrite E.
  unfold dotCell, origin; simpl; f_equal; lra.
Qed.

(** The run returns the fragments 1 and 2, whatever the difficulty, the
    seed and the numbers [Math.random] gives. *)
Lemma generateFragments_pointOutline (difficulty : JSValue) (seed : option Z) :
  generateFragments mathRandom pointOutline difficulty seed = [dot 1; dot 2].
Proof.
  pose proof (cellsOf_pointOutline difficulty seed) as E.
  unfold generateFragments, generateFragmentsFrom, cellsOf, seedRng in *.
  destruct (fragmentCells _ _ _ _) as [cells r]; cbn [fst] in E; subst cells.
  cbn [buildFragments].
  change (keepsCell (nabs (polygonArea pointOutline)) []) with false; cbv iota.
  rewrite keepsCell_pointCell, !addTornEdgeNoise_pointCell.
  now rewrite polygonCentroid_dotCell.
Qed.

End PointRun.

Example fragments_share_equidistant_points_of_a_point :
  let mathRandom := fun _ : nat => 0 in
  let frags :=
    generateFragments mathRandom pointOutline (JSString "easy") (Some 1%Z) in
  let cells := cellsOf mathRandom pointOutline (JSString "easy") (Some 1%Z) in
  let seeds := seedsOf mathRandom pointOutline (JSString "easy") (Some 1%Z) in
  (In (dot 1) frags /\ In (dot 2) frags /\ id (dot 1) <> id (dot 2)) /\
  exists (cf cg : list (Point R)) (sf sg : Point R),
    nth_error cells (Z.to_nat (id (dot 1))) = Some cf /\
    nth_error cells (Z.to_nat (id (dot 2))) = Some cg /\
    nth_error seeds (Z.to_nat (id (dot 1))) = Some sf /\
    nth_error seeds (Z.to_nat (id (dot 2))) = Some sg /\
    forall p, Hull cf p -> Hull cg p -> dist p sf = dist p sg.
Proof.
  intros mathRandom frags cells seeds.
  assert (H : In (dot 1) frags /\ In (dot 2) frags /\ id (dot 1) <> id (dot 2)).
  { unfold frags; rewrite generateFragments_pointOutline.
    split; [now left|split; [now right; left|discriminate]]. }
  split; [exact H|].
  destruct H as (Hf & Hg & Hne).
  exact (fragments_share_equidistant_points mathRandom pointOutline
           (JSString "easy") (Some 1%Z) (dot 1) (dot 2) Hf Hg Hne).
Qed.

End Cells.

(** ** Runs on binary64 numbers *)

Module OnFloats.

Local Open Scope float_scope.

Definition square : list (Point float) :=
  [mkPoint 0 0; mkPoint 100 0; mkPoint 100 100; mkPoint 0 100].

(** A concave outline, counter-clockwise. *)
Definition lShape : list (Point float) :=
  [mkPoint 0 0; mkPoint 200 0; mkPoint 200 100; mkPoint 100 100;
   mkPoint 100 200; mkPoint 0 200].



Definition unitSquare : list (Point float) :=
  [mkPoint 0 0; mkPoint 1 0; mkPoint 1 1; mkPoint 0 1].

(** A triangle whose first edge crosses the line [y = 0] at a slope under
    the threshold of [lineIntersection]. *)
Definition sliver : list (Point float) :=
  [mkPoint 0.25 0x1p-40; mkPoint 0.75 (-0x1p-40); mkPoint 0.5 (-1)].

(** [Math.random] answering always the same number. *)
Definition always (v : float) : nat -> float := fun _ => v.

(** [Math.random] answering 0, 1/1024, 2/1024, ... in turn. *)
Definition ramp (call : nat) : float :=
  F64.of_Z (Z.of_nat (call mod 1024)) / 1024.

(** C1 fails on the code: the torn-edge noise is drawn from [Math.random],
    not from the seeded generator.  Two calls in a row with the same
    outline, difficulty and seed, the second starting where the first left
    [Math.random] (here after 18 calls), return different fragments. *)
Theorem generateFragments_reads_Math_random :
  let first := generateFragmentsFrom ramp 0 square (JSString "easy") (Some 42%Z) in
  let second := generateFragmentsFrom ramp (ambient (snd first)) square
                  (JSString "easy") (Some 42%Z) in
  ambient (snd first) = 18%nat /\ fst first <> fst second.
Proof.
  split; [vm_compute; reflexivity|].
  intro H.
  apply (f_equal (fun frags => match frags with
                               | f :: _ => PrimFloat.ltb (x (centroid f)) 27.701171875
                               | [] => false
                               end)) in H.
  vm_compute in H; discriminate H.
Qed.

(** The same under two constant streams. *)
Example generateFragments_under_two_streams :
  generateFragments (always 0) square (JSString "easy") (Some 42%Z) <>
  generateFragments (always 0.5) square (JSString "easy") (Some 42%Z).
Proof.
  intro H.
  apply (f_equal (fun frags => match frags with
                               | f :: _ => PrimFloat.ltb (x (centroid f)) 27.75
                               | [] => false
                               end)) in H.
  vm_compute in H; discriminate H.
Qed.

(** The seeded part of C1: the cells do not depend on [Math.random]. *)
Lemma cells_are_seeded (mr mr' : nat -> float) (outline : list (Point float))
    (difficulty : JSValue) (seed : Z) :
  cellsOf mr outline difficulty (Some seed) = cellsOf mr' outline difficulty (Some seed).
Proof. apply fragmentCells_seeded. Qed.

Definition sumOfAreas (cells : list (list (Point float))) : float :=
  fold_left PrimFloat.add (map (fun cell => abs (polygonArea cell)) cells) 0.

(** The cells a run keeps as fragments. *)
Definition keptCells (outline : list (Point float)) (difficulty : JSValue)
    (seed : Z) : list (list (Point float)) :=
  filter (keepsCell (abs (polygonArea outline)))
         (cellsOf (always 0.5) outline difficulty (Some seed)).

(** Beside C2, on a convex outline: with 13 pieces and seed 1 on the square
    of area 10000, one of the five cells that are not empty has an area of
    50.07, under 1% of the outline's, and is discarded; the four cells of
    the four fragments returned cover less than 9950. *)
Lemma kept_cells_miss_a_sliver :
  polygonArea square = 10000 /\
  length (generateFragments (always 0.5) square (JSString "hard") (Some 1%Z)) = 4%nat /\
  length (keptCells square (JSString "hard") 1) = 4%nat /\
  PrimFloat.ltb (sumOfAreas (keptCells square (JSString "hard") 1)) 9950 = true.
Proof. vm_compute; repeat split. Qed.

(** Beside C2, without a seed: when [Math.random] answers the same number
    again and again the five seeds are one point, the five cells are the
    whole square each, and five fragments lie one upon the other. *)
Example cells_coincide_when_the_seeds_do :
  let cells := cellsOf (always 0.5) square (JSString "easy") None in
  seedsOf (always 0.5) square (JSString "easy") None
  = repeat (mkPoint 50 50) 5 /\
  cells = repeat [mkPoint 0 100; mkPoint 0 0; mkPoint 100 0; mkPoint 100 100] 5 /\
  length (generateFragments (always 0.5) square (JSString "easy") None) = 5%nat /\
  sumOfAreas cells = 50000.
Proof. vm_compute; repeat split. Qed.

(** The area, for the L-shaped outline, of the cells underlying the
    fragments of a run. *)
Definition lShapeCovered (difficulty : JSValue) (seed : nat) : float :=
  sumOfAreas (keptCells lShape difficulty (Z.of_nat seed)).

Lemma lShapeCovered_seeds :
  forallb (fun difficulty =>
             forallb (fun seed => PrimFloat.ltb (lShapeCovered difficulty seed) 10001)
                     (seq 0 100))
          [JSString "easy"; JSString "medium"; JSString "hard"] = true.
Proof. vm_compute; reflexivity. Qed.

(** C2 fails on the code.  [computeVoronoiCells] clips every cell by
    [clipPolygon] with the outline as the clip polygon, and [clipPolygon]
    keeps what is on the left of every edge of its clip polygon, which is
    the clip polygon itself only if that is convex.  On the L-shaped
    outline of area 30000, the left of every edge is the square between
    (0, 0) and (100, 100): whatever the tier, the seed from 0 to 99 and the
    answers of [Math.random], the cells underlying the fragments returned
    cover less than 10001, a third of the outline.  With 5 pieces and seed
    42 all five cells become fragments and they cover 10000. *)
Theorem cells_miss_the_arms_of_a_concave_outline :
  polygonArea lShape = 30000 /\
  (forall (mathRandom : nat -> float) (difficulty : JSValue) (seed : nat),
      In difficulty [JSString "easy"; JSString "medium"; JSString "hard"] ->
      (seed < 100)%nat ->
      let cells :=
        filter (keepsCell (abs (polygonArea lShape)))
               (cellsOf mathRandom lShape difficulty (Some (Z.of_nat seed))) in
      length (generateFragments mathRandom lShape difficulty (Some (Z.of_nat seed)))
      = length cells /\
      PrimFloat.ltb (sumOfAreas cells) 10001 = true) /\
  (let cells := cellsOf (always 0.5) lShape (JSString "easy") (Some 42%Z) in
   length (generateFragments (always 0.5) lShape (JSString "easy") (Some 42%Z)) = 5%nat /\
   length (keptCells lShape (JSString "easy") 42) = 5%nat /\
   sumOfAreas cells = 10000).
Proof.
  split; [vm_compute; reflexivity|split; [|vm_compute; repeat split]].
  intros mathRandom difficulty seed Hd Hs cells; subst cells; split.
  - rewrite (generateFragments_length mathRandom lShape difficulty
               (Some (Z.of_nat seed))).
    reflexivity.
  - rewrite (cells_are_seeded mathRandom (always 0.5) lShape difficulty (Z.of_nat seed)).
    pose proof lShapeCovered_seeds as H.
    rewrite forallb_forall in H; specialize (H difficulty Hd).
    rewrite forallb_forall in H; apply (H seed).
    apply in_seq; lia.
Qed.

Lemma cells_miss_the_arms_of_a_concave_outline_witness :
  PrimFloat.ltb
    (sumOfAreas
       (filter (keepsCell (abs (polygonArea lShape)))
          (cellsOf ramp lShape (JSString "medium") (Some (Z.of_nat 7)))))
    10001 = true.
Proof.
  apply (proj1 (proj2 cells_miss_the_arms_of_a_concave_outline) ramp
           (JSString "medium") 7%nat); [simpl; tauto|lia].
Defined.

(** C3 on the numbers of the program: seed (0, 0) fails the inside test of
    its own clip against seed (2, 0). *)
Example seed_fails_its_own_clip :
  let '(lineA, lineB) := bisector (mkPoint 0 0) (mkPoint 2 0) in
  isInside (mkPoint 0 0) lineA lineB = false /\
  isInside (mkPoint 2 0) lineA lineB = true.
Proof. vm_compute; split; reflexivity. Qed.

(** C4 as it is stated fails: the first stage leaves two vertices, the
    clipping goes on, and two vertices are returned. *)
Lemma clipPolygon_returns_two_vertices :
  length (clipAgainst sliver (mkPoint 0 0) (mkPoint 1 0)) = 2%nat /\
  length (clipPolygon sliver unitSquare) = 2%nat.
Proof. vm_compute; split; reflexivity. Qed.









(** The first stage of C4 on a subject of two vertices. *)
Lemma clipPolygon_halts_on_empty_only_witness :
  clipPolygon [mkPoint 0 0; mkPoint 1 0] unitSquare = [].
Proof.
  apply (proj1 clipPolygon_halts_on_empty_only).
  left; simpl; lia.
Defined.

(** An outline of no area: the sampling finds nothing and the seeds are the
    three points of the fallback. *)
Definition point3 : list (Point float) := [mkPoint 0 0; mkPoint 0 0; mkPoint 0 0].

Lemma seeding_is_bounded_and_falls_back_witness :
  fst (initialSeeds (always 0) point3 (CountNum 5) (mkRandom (mulberry32 42) 0))
  = fallbackSeeds point3 /\
  fallbackSeeds point3 = [mkPoint 0 0; mkPoint (-20) (-20); mkPoint 20 20].
Proof.
  split; [|vm_compute; reflexivity].
  apply (proj1 (proj2 (seeding_is_bounded_and_falls_back (always 0) point3
                         (CountNum 5) (mkRandom (mulberry32 42) 0)))).
  vm_compute; lia.
Defined.

(** The first number [mulberry32(42)] draws: 0.6011037519201636. *)
Example mulberry32_first_draw :
  fst (callRng (always 0) (mkRandom (mulberry32 42) 0)) = 0x1.33c3def8p-1.
Proof. vm_compute; reflexivity. Qed.

(** On a convex outline the same run covers the outline. *)
Example cells_cover_the_square :
  sumOfAreas (cellsOf (always 0.5) square (JSString "easy") (Some 42%Z)) = 10000 /\
  polygonArea square = 10000.
Proof. vm_compute; split; reflexivity. Qed.

End OnFloats.

(** ** The snap test, as the program computes it *)

Module Snap.

Local Open Scope float_scope.

(** The point of the real plane a point of binary64 coordinates is. *)
Definition exact (p : Point float) : Point R :=
  mkPoint (F64.toR (x p)) (F64.toR (y p)).

Definition origin : Point float := mkPoint 0 0.

(** A fragment whose place is the origin, lying unrotated at
    (21, 28 - 2^-48). *)
Definition nearMiss : Fragment float :=
  mkFragment 0 [] (mkPoint 0 0) (mkPoint 0 0) (mkPoint 21 0x1.bffffffffffffp+4)
    0 false 0.

Ltac exact_value a :=
  unfold F64.toR;
  let v := eval vm_compute in (Prim2SF a) in change (Prim2SF a) with v;
  cbv iota beta;
  match goal with
  | |- context [(0 <=? ?e)%Z] =>
      let b := eval vm_compute in (0 <=? e)%Z in change (0 <=? e)%Z with b
  end;
  cbv iota;
  match goal with
  | |- context [(2 ^ ?e)%Z] =>
      let p := eval vm_compute in (2 ^ e)%Z in change (2 ^ e)%Z with p
  end.

Lemma toR_zero : F64.toR (0 + 0) = 0%R.
Proof. reflexivity. Qed.

Lemma toR_21 : F64.toR 21 = 21%R.
Proof. exact_value 21%float; lra. Qed.

Lemma toR_nearMiss : F64.toR 0x1.bffffffffffffp+4 = (28 - / 2 ^ 48)%R.
Proof. exact_value 0x1.bffffffffffffp+4%float; lra. Qed.

(** C5 as it is stated fails on the numbers of the program.  The fragment
    [nearMiss] is unrotated and its Euclidean distance to its place is
    below 35: the square of the distance is 1225 - 56 * 2^-48 + 2^-96.  But
    the distance [checkSnap] computes is 35: the square of 28 - 2^-48
    rounds to 784 - 2^-42, and the square root of 1225 - 2^-42 rounds to
    35.  So [checkSnap] refuses the fragment, whatever [Math.cos] and
    [Math.sin] are. *)
Lemma checkSnap_refuses_a_fragment_within_reach :
  let target := mkPoint (x origin + x (centroid nearMiss))
                        (y origin + y (centroid nearMiss)) in
  rotation nearMiss = 0 /\
  (dist (exact (currentPosition nearMiss)) (exact target) < 35)%R /\
  dist (currentPosition nearMiss) target = 35 /\
  forall cos sin : float -> float,
    @checkSnap float _ (float_Trig cos sin) nearMiss origin
      35 0x1.999999999999ap-2 = false.
Proof.
  cbv zeta.
  split; [reflexivity|split; [|split]].
  - unfold exact, dist; cbn [x y currentPosition centroid nearMiss origin].
    rewrite toR_zero, toR_21, toR_nearMiss.
    cbn [nsqrt nadd nsub nmul R_Number].
    replace 35%R with (sqrt (35 * 35)) by (apply sqrt_square; lra).
    assert (He : (0 < / 2 ^ 48 < 1)%R) by lra.
    set (e := (/ 2 ^ 48)%R) in *.
    apply sqrt_lt_1_alt; split; nra.
  - vm_compute; reflexivity.
  - intros cos sin; vm_compute; reflexivity.
Qed.

Section Carrier.

Context {num : Type} {N : Number num} {T : Trig num}.
Local Open Scope num_scope.

Lemma checkSnap_computed (fragment : Fragment num) (anchor : Point num)
    (snapDistance snapAngleTolerance : num) :
  let target := mkPoint (x anchor + x (centroid fragment))
                        (y anchor + y (centroid fragment)) in
  let distance := dist (currentPosition fragment) target in
  let rot := nrem (rotation fragment) (npi * of_Z 2) in
  let rot := if rot <? of_Z 0 then rot + npi * of_Z 2 else rot in
  checkSnap fragment anchor snapDistance snapAngleTolerance = true <->
  (distance <? snapDistance) = true /\
  ((rot <? snapAngleTolerance) = true \/
   (rot >? npi * of_Z 2 - snapAngleTolerance) = true).
Proof.
  intros target distance rot0 rot.
  unfold checkSnap, angleOk, normalizedRotation.
  fold rot0; fold rot.
  change (nsqrt _) with distance.
  now rewrite andb_true_iff, orb_true_iff.
Qed.

End Carrier.

(** C5, amended.  On every carrier, [checkSnap] holds exactly when the
    distance it computes between the fragment's position and
    [anchor + centroid], the square root of the sum of the squares of the
    two differences, is below [snapDistance], and the rotation as it
    normalizes it, the remainder by 2π plus 2π when that is negative, is
    below [snapAngleTolerance] or above 2π minus [snapAngleTolerance]; the
    comparisons, the root and the remainder are the carrier's.  On
    binary64, with the distance 35 and the tolerance 0.4 and whatever
    [Math.cos] and [Math.sin] are: a computed distance of 34 with the
    rotation 0.39 snaps; a computed distance of 36 does not; the rotation
    0.41 does not.  On the reals the computed distance is the Euclidean
    distance and the normalized rotation is the representative of the
    rotation in [0, 2π). *)
Theorem checkSnap_iff_computed_close_and_aligned :
  (forall (num : Type) (N : Number num) (T : Trig num)
          (fragment : Fragment num) (anchor : Point num)
          (snapDistance snapAngleTolerance : num),
      let target := mkPoint (x anchor + x (centroid fragment))
                            (y anchor + y (centroid fragment)) in
      let distance := dist (currentPosition fragment) target in
      let rot := nrem (rotation fragment) (npi * of_Z 2) in
      let rot := if rot <? of_Z 0 then rot + npi * of_Z 2 else rot in
      checkSnap fragment anchor snapDistance snapAngleTolerance = true <->
      (distance <? snapDistance) = true /\
      ((rot <? snapAngleTolerance) = true \/
       (rot >? npi * of_Z 2 - snapAngleTolerance) = true))%num /\
  (forall (cos sin : float -> float) (fragment : Fragment float)
          (anchor : Point float),
      let T := float_Trig cos sin in
      let target := mkPoint (x anchor + x (centroid fragment))
                            (y anchor + y (centroid fragment)) in
      let distance := dist (currentPosition fragment) target in
      (distance = 34 -> rotation fragment = 0x1.8f5c28f5c28f6p-2 ->
       checkSnap fragment anchor 35 0x1.999999999999ap-2 = true) /\
      (distance = 36 ->
       checkSnap fragment anchor 35 0x1.999999999999ap-2 = false) /\
      (rotation fragment = 0x1.a3d70a3d70a3dp-2 ->
       checkSnap fragment anchor 35 0x1.999999999999ap-2 = false)) /\
  (forall (fragment : Fragment R) (anchor : Point R)
          (snapDistance snapAngleTolerance : R),
      let target := mkPoint (x anchor + x (centroid fragment))
                            (y anchor + y (centroid fragment)) in
      checkSnap fragment anchor snapDistance snapAngleTolerance = true <->
      dist (currentPosition fragment) target < snapDistance /\
      exists (r : R) (k : Z),
        rotation fragment = r + OnReals.twoPi * IZR k /\
        0 <= r < OnReals.twoPi /\
        (r < snapAngleTolerance \/ r > OnReals.twoPi - snapAngleTolerance))%R.
Proof.
  split; [|split].
  - intros; apply checkSnap_computed.
  - intros cos sin fragment anchor T target distance.
    unfold checkSnap; change (nsqrt _) with distance.
    repeat split.
    + intros -> ->; vm_compute; reflexivity.
    + intros ->; reflexivity.
    + intros ->.
      replace (angleOk _ _) with false by (vm_compute; reflexivity).
      apply andb_false_r.
  - intros fragment anchor sd sa target.
    apply (OnReals.checkSnap_in_exact_arithmetic fragment anchor).
Qed.

(** The three cases on fragments whose place is the origin: at (34, 0)
    turned by 0.39, at (0, 36), and at its place turned by 0.41. *)
Lemma checkSnap_iff_computed_close_and_aligned_witness :
  let snaps fragment :=
    @checkSnap float _ (float_Trig (fun a => a) (fun a => a)) fragment origin
      35 0x1.999999999999ap-2 in
  snaps (mkFragment 0 [] (mkPoint 0 0) (mkPoint 0 0) (mkPoint 34 0)
           0x1.8f5c28f5c28f6p-2 false 0) = true /\
  snaps (mkFragment 0 [] (mkPoint 0 0) (mkPoint 0 0) (mkPoint 0 36)
           0 false 0) = false /\
  snaps (mkFragment 0 [] (mkPoint 0 0) (mkPoint 0 0) (mkPoint 0 0)
           0x1.a3d70a3d70a3dp-2 false 0) = false.
Proof.
  cbv zeta; split; [|split].
  - apply (proj1 (proj2 checkSnap_iff_computed_close_and_aligned));
      reflexivity.
  - apply (proj1 (proj2 (proj1 (proj2 checkSnap_iff_computed_close_and_aligned)
                           _ _ _ _)));
      reflexivity.
  - apply (proj2 (proj2 (proj1 (proj2 checkSnap_iff_computed_close_and_aligned)
                           _ _ _ _)));
      reflexivity.
Defined.

End Snap.

(** * Further properties

    What the code shows besides: the geometry utilities on the reals, the
    random sources, the noise, the scattering of the fragments and the
    handlers of the canvas. *)

From Stdlib Require Import Sorted Ascii DecimalString DecimalZ.

(** ** [geometry.js] on the reals *)

Module Plane.

Import OnReals Cells.
Local Open Scope R_scope.

(** *** [dist] *)

Lemma sqDist_sym (a b : Point R) : sqDist a b = sqDist b a.
Proof. unfold sqDist; ring. Qed.

Lemma sqDist_zero (a b : Point R) : sqDist a b = 0 -> a = b.
Proof.
  destruct a as [xa ya], b as [xb yb]; unfold sqDist; simpl; intro H.
  assert (Hx : 0 <= (xa - xb) * (xa - xb)) by apply Rle_0_sqr.
  assert (Hy : 0 <= (ya - yb) * (ya - yb)) by apply Rle_0_sqr.
  assert (Ex : (xa - xb) * (xa - xb) = 0) by lra.
  assert (Ey : (ya - yb) * (ya - yb) = 0) by lra.
  apply Rsqr_0_uniq in Ex, Ey; f_equal; lra.
Qed.

(** The inequality of Cauchy and Schwarz, as the triangle inequality needs
    it. *)
Lemma dot_le_norms (a b c d : R) :
  a * c + b * d <= sqrt (a * a + b * b) * sqrt (c * c + d * d).
Proof.
  assert (H1 : 0 <= a * a + b * b)
    by (pose proof (Rle_0_sqr a); pose proof (Rle_0_sqr b); unfold Rsqr in *; lra).
  assert (H2 : 0 <= c * c + d * d)
    by (pose proof (Rle_0_sqr c); pose proof (Rle_0_sqr d); unfold Rsqr in *; lra).
  rewrite <- sqrt_mult by assumption.
  apply Rle_trans with (Rabs (a * c + b * d)); [apply Rle_abs|].
  rewrite <- sqrt_Rsqr_abs; apply sqrt_le_1_alt; unfold Rsqr.
  pose proof (Rle_0_sqr (a * d - b * c)) as H; unfold Rsqr in H; lra.
Qed.

(** X1.  [dist] is a metric on the plane: symmetric, never negative, zero
    between a point and itself only, and it satisfies the triangle
    inequality. *)
Theorem dist_is_a_metric (a b c : Point R) :
  dist a b = dist b a /\
  0 <= dist a b /\
  (dist a b = 0 <-> a = b) /\
  dist a c <= dist a b + dist b c.
Proof.
  rewrite !dist_sqDist; repeat split.
  - now rewrite sqDist_sym.
  - apply sqrt_pos.
  - intro H; apply sqDist_zero, sqrt_eq_0; [apply sqDist_nonneg|exact H].
  - intros ->; unfold sqDist.
    replace ((x b - x b) * (x b - x b) + (y b - y b) * (y b - y b)) with 0 by ring.
    apply sqrt_0.
  - apply Rsqr_incr_0_var;
      [|apply Rplus_le_le_0_compat; apply sqrt_pos].
    rewrite Rsqr_plus, !Rsqr_sqrt by apply sqDist_nonneg.
    pose proof (dot_le_norms (x a - x b) (y a - y b) (x b - x c) (y b - y c)) as H.
    unfold sqDist in *; lra.
Qed.

(** *** [polygonArea] *)

(** The term an edge adds to the sum of [polygonArea]. *)
Definition cross (p q : Point R) : R := x p * y q - x q * y p.

Definition sumCross (edges : list (Point R * Point R)) : R :=
  fold_right (fun '(p, q) s => cross p q + s) 0 edges.

(** The edges of the path from [p] through the points of [l] to [z]. *)
Definition edgesFrom (p : Point R) (l : list (Point R)) (z : Point R)
  : list (Point R * Point R) :=
  combine (p :: l) (l ++ [z]).

Lemma area_fold (edges : list (Point R * Point R)) (a : R) :
  fold_left (fun area '(pi, pj) => (area + x pi * y pj - x pj * y pi)%num)
            edges a
  = a + sumCross edges.
Proof.
  revert a; induction edges as [|[p q] edges IH]; intro a; simpl.
  - ring.
  - rewrite IH; unfold cross; ring.
Qed.

Lemma polygonArea_sumCross (poly : list (Point R)) :
  polygonArea poly = sumCross (combine poly (successors poly)) / 2.
Proof.
  unfold polygonArea; rewrite area_fold.
  cbn [of_Z ndiv nadd R_Number]; lra.
Qed.

Lemma sumCross_app (l1 l2 : list (Point R * Point R)) :
  sumCross (l1 ++ l2) = sumCross l1 + sumCross l2.
Proof.
  induction l1 as [|[p q] l1 IH]; simpl; [ring|rewrite IH; ring].
Qed.

Lemma edgesFrom_cons (p a : Point R) (l : list (Point R)) (z : Point R) :
  edgesFrom p (a :: l) z = (p, a) :: edgesFrom a l z.
Proof. reflexivity. Qed.

Lemma edgesFrom_snoc (p : Point R) (l : list (Point R)) (a z : Point R) :
  edgesFrom p (l ++ [a]) z = edgesFrom p l a ++ [(a, z)].
Proof.
  revert p; induction l as [|b l IH]; intro p; [reflexivity|].
  cbn [app]; rewrite !edgesFrom_cons, IH; reflexivity.
Qed.

Lemma closed_edges (p : Point R) (rest : list (Point R)) :
  combine (p :: rest) (successors (p :: rest)) = edgesFrom p rest p.
Proof. reflexivity. Qed.

(** The sum along a closed path does not depend on where the path
    starts. *)
Lemma closed_edges_turned (l : list (Point R)) (p : Point R) :
  sumCross (combine (l ++ [p]) (successors (l ++ [p])))
  = sumCross (edgesFrom p l p).
Proof.
  destruct l as [|a l]; [reflexivity|].
  cbn [app]; rewrite closed_edges, edgesFrom_snoc, sumCross_app, edgesFrom_cons.
  simpl; unfold cross; ring.
Qed.

Lemma sumCross_rev (l : list (Point R)) (p z : Point R) :
  sumCross (edgesFrom z (rev l) p) = - sumCross (edgesFrom p l z).
Proof.
  revert p; induction l as [|a l IH]; intro p.
  - unfold edgesFrom; simpl; unfold cross; ring.
  - cbn [rev]; rewrite edgesFrom_snoc, sumCross_app, IH, edgesFrom_cons.
    simpl; unfold cross; ring.
Qed.

Definition translate (d p : Point R) : Point R :=
  mkPoint (x p + x d) (y p + y d).
Definition scaleBy (k : R) (p : Point R) : Point R :=
  mkPoint (x p * k) (y p * k).

Lemma sumCross_translate (d : Point R) (l : list (Point R)) (p z : Point R) :
  sumCross (edgesFrom (translate d p) (map (translate d) l) (translate d z))
  = sumCross (edgesFrom p l z)
    + x d * (y z - y p) - y d * (x z - x p).
Proof.
  revert p; induction l as [|a l IH]; intro p.
  - unfold edgesFrom; simpl; unfold cross, translate; simpl; ring.
  - cbn [map]; rewrite !edgesFrom_cons; cbn [sumCross fold_right].
    fold (sumCross (edgesFrom (translate d a) (map (translate d) l) (translate d z))).
    fold (sumCross (edgesFrom a l z)).
    rewrite IH; unfold cross, translate; simpl; ring.
Qed.

Lemma sumCross_scale (k : R) (l : list (Point R)) (p z : Point R) :
  sumCross (edgesFrom (scaleBy k p) (map (scaleBy k) l) (scaleBy k z))
  = k * k * sumCross (edgesFrom p l z).
Proof.
  revert p; induction l as [|a l IH]; intro p.
  - unfold edgesFrom; simpl; unfold cross, scaleBy; simpl; ring.
  - cbn [map]; rewrite !edgesFrom_cons; cbn [sumCross fold_right].
    fold (sumCross (edgesFrom (scaleBy k a) (map (scaleBy k) l) (scaleBy k z))).
    fold (sumCross (edgesFrom a l z)).
    rewrite IH; unfold cross, scaleBy; simpl; ring.
Qed.

(** X2.  [polygonArea] is an oriented area: the vertices taken in the
    reverse order give the opposite number, a translation of the polygon
    changes nothing, and a scaling by [k] multiplies the area by [k * k]. *)
Theorem polygonArea_is_oriented (poly : list (Point R)) (d : Point R) (k : R) :
  polygonArea (rev poly) = - polygonArea poly /\
  polygonArea (map (translate d) poly) = polygonArea poly /\
  polygonArea (map (scaleBy k) poly) = k * k * polygonArea poly.
Proof.
  rewrite !polygonArea_sumCross.
  destruct poly as [|p rest].
  - simpl; repeat split; lra.
  - repeat split.
    + cbn [rev]; rewrite closed_edges_turned, closed_edges, sumCross_rev; lra.
    + cbn [map]; rewrite !closed_edges, sumCross_translate; lra.
    + cbn [map]; rewrite !closed_edges, sumCross_scale; lra.
Qed.

(** *** [polygonCentroid] *)

(** X27.  For three vertices [polygonCentroid] returns their mean, on
    both of its branches: the triangle of area under [1e-10] in absolute
    value, where the source averages the vertices, and the other triangles,
    where the formula of the centroid gives the same point. *)
Theorem polygonCentroid_of_three_vertices_is_their_mean (p1 p2 p3 : Point R) :
  polygonCentroid [p1; p2; p3]
  = mkPoint ((x p1 + x p2 + x p3) / 3) ((y p1 + y p2 + y p3) / 3).
Proof.
  unfold polygonCentroid.
  assert (Ea : polygonArea [p1; p2; p3]
               = (x p1 * y p2 - x p2 * y p1 + (x p2 * y p3 - x p3 * y p2)
                  + (x p3 * y p1 - x p1 * y p3)) / 2).
  { unfold polygonArea, successors;
      cbn [app combine fold_left nadd nsub nmul ndiv of_Z R_Number]; lra. }
  rewrite Ea; set (a := (_ / 2)).
  cbn [nlt nabs R_Number].
  destruct (Real.ltb (Rabs a) epsilon) eqn:E.
  - cbn [length fold_left Z.of_nat Pos.of_succ_nat Pos.succ
         nadd ndiv of_Z R_Number].
    f_equal; lra.
  - apply ltb_false in E.
    assert (Ha : a <> 0).
    { intro Z; rewrite Z, Rabs_R0 in E.
      unfold epsilon in E; cbn [ndiv of_Z R_Number] in E; lra. }
    unfold successors;
      cbn [app combine fold_left nadd nsub nmul ndiv of_Z R_Number].
    unfold a in *; f_equal; field; lra.
Qed.

(** *** [polygonBounds] *)

Lemma extendBounds_spec (b : Bounds R) (p : Point R) :
  minX b <= maxX b -> minY b <= maxY b ->
  let b' := extendBounds b p in
  minX b' = Rmin (x p) (minX b) /\ minY b' = Rmin (y p) (minY b) /\
  maxX b' = Rmax (x p) (maxX b) /\ maxY b' = Rmax (y p) (maxY b).
Proof.
  intros Hx Hy; unfold extendBounds; cbn [nlt R_Number].
  destruct (Real.ltb (x p) (minX b)) eqn:E1; cbn [minX minY maxX maxY];
    destruct (Real.ltb (y p) (minY b)) eqn:E2; cbn [minX minY maxX maxY];
    destruct (Real.ltb (maxX b) (x p)) eqn:E3; cbn [minX minY maxX maxY];
    destruct (Real.ltb (maxY b) (y p)) eqn:E4; cbn [minX minY maxX maxY];
    repeat match goal with
           | H : Real.ltb _ _ = true |- _ => apply ltb_true in H
           | H : Real.ltb _ _ = false |- _ => apply ltb_false in H
           end;
    repeat split;
    unfold Rmin, Rmax;
    repeat match goal with
           | |- context [Rle_dec ?a ?b] => destruct (Rle_dec a b)
           end; lra.
Qed.

(** The box is in order, holds the vertices seen so far and touches one of
    them on each side. *)
Definition boxOf (seen : list (Point R)) (b : Bounds R) : Prop :=
  minX b <= maxX b /\ minY b <= maxY b /\
  (forall p, In p seen ->
     minX b <= x p <= maxX b /\ minY b <= y p <= maxY b) /\
  (exists p, In p seen /\ x p = minX b) /\
  (exists p, In p seen /\ y p = minY b) /\
  (exists p, In p seen /\ x p = maxX b) /\
  (exists p, In p seen /\ y p = maxY b).

Lemma boxOf_extend (seen : list (Point R)) (b : Bounds R) (q : Point R) :
  boxOf seen b -> boxOf (seen ++ [q]) (extendBounds b q).
Proof.
  intros (Hx & Hy & Hin & (p1 & I1 & E1) & (p2 & I2 & E2) & (p3 & I3 & E3)
          & (p4 & I4 & E4)).
  destruct (extendBounds_spec b q Hx Hy) as (M1 & M2 & M3 & M4).
  unfold boxOf; rewrite M1, M2, M3, M4.
  assert (Rm : forall a c, Rmin a c <= a /\ Rmin a c <= c)
    by (intros; split; [apply Rmin_l|apply Rmin_r]).
  assert (RM : forall a c, a <= Rmax a c /\ c <= Rmax a c)
    by (intros; split; [apply Rmax_l|apply Rmax_r]).
  pose proof (Rm (x q) (minX b)); pose proof (Rm (y q) (minY b)).
  pose proof (RM (x q) (maxX b)); pose proof (RM (y q) (maxY b)).
  split; [lra|]; split; [lra|]; split.
  - intros p Hp; apply in_app_or in Hp; destruct Hp as [Hp|[<-|[]]].
    + specialize (Hin p Hp); lra.
    + lra.
  - assert (pick : forall (g : Point R -> R) (m v : R) (p : Point R),
               In p seen -> g p = m -> (v = g q \/ v = m) ->
               exists p', In p' (seen ++ [q]) /\ g p' = v).
    { intros g m v p Hp Ep [->| ->].
      - exists q; split; [apply in_or_app; right; now left|reflexivity].
      - exists p; split; [apply in_or_app; now left|assumption]. }
    repeat split.
    + apply (pick (@x R) (minX b) _ p1 I1 E1).
      unfold Rmin; destruct (Rle_dec (x q) (minX b)); auto.
    + apply (pick (@y R) (minY b) _ p2 I2 E2).
      unfold Rmin; destruct (Rle_dec (y q) (minY b)); auto.
    + apply (pick (@x R) (maxX b) _ p3 I3 E3).
      unfold Rmax; destruct (Rle_dec (x q) (maxX b)); auto.
    + apply (pick (@y R) (maxY b) _ p4 I4 E4).
      unfold Rmax; destruct (Rle_dec (y q) (maxY b)); auto.
Qed.

Lemma boxOf_fold (rest seen : list (Point R)) (b : Bounds R) :
  boxOf seen b -> boxOf (seen ++ rest) (fold_left extendBounds rest b).
Proof.
  revert seen b; induction rest as [|q rest IH]; intros seen b H.
  - now rewrite app_nil_r.
  - cbn [fold_left].
    replace (seen ++ q :: rest) with ((seen ++ [q]) ++ rest)
      by (rewrite <- app_assoc; reflexivity).
    apply IH, boxOf_extend, H.
Qed.

Lemma boxOf_polygonBounds (p0 : Point R) (rest : list (Point R)) :
  boxOf (p0 :: rest) (polygonBounds (p0 :: rest)).
Proof.
  unfold polygonBounds.
  apply (boxOf_fold rest [p0]).
  unfold boxOf; cbn [minX minY maxX maxY].
  split; [lra|]; split; [lra|]; split.
  - intros p [<-|[]]; lra.
  - repeat split; exists p0; (split; [now left|reflexivity]).
Qed.

(** X3.  [polygonBounds] returns the tightest axis-aligned box around the
    vertices: every vertex is within the four bounds, and each bound is the
    coordinate of some vertex. *)
Theorem polygonBounds_is_the_tightest_box (poly : list (Point R)) (p : Point R) :
  In p poly ->
  let b := polygonBounds poly in
  (minX b <= x p <= maxX b /\ minY b <= y p <= maxY b) /\
  (exists q, In q poly /\ x q = minX b) /\
  (exists q, In q poly /\ y q = minY b) /\
  (exists q, In q poly /\ x q = maxX b) /\
  (exists q, In q poly /\ y q = maxY b).
Proof.
  destruct poly as [|p0 rest]; [intros []|]; intros Hp b.
  destruct (boxOf_polygonBounds p0 rest) as (_ & _ & Hin & H1 & H2 & H3 & H4).
  split; [exact (Hin p Hp)|]; repeat split; assumption.
Qed.

Lemma polygonBounds_is_the_tightest_box_witness :
  let poly := [mkPoint 0 0; mkPoint 4 1; mkPoint 2 3] in
  let b := polygonBounds poly in
  (minX b <= x (mkPoint 4 1) <= maxX b /\ minY b <= y (mkPoint 4 1) <= maxY b) /\
  (exists q, In q poly /\ x q = minX b) /\
  (exists q, In q poly /\ y q = minY b) /\
  (exists q, In q poly /\ x q = maxX b) /\
  (exists q, In q poly /\ y q = maxY b).
Proof.
  apply (polygonBounds_is_the_tightest_box
           [mkPoint 0 0; mkPoint 4 1; mkPoint 2 3] (mkPoint 4 1)).
  simpl; auto.
Defined.

(** *** [pointInPolygon] *)

(** X4.  On an axis-aligned rectangle given counter-clockwise from its
    corner [(a, b)], [pointInPolygon] holds exactly on the half-open box: the
    left and the lower edge are inside, the right and the upper edge are
    not. *)
Theorem pointInPolygon_rectangle_is_half_open (a b c d : R) (p : Point R) :
  a < c -> b < d ->
  pointInPolygon p [mkPoint a b; mkPoint c b; mkPoint c d; mkPoint a d] = true
  <-> (a <= x p < c /\ b <= y p < d).
Proof.
  intros Hac Hbd.
  unfold pointInPolygon, predecessors.
  cbn [length removelast last app combine fold_left x y].
  cbn [nlt nsub nadd nmul ndiv R_Number].
  replace ((a - a) * (y p - b) / (d - b) + a) with a by (field; lra).
  replace ((c - c) * (y p - d) / (b - d) + c) with c by (field; lra).
  rewrite !eqb_reflx; cbn [negb andb].
  destruct (Real.ltb (y p) b) eqn:E1, (Real.ltb (y p) d) eqn:E2,
           (Real.ltb (x p) a) eqn:E3, (Real.ltb (x p) c) eqn:E4;
    repeat match goal with
           | H : Real.ltb _ _ = true |- _ => apply ltb_true in H
           | H : Real.ltb _ _ = false |- _ => apply ltb_false in H
           end;
    cbn [Bool.eqb negb andb]; split;
    try (intro; discriminate); try reflexivity;
    try (intros; lra); try (intros; repeat split; lra).
Qed.

Lemma pointInPolygon_rectangle_is_half_open_witness :
  pointInPolygon (mkPoint 0 0) [mkPoint 0 0; mkPoint 2 0; mkPoint 2 1; mkPoint 0 1]
    = true <->
  (0 <= x (mkPoint 0 0) < 2 /\ 0 <= y (mkPoint 0 0) < 1).
Proof.
  apply (pointInPolygon_rectangle_is_half_open 0 0 2 1 (mkPoint 0 0)); lra.
Defined.

(** *** [lineIntersection] *)

(** X5.  [lineIntersection] answers [null] exactly when the two lines are
    parallel up to the threshold [1e-10]; the point it returns otherwise is
    on the line through [p1] and [p2] and on the line through [p3] and
    [p4]. *)
Theorem lineIntersection_meets_both_lines (p1 p2 p3 p4 : Point R) :
  let denom := (x p1 - x p2) * (y p3 - y p4) - (y p1 - y p2) * (x p3 - x p4) in
  (lineIntersection p1 p2 p3 p4 = None <-> Rabs denom < 1 / 10000000000) /\
  (forall q, lineIntersection p1 p2 p3 p4 = Some q ->
             side p1 p2 q = 0 /\ side p3 p4 q = 0).
Proof.
  intro denom; unfold lineIntersection.
  cbn [nlt nabs nsub nadd nmul ndiv of_Z R_Number epsilon]; fold denom.
  unfold epsilon; cbn [ndiv of_Z R_Number].
  destruct (Real.ltb (Rabs denom) (1 / 10000000000)) eqn:E.
  - apply ltb_true in E; split; [tauto|intros q H; discriminate].
  - apply ltb_false in E; split; [split; [intro; discriminate|intro; lra]|].
    intros q H; injection H as <-.
    assert (Hd : denom <> 0).
    { intro Z; rewrite Z, Rabs_R0 in E; lra. }
    unfold side; cbn [x y]; unfold denom in *; split; field; exact Hd.
Qed.

(** *** The two clippers *)

Lemma Hull_mono (poly poly' : list (Point R)) (p : Point R) :
  (forall v, In v poly' -> Hull poly v) -> Hull poly' p -> Hull poly p.
Proof.
  intros Hsub H; induction H as [v Hv|p q t _ IHp _ IHq Ht].
  - now apply Hsub.
  - now apply Hull_mix.
Qed.

Lemma clipAgainst_Hull (input : list (Point R)) (a b q : Point R) :
  In q (clipAgainst input a b) -> Hull input q.
Proof.
  unfold clipAgainst; intro H; apply in_flat_map in H.
  destruct H as ([current prev] & Hin & Hq).
  apply clipVertex_In in Hq; destruct Hq as (_ & t & Ht & ->).
  apply Hull_mix; [apply Hull_vertex|apply Hull_vertex|exact Ht].
  - apply in_combine_r in Hin; now apply predecessors_In.
  - now apply in_combine_l in Hin.
Qed.

Lemma clipLoop_Hull (edges : list (Point R * Point R)) (output : list (Point R))
    (q : Point R) :
  In q (clipLoop output edges) -> Hull output q.
Proof.
  revert output; induction edges as [|[a b] edges IH]; intros output H.
  - now apply Hull_vertex.
  - cbn [clipLoop] in H; destruct output as [|o output]; [contradiction|].
    apply IH in H; revert H; apply Hull_mono.
    intros v Hv; now apply clipAgainst_Hull in Hv.
Qed.

Lemma clipLoop_inside (edges : list (Point R * Point R)) (output : list (Point R))
    (a b : Point R) :
  In (a, b) edges -> holdsOn (side a b) (clipLoop output edges).
Proof.
  revert output; induction edges as [|[a' b'] edges IH]; intros output H.
  - contradiction.
  - cbn [clipLoop]; destruct output as [|o output]; [apply holdsOn_nil|].
    destruct H as [H|H].
    + injection H as -> ->.
      apply clipLoop_keeps; [apply side_Affine|apply clipAgainst_inside].
    + now apply IH.
Qed.

(** X6.  [clipPolygonByLine] keeps the left side: every vertex it returns
    passes [isInside] and lies within the vertices of the polygon it was
    given; a polygon of three vertices or more that is on the left
    altogether is returned as it is, and one that is strictly on the right
    altogether gives the empty polygon. *)
Theorem clipPolygonByLine_keeps_the_left_side
    (polygon : list (Point R)) (lineA lineB : Point R) :
  (forall q, In q (clipPolygonByLine polygon lineA lineB) ->
             isInside q lineA lineB = true /\ Hull polygon q) /\
  ((3 <= length polygon)%nat ->
   (forall v, In v polygon -> isInside v lineA lineB = true) ->
   clipPolygonByLine polygon lineA lineB = polygon) /\
  ((forall v, In v polygon -> isInside v lineA lineB = false) ->
   clipPolygonByLine polygon lineA lineB = []).
Proof.
  unfold clipPolygonByLine; repeat split.
  - apply isInside_side.
    destruct (length polygon <? 3)%nat; [contradiction|].
    now apply (clipAgainst_inside polygon lineA lineB).
  - destruct (length polygon <? 3)%nat; [contradiction|].
    now apply clipAgainst_Hull in H.
  - intros Hlen Hall.
    apply Nat.ltb_ge in Hlen; rewrite Hlen.
    apply clipAgainst_all_inside; intros v Hv; now apply isInside_side, Hall.
  - intros Hall; destruct (length polygon <? 3)%nat; [reflexivity|].
    apply clipAgainst_all_outside; intros v Hv; now apply isInside_side_false, Hall.
Qed.

(** X7.  Every vertex [clipPolygon] returns lies within the vertices of the
    subject and passes [isInside] for every edge of the clip polygon,
    whatever the shape of the clip polygon. *)
Theorem clipPolygon_result_is_inside_every_edge (subject clip : list (Point R)) :
  forall q, In q (clipPolygon subject clip) ->
    Hull subject q /\
    forall edgeStart edgeEnd,
      In (edgeStart, edgeEnd) (combine clip (successors clip)) ->
      isInside q edgeStart edgeEnd = true.
Proof.
  intros q H; unfold clipPolygon in H.
  destruct ((length subject <? 3)%nat || (length clip <? 3)%nat); [contradiction|].
  split; [now apply clipLoop_Hull in H|].
  intros a b Hab; apply isInside_side.
  now apply (clipLoop_inside _ subject a b Hab).
Qed.

Lemma clipPolygon_result_is_inside_every_edge_witness :
  Hull pointCell origin /\
  forall edgeStart edgeEnd,
    In (edgeStart, edgeEnd) (combine pointOutline (successors pointOutline)) ->
    isInside origin edgeStart edgeEnd = true.
Proof.
  apply (clipPolygon_result_is_inside_every_edge pointCell pointOutline origin).
  rewrite clipPolygon_pointCell; now left.
Defined.

(** *** [computeVoronoiCells] *)

Lemma clipPolygonByLine_Hull (poly : list (Point R)) (a b q : Point R) :
  In q (clipPolygonByLine poly a b) -> Hull poly q.
Proof.
  unfold clipPolygonByLine; destruct (length poly <? 3)%nat; [contradiction|].
  apply clipAgainst_Hull.
Qed.

Lemma bisectorLoop_Hull (i : nat) (si : Point R) (others : list (Point R))
    (j : nat) (cell : list (Point R)) (q : Point R) :
  In q (bisectorLoop i si j others cell) -> Hull cell q.
Proof.
  revert j cell; induction others as [|sj others IH]; intros j cell H.
  - now apply Hull_vertex.
  - cbn [bisectorLoop] in H.
    destruct (i =? j)%nat; [now apply IH in H|].
    destruct (length cell <? 3)%nat; [now apply Hull_vertex|].
    destruct (bisector si sj) as [lineA lineB].
    apply IH in H; revert H; apply Hull_mono.
    intros v Hv; now apply clipPolygonByLine_Hull in Hv.
Qed.

(** X8.  Every vertex of every cell of [computeVoronoiCells] lies within
    the padded bounding box of the polygon and passes [isInside] for every
    edge of the polygon. *)
Theorem cells_are_in_the_box_and_inside_every_edge
    (seeds polygon cell : list (Point R)) (q : Point R) :
  In cell (computeVoronoiCells seeds polygon) -> In q cell ->
  Hull (bigBox polygon) q /\
  forall a b, In (a, b) (combine polygon (successors polygon)) ->
              isInside q a b = true.
Proof.
  intros Hcell Hq; unfold computeVoronoiCells in Hcell.
  apply mapi_from_In in Hcell; destruct Hcell as (i & si & _ & ->).
  unfold voronoiCell in Hq; cbv zeta in Hq.
  remember (bisectorLoop i si 0 seeds (bigBox polygon)) as cut eqn:Ecut.
  assert (Hcut : forall v, In v cut -> Hull (bigBox polygon) v)
    by (intros v Hv; subst cut; now apply bisectorLoop_Hull in Hv).
  destruct (3 <=? length cut)%nat eqn:E; [|rewrite E in Hq; contradiction].
  destruct (3 <=? length (clipPolygon cut polygon))%nat; [|contradiction].
  unfold clipPolygon in Hq.
  destruct ((length cut <? 3)%nat || (length polygon <? 3)%nat); [contradiction|].
  split.
  - apply clipLoop_Hull in Hq; revert Hq; now apply Hull_mono.
  - intros a b Hab; apply isInside_side.
    now apply (clipLoop_inside _ cut a b Hab).
Qed.

Lemma cells_are_in_the_box_and_inside_every_edge_witness :
  Hull (bigBox pointOutline) origin /\
  forall a b, In (a, b) (combine pointOutline (successors pointOutline)) ->
              isInside origin a b = true.
Proof.
  apply (cells_are_in_the_box_and_inside_every_edge
           threeSeeds pointOutline pointCell origin).
  - rewrite computeVoronoiCells_threeSeeds; right; now left.
  - now left.
Defined.

End Plane.

(** ** The random sources, the seeding and the relaxation *)

Section Sources.

Context {num : Type} {N : Number num}.
Variable mathRandom : nat -> num.

Lemma toInt32_wraps (z k : Z) : toInt32 (z + k * 4294967296) = toInt32 z.
Proof.
  unfold toInt32.
  replace (z + k * 4294967296 + 2147483648)%Z
    with (z + 2147483648 + k * 4294967296)%Z by ring.
  now rewrite Z.mod_add.
Qed.

(** X9.  The seed is read modulo [2^32]: two integer seeds that differ by
    a multiple of [2^32] start the same generator, and [generateFragments]
    returns the same fragments for both, under the same numbers of
    [Math.random]. *)
Theorem seeds_are_read_modulo_two_to_the_32
    (outline : list (Point num)) (difficulty : JSValue) (seed k : Z) :
  mulberry32 (seed + k * 4294967296) = mulberry32 seed /\
  generateFragments mathRandom outline difficulty (Some (seed + k * 4294967296)%Z)
  = generateFragments mathRandom outline difficulty (Some seed).
Proof.
  assert (E : mulberry32 (seed + k * 4294967296) = mulberry32 seed)
    by (unfold mulberry32; now rewrite toInt32_wraps).
  split; [exact E|].
  unfold generateFragments, generateFragmentsFrom; now rewrite E.
Qed.

Lemma callRng_ambient (r : Random) :
  match rng r with
  | MathRandom =>
      rng (snd (callRng mathRandom r)) = MathRandom /\
      ambient (snd (callRng mathRandom r)) = S (ambient r)
  | Mulberry32 _ =>
      (exists s', rng (snd (callRng mathRandom r)) = Mulberry32 s') /\
      ambient (snd (callRng mathRandom r)) = ambient r
  end.
Proof.
  unfold callRng; destruct (rng r) as [s|].
  - destruct (mulberry32_next s) as [v s']; cbn [snd rng ambient].
    split; [now exists s'|reflexivity].
  - now split.
Qed.

Lemma samplingLoop_inside (polygon : list (Point num)) (bounds : Bounds num)
    (n fuel : nat) (st : Sampling num) :
  (forall p, In p (points st) -> pointInPolygon p polygon = true) ->
  forall p, In p (points (samplingLoop mathRandom fuel polygon bounds n st)) ->
            pointInPolygon p polygon = true.
Proof.
  revert st; induction fuel as [|fuel IH]; intros st Hst; [exact Hst|].
  cbn [samplingLoop].
  destruct ((length (points st) <? n)%nat && (attempts st <? n * 200)%nat);
    [|exact Hst].
  destruct (callRng mathRandom (source st)) as [r1 src].
  destruct (callRng mathRandom src) as [r2 src'].
  apply IH; cbn [points].
  match goal with
  | |- context [pointInPolygon ?pt polygon] =>
      destruct (pointInPolygon pt polygon) eqn:E
  end; [|exact Hst].
  intros p Hp; apply in_app_or in Hp; destruct Hp as [Hp|[<-|[]]];
    [now apply Hst|exact E].
Qed.

Lemma samplingLoop_draws (polygon : list (Point num)) (bounds : Bounds num)
    (n fuel : nat) (st : Sampling num) :
  let st' := samplingLoop mathRandom fuel polygon bounds n st in
  match rng (source st) with
  | MathRandom =>
      rng (source st') = MathRandom /\
      (ambient (source st') + 2 * attempts st
       = ambient (source st) + 2 * attempts st')%nat
  | Mulberry32 _ =>
      (exists s', rng (source st') = Mulberry32 s') /\
      ambient (source st') = ambient (source st)
  end.
Proof.
  revert st; induction fuel as [|fuel IH]; intro st; cbn [samplingLoop].
  - destruct (rng (source st)) as [s|]; [split; [now exists s|]|]; auto.
  - destruct ((length (points st) <? n)%nat && (attempts st <? n * 200)%nat).
    2:{ destruct (rng (source st)) as [s|]; [split; [now exists s|]|]; auto. }
    pose proof (callRng_ambient (source st)) as H1.
    destruct (callRng mathRandom (source st)) as [r1 src]; cbn [snd] in H1.
    pose proof (callRng_ambient src) as H2.
    destruct (callRng mathRandom src) as [r2 src']; cbn [snd] in H2.
    match goal with
    | |- context [samplingLoop mathRandom fuel polygon bounds n ?st1] =>
        specialize (IH st1); cbn [source attempts] in IH;
        set (st' := samplingLoop mathRandom fuel polygon bounds n st1) in *
    end.
    destruct (rng (source st)) as [s|].
    + destruct H1 as [[s1 E1] A1]; rewrite E1 in H2.
      destruct H2 as [[s2 E2] A2]; rewrite E2 in IH.
      destruct IH as [Hs Ha]; split; [exact Hs|congruence].
    + destruct H1 as [E1 A1]; rewrite E1 in H2.
      destruct H2 as [E2 A2]; rewrite E2 in IH.
      destruct IH as [Hs Ha]; split; [exact Hs|lia].
Qed.

(** X10.  [randomPointsInPolygon] returns only points that pass
    [pointInPolygon]; each attempt draws two numbers from [rng], so that
    with [Math.random] as the generator the ambient source answers twice
    per attempt, and with a seeded generator it is not called at all. *)
Theorem randomPointsInPolygon_returns_inside_points
    (polygon : list (Point num)) (n : Count) (r : Random) :
  let st := sampling mathRandom polygon n r in
  let pts := fst (randomPointsInPolygon mathRandom polygon n r) in
  let r' := snd (randomPointsInPolygon mathRandom polygon n r) in
  (forall p, In p pts -> pointInPolygon p polygon = true) /\
  match rng r with
  | MathRandom =>
      rng r' = MathRandom /\ ambient r' = (ambient r + 2 * attempts st)%nat
  | Mulberry32 _ => ambient r' = ambient r
  end.
Proof.
  unfold randomPointsInPolygon; cbn [fst snd]; unfold sampling.
  destruct n as [n|].
  - split.
    + apply samplingLoop_inside; intros p [].
    + pose proof (samplingLoop_draws polygon (polygonBounds polygon) n (n * 200)
                    (mkSampling [] 0 r)) as H.
      cbn [source attempts] in H.
      destruct (rng r) as [s|]; [tauto|].
      destruct H as [Hs Ha]; split; [exact Hs|lia].
  - cbn [points source attempts]; split; [intros p []|].
    destruct (rng r); [reflexivity|split; [reflexivity|lia]].
Qed.

Lemma lloydStep_nth (seeds polygon : list (Point num)) (i : nat) (s' : Point num) :
  nth_error (lloydStep seeds polygon) i = Some s' ->
  nth_error seeds i = Some s' \/ pointInPolygon s' polygon = true.
Proof.
  unfold lloydStep.
  generalize (computeVoronoiCells seeds polygon) as cells.
  revert i; induction seeds as [|s seeds IH]; intros i cells H.
  - destruct i; discriminate.
  - destruct cells as [|cell cells]; [destruct i; discriminate|].
    cbn [combine map] in H; destruct i as [|i]; cbn [nth_error] in *.
    + destruct (3 <=? length cell)%nat; [|left; exact H].
      destruct (pointInPolygon (polygonCentroid cell) polygon) eqn:E;
        [|left; exact H].
      injection H as <-; now right.
    + exact (IH i cells H).
Qed.

Lemma lloydRelax_nth (iterations : nat) (seeds polygon : list (Point num))
    (i : nat) (s' : Point num) :
  nth_error (lloydRelax seeds polygon iterations) i = Some s' ->
  nth_error seeds i = Some s' \/ pointInPolygon s' polygon = true.
Proof.
  revert seeds; induction iterations as [|k IH]; intros seeds H; [now left|].
  cbn [lloydRelax] in H; apply IH in H; destruct H as [H|H]; [|now right].
  now apply lloydStep_nth in H.
Qed.

(** X11.  [lloydRelax] returns as many seeds as it was given, each one
    either where it was or at a point that passes [pointInPolygon]: seeds
    that are inside the polygon stay inside, whatever the number of
    iterations. *)
Theorem lloydRelax_keeps_seeds_inside
    (seeds polygon : list (Point num)) (iterations : nat) :
  length (lloydRelax seeds polygon iterations) = length seeds /\
  (forall i s', nth_error (lloydRelax seeds polygon iterations) i = Some s' ->
      nth_error seeds i = Some s' \/ pointInPolygon s' polygon = true) /\
  ((forall s, In s seeds -> pointInPolygon s polygon = true) ->
   forall s', In s' (lloydRelax seeds polygon iterations) ->
              pointInPolygon s' polygon = true).
Proof.
  split; [apply lloydRelax_length|]; split; [apply lloydRelax_nth|].
  intros Hin s' Hs'; apply In_nth_error in Hs'; destruct Hs' as [i Hi].
  apply lloydRelax_nth in Hi; destruct Hi as [Hi|Hi]; [|exact Hi].
  apply Hin; now apply nth_error_In in Hi.
Qed.

End Sources.

Module Draws.

Import OnReals.
Local Open Scope R_scope.

(** X12.  A draw of the seeded generator is a multiple of [2^-32] in
    [0, 1), and the state it leaves is a 32-bit signed integer. *)
Theorem mulberry32_draws_in_the_unit_interval (s : Z) :
  let v := fst (mulberry32_next (num := R) s) in
  let s' := snd (mulberry32_next (num := R) s) in
  (exists u : Z, (0 <= u < 4294967296)%Z /\ v = IZR u / 4294967296) /\
  0 <= v < 1 /\
  (-2147483648 <= s' < 2147483648)%Z.
Proof.
  unfold mulberry32_next; cbn [fst snd].
  set (t := xor32 _ _); clearbody t.
  assert (Hu : (0 <= ushr32 t 0 < 4294967296)%Z).
  { unfold ushr32, toUint32; rewrite Z.shiftr_0_r.
    apply Z.mod_pos_bound; lia. }
  cbn [of_Z ndiv R_Number]; repeat split.
  - now exists (ushr32 t 0).
  - apply Rmult_le_pos; [apply IZR_le; lia|].
    apply Rlt_le, Rinv_0_lt_compat; lra.
  - apply Rmult_lt_reg_r with 4294967296; [lra|].
    unfold Rdiv; rewrite Rmult_assoc, Rinv_l, Rmult_1_r, Rmult_1_l by lra.
    apply IZR_lt; lia.
  - unfold toInt32.
    pose proof (Z.mod_pos_bound (s + 1831565813 + 2147483648) 4294967296); lia.
  - unfold toInt32.
    pose proof (Z.mod_pos_bound (s + 1831565813 + 2147483648) 4294967296); lia.
Qed.

End Draws.
(** ** The noise on the edges *)

Section Noise.

Context {num : Type} {N : Number num}.
Variable mathRandom : nat -> num.

Lemma successors_length (poly : list (Point num)) :
  length (successors poly) = length poly.
Proof.
  destruct poly as [|p rest]; [reflexivity|].
  cbn [successors length]; rewrite length_app; cbn [length]; lia.
Qed.

Lemma subdivide_shape (todo s subdivisions : nat) (amount : num)
    (a b : Point num) (r : Random) :
  let out := subdivide mathRandom todo s subdivisions amount a b r in
  length (fst out) = todo /\
  rng (snd out) = rng r /\
  (ambient r <= ambient (snd out) <= ambient r + todo)%nat.
Proof.
  revert s r; induction todo as [|todo IH]; intros s r; cbn [subdivide].
  - cbn [fst snd length]; repeat split; lia.
  - match goal with
    | |- context [if ?c then _ else _] => destruct c
    end.
    + unfold callMathRandom.
      match goal with
      | |- context [subdivide mathRandom todo (S s) subdivisions amount a b ?r1] =>
          specialize (IH (S s) r1);
          destruct (subdivide mathRandom todo (S s) subdivisions amount a b r1)
            as [rest r2]
      end.
      cbn [fst snd length rng ambient] in *.
      destruct IH as (Hl & Hr & Ha); repeat split; [lia|assumption|lia|lia].
    + specialize (IH (S s) r).
      destruct (subdivide mathRandom todo (S s) subdivisions amount a b r)
        as [rest r2].
      cbn [fst snd length] in *.
      destruct IH as (Hl & Hr & Ha); repeat split; [lia|assumption|lia|lia].
Qed.

Lemma noiseEdges_shape (edges : list (Point num * Point num)) (amount : num)
    (subdivisions : nat) (r : Random) :
  let out := noiseEdges mathRandom edges amount subdivisions r in
  length (fst out) = (length edges * (1 + subdivisions))%nat /\
  rng (snd out) = rng r /\
  (ambient r <= ambient (snd out) <= ambient r + length edges * subdivisions)%nat /\
  forall i e, nth_error edges i = Some e ->
              nth_error (fst out) (i * (1 + subdivisions)) = Some (fst e).
Proof.
  revert r; induction edges as [|[a b] edges IH]; intro r; cbn [noiseEdges].
  - cbn [fst snd length]; repeat split; try lia.
    intros [|i] e H; discriminate.
  - pose proof (subdivide_shape subdivisions 1 subdivisions amount a b r) as Hs.
    destruct (subdivide mathRandom subdivisions 1 subdivisions amount a b r)
      as [mids r1].
    specialize (IH r1).
    destruct (noiseEdges mathRandom edges amount subdivisions r1) as [more r2].
    cbn [fst snd length] in *.
    destruct Hs as (Hl & Hr & Ha); destruct IH as (Il & Ir & Ia & In).
    repeat split.
    + rewrite length_app; lia.
    + congruence.
    + lia.
    + lia.
    + intros [|i] e He; cbn [nth_error] in He.
      * injection He as <-; reflexivity.
      * replace (S i * (1 + subdivisions))%nat
          with (S (subdivisions + i * (1 + subdivisions))) by lia.
        cbn [nth_error].
        rewrite nth_error_app2 by lia.
        replace (subdivisions + i * (1 + subdivisions) - length mids)%nat
          with (i * (1 + subdivisions))%nat by lia.
        now apply In.
Qed.

Lemma closed_edges_nth (poly : list (Point num)) (i : nat) (v : Point num) :
  nth_error poly i = Some v ->
  exists w, nth_error (combine poly (successors poly)) i = Some (v, w).
Proof.
  intro H.
  assert (Hi : (i < length (successors poly))%nat).
  { rewrite successors_length; apply nth_error_Some; congruence. }
  apply nth_error_Some in Hi.
  destruct (nth_error (successors poly) i) as [w|] eqn:E; [|congruence].
  exists w; revert H E; generalize (successors poly) as succ.
  revert i; induction poly as [|p poly IH]; intros [|i] succ H E;
    try discriminate; destruct succ as [|q succ]; try discriminate;
    cbn [combine nth_error] in *.
  - congruence.
  - now apply IH.
Qed.

(** On three vertices or more the noise runs over the closed list of
    edges. *)
Lemma addTornEdgeNoise_edges
    (polygon : list (Point num)) (amount : num) (subdivisions : nat) (r : Random) :
  (3 <= length polygon)%nat ->
  addTornEdgeNoise mathRandom polygon amount subdivisions r
  = noiseEdges mathRandom (combine polygon (successors polygon)) amount
      subdivisions r /\
  length (combine polygon (successors polygon)) = length polygon.
Proof.
  intro H; unfold addTornEdgeNoise.
  apply Nat.ltb_ge in H; rewrite H; split; [reflexivity|].
  now rewrite length_combine, successors_length, Nat.min_id.
Qed.

(** X13.  [addTornEdgeNoise] returns a polygon of fewer than three
    vertices as it is, without a draw.  Otherwise it inserts [subdivisions]
    points after each vertex: the result has [(1 + subdivisions)] times as
    many vertices, the vertices of the polygon are kept, in order, at the
    multiples of [1 + subdivisions], [Math.random] answers once per
    inserted point at most, and the seeded generator is not touched. *)
Theorem addTornEdgeNoise_keeps_the_vertices
    (polygon : list (Point num)) (amount : num) (subdivisions : nat) (r : Random) :
  let out := addTornEdgeNoise mathRandom polygon amount subdivisions r in
  ((length polygon < 3)%nat -> out = (polygon, r)) /\
  ((3 <= length polygon)%nat ->
   length (fst out) = (length polygon * (1 + subdivisions))%nat /\
   forall i v, nth_error polygon i = Some v ->
               nth_error (fst out) (i * (1 + subdivisions)) = Some v) /\
  rng (snd out) = rng r /\
  (ambient r <= ambient (snd out) <= ambient r + length polygon * subdivisions)%nat.
Proof.
  unfold addTornEdgeNoise.
  pose proof (noiseEdges_shape (combine polygon (successors polygon)) amount
                subdivisions r) as H.
  rewrite length_combine, successors_length, Nat.min_id in H.
  destruct (length polygon <? 3)%nat eqn:E.
  - apply Nat.ltb_lt in E; cbn [fst snd]; repeat split; try lia.
  - apply Nat.ltb_ge in E; destruct H as (Hl & Hr & Ha & Hn).
    repeat split; try assumption; try lia.
    intros i v Hv; destruct (closed_edges_nth polygon i v Hv) as [w Hw].
    exact (Hn i (v, w) Hw).
Qed.

Lemma buildFragments_fields (totalArea : num) (cells : list (list (Point num)))
    (i : nat) (r : Random) (f : Fragment num) :
  In f (fst (buildFragments mathRandom totalArea i cells r)) ->
  zIndex f = id f /\ isPlaced f = false /\ rotation f = of_Z 0 /\
  currentPosition f = mkPoint (of_Z 0) (of_Z 0) /\
  correctPosition f = centroid f.
Proof.
  revert i r; induction cells as [|cell cells IH]; intros i r H;
    cbn [buildFragments] in H.
  - contradiction.
  - destruct (keepsCell totalArea cell).
    + destruct (addTornEdgeNoise mathRandom cell (of_Z 2) 1 r) as [cell' r'].
      specialize (IH (S i) r').
      destruct (buildFragments mathRandom totalArea (S i) cells r') as [frags r''].
      cbn [fst] in *; destruct H as [<-|H]; [|exact (IH H)].
      cbn; repeat split.
    + exact (IH (S i) r H).
Qed.

Lemma buildFragments_sorted (totalArea : num) (cells : list (list (Point num)))
    (i : nat) (r : Random) :
  let ids := map (@id num) (fst (buildFragments mathRandom totalArea i cells r)) in
  StronglySorted Z.lt ids /\ Forall (fun z => (Z.of_nat i <= z)%Z) ids.
Proof.
  revert i r; induction cells as [|cell cells IH]; intros i r;
    cbn [buildFragments].
  - cbn; split; constructor.
  - destruct (keepsCell totalArea cell).
    + destruct (addTornEdgeNoise mathRandom cell (of_Z 2) 1 r) as [cell' r'].
      specialize (IH (S i) r').
      destruct (buildFragments mathRandom totalArea (S i) cells r') as [frags r''].
      cbn [fst map id] in *; destruct IH as [Hs Hge]; split.
      * constructor; [exact Hs|].
        eapply Forall_impl; [|exact Hge]; cbn; intros; lia.
      * constructor; [lia|].
        eapply Forall_impl; [|exact Hge]; cbn; intros; lia.
    + destruct (IH (S i) r) as [Hs Hge]; split; [exact Hs|].
      eapply Forall_impl; [|exact Hge]; cbn; intros; lia.
Qed.

(** X14.  The fragments [generateFragments] returns come with ids that
    grow strictly along the list, and each one is loose: not placed, not
    rotated, at the origin, with its [zIndex] equal to its id and its
    [correctPosition] equal to its centroid, which is the centroid of its
    polygon; the polygon has twice as many vertices as its cell, six at
    least. *)
Theorem generated_fragments_start_loose
    (outline : list (Point num)) (difficulty : JSValue) (seed : option Z) :
  let frags := generateFragments mathRandom outline difficulty seed in
  StronglySorted Z.lt (map (@id num) frags) /\
  forall f, In f frags ->
    (0 <= id f)%Z /\ zIndex f = id f /\ isPlaced f = false /\
    rotation f = of_Z 0 /\
    currentPosition f = mkPoint (of_Z 0) (of_Z 0) /\
    correctPosition f = centroid f /\
    centroid f = polygonCentroid (polygon f) /\
    (6 <= length (polygon f))%nat /\ Nat.Even (length (polygon f)).
Proof.
  unfold generateFragments, generateFragmentsFrom.
  destruct (fragmentCells _ _ _ _) as [cells r]; split.
  - apply buildFragments_sorted.
  - intros f Hf.
    pose proof (buildFragments_fields _ _ _ _ _ Hf) as (Hz & Hp & Hr & Hc & Hk).
    apply buildFragments_In in Hf.
    destruct Hf as (k & cell & r' & _ & Hi & Hkeep & Hpoly & Hcen).
    unfold keepsCell in Hkeep; apply andb_true_iff in Hkeep.
    destruct Hkeep as [Hlen _]; apply Nat.leb_le in Hlen.
    destruct (addTornEdgeNoise_edges cell (of_Z 2) 1 r' Hlen) as [Ee El].
    destruct (noiseEdges_shape (combine cell (successors cell)) (of_Z 2) 1 r')
      as (Hl & _).
    rewrite <- Ee, <- Hpoly, El in Hl.
    repeat split; try assumption; try lia.
    exists (length cell); lia.
Qed.

End Noise.
Module NoiseOnReals.

Import OnReals Cells Plane.
Local Open Scope R_scope.

Section Bound.

Variable mathRandom : nat -> R.
Hypothesis unit_interval : forall call, 0 <= mathRandom call < 1.

(** A point displaced by [d] along the unit normal of the edge is at
    distance [|d|] from where it was. *)
Lemma displaced_along_the_normal (mx my dx dy d amount : R) :
  0 < sqrt (dx * dx + dy * dy) ->
  - amount <= d <= amount ->
  dist (mkPoint (mx + - dy / sqrt (dx * dx + dy * dy) * d)
                (my + dx / sqrt (dx * dx + dy * dy) * d))
       (mkPoint mx my) <= amount.
Proof.
  intros Hlen Hd; set (len := sqrt (dx * dx + dy * dy)) in *.
  assert (Hsq : len * len = dx * dx + dy * dy).
  { apply sqrt_sqrt.
    pose proof (Rle_0_sqr dx); pose proof (Rle_0_sqr dy); unfold Rsqr in *; lra. }
  rewrite dist_sqDist; unfold sqDist; cbn [x y].
  replace ((mx + - dy / len * d - mx) * (mx + - dy / len * d - mx)
           + (my + dx / len * d - my) * (my + dx / len * d - my))
    with (d * d * ((dx * dx + dy * dy) / (len * len))) by (field; lra).
  rewrite <- Hsq.
  replace (len * len / (len * len)) with 1 by (field; lra).
  rewrite Rmult_1_r.
  replace (d * d) with (Rsqr d) by reflexivity.
  rewrite sqrt_Rsqr_abs; apply Rabs_le; lra.
Qed.

Lemma subdivide_near (todo s subdivisions : nat) (amount : R) (a b : Point R)
    (r : Random) (q : Point R) :
  0 <= amount ->
  In q (fst (subdivide mathRandom todo s subdivisions amount a b r)) ->
  exists k : nat,
    (s <= k < s + todo)%nat /\
    dist q (mix a b (INR k / INR (subdivisions + 1))) <= amount.
Proof.
  intro Hamount; revert s r; induction todo as [|todo IH]; intros s r H.
  - cbn [subdivide fst] in H; contradiction.
  - cbn [subdivide] in H.
    set (t := INR s / INR (subdivisions + 1)).
    assert (Et : (of_Z (Z.of_nat s) / of_Z (Z.of_nat (subdivisions + 1)))%num = t)
      by (cbn [of_Z ndiv R_Number]; now rewrite <- !INR_IZR_INZ).
    rewrite Et in H.
    cbn [nlt nsqrt nadd nsub nmul ndiv nopp of_Z R_Number] in H.
    set (dx := x b - x a) in *; set (dy := y b - y a) in *.
    set (len := sqrt (dx * dx + dy * dy)) in *.
    assert (Hhead : forall p r1,
               (if Real.ltb 0 len
                then
                  let '(u, r0) := callMathRandom mathRandom r in
                  (mkPoint (x a + dx * t + - dy / len * ((u - 1 / 2) * 2 * amount))
                           (y a + dy * t + dx / len * ((u - 1 / 2) * 2 * amount)), r0)
                else (mkPoint (x a + dx * t) (y a + dy * t), r)) = (p, r1) ->
               dist p (mix a b t) <= amount).
    { intros p r1 E.
      assert (Em : mix a b t = mkPoint (x a + dx * t) (y a + dy * t))
        by (unfold mix, dx, dy; f_equal; ring).
      rewrite Em; destruct (Real.ltb 0 len) eqn:L.
      - apply ltb_true in L; unfold callMathRandom in E; injection E as <- _.
        apply displaced_along_the_normal; [exact L|].
        pose proof (unit_interval (ambient r)); nra.
      - injection E as <- _.
        rewrite dist_sqDist; unfold sqDist; cbn [x y].
        replace ((x a + dx * t - (x a + dx * t)) * (x a + dx * t - (x a + dx * t))
                 + (y a + dy * t - (y a + dy * t)) * (y a + dy * t - (y a + dy * t)))
          with 0 by ring.
        now rewrite sqrt_0. }
    match type of H with
    | context [let '(p, r0) := ?e in _] => destruct e as [p r1] eqn:E
    end.
    specialize (Hhead p r1 eq_refl).
    specialize (IH (S s) r1).
    destruct (subdivide mathRandom todo (S s) subdivisions amount a b r1)
      as [rest r2].
    cbn [fst] in *; destruct H as [<-|H].
    + exists s; split; [lia|exact Hhead].
    + destruct (IH H) as (k & Hk & Hd); exists k; split; [lia|exact Hd].
Qed.

Lemma noiseEdges_near (edges : list (Point R * Point R)) (amount : R)
    (subdivisions : nat) (r : Random) (q : Point R) :
  0 <= amount ->
  In q (fst (noiseEdges mathRandom edges amount subdivisions r)) ->
  (exists e, In e edges /\ q = fst e) \/
  exists a b (k : nat),
    In (a, b) edges /\ (1 <= k <= subdivisions)%nat /\
    dist q (mix a b (INR k / INR (subdivisions + 1))) <= amount.
Proof.
  intro Hamount; revert r; induction edges as [|[a b] edges IH]; intros r H.
  - cbn [noiseEdges fst] in H; contradiction.
  - cbn [noiseEdges] in H.
    pose proof (subdivide_near subdivisions 1 subdivisions amount a b r) as Hs.
    destruct (subdivide mathRandom subdivisions 1 subdivisions amount a b r)
      as [mids r1].
    specialize (IH r1).
    destruct (noiseEdges mathRandom edges amount subdivisions r1) as [more r2].
    cbn [fst] in *; destruct H as [<-|H].
    + left; exists (a, b); split; [now left|reflexivity].
    + apply in_app_or in H; destruct H as [H|H].
      * right; destruct (Hs q Hamount H) as (k & Hk & Hd).
        exists a, b, k; repeat split; [now left|lia|lia|exact Hd].
      * destruct (IH H) as [(e & He & Eq)|(a' & b' & k & He & Hk & Hd)].
        -- left; exists e; split; [now right|exact Eq].
        -- right; exists a', b', k; repeat split; [now right|lia|lia|exact Hd].
Qed.

(** X15.  With the numbers of [Math.random] in [0, 1) and an amount that
    is not negative, every vertex [addTornEdgeNoise] returns is a vertex of
    the polygon or within [amount] of the point that divides one of its
    edges at [k / (subdivisions + 1)], for some [k] from 1 to
    [subdivisions]. *)
Theorem addTornEdgeNoise_stays_near_the_edges
    (polygon : list (Point R)) (amount : R) (subdivisions : nat) (r : Random)
    (q : Point R) :
  0 <= amount ->
  In q (fst (addTornEdgeNoise mathRandom polygon amount subdivisions r)) ->
  In q polygon \/
  exists a b (k : nat),
    In (a, b) (combine polygon (successors polygon)) /\
    (1 <= k <= subdivisions)%nat /\
    dist q (mix a b (INR k / INR (subdivisions + 1))) <= amount.
Proof.
  intros Hamount H; unfold addTornEdgeNoise in H.
  destruct (length polygon <? 3)%nat; [now left|].
  apply noiseEdges_near in H; [|exact Hamount].
  destruct H as [(e & He & ->)|H]; [left|now right].
  destruct e as [a b]; now apply in_combine_l in He.
Qed.

End Bound.

Lemma addTornEdgeNoise_stays_near_the_edges_witness :
  let polygon := [mkPoint 0 0; mkPoint 4 0; mkPoint 0 3] in
  In (mkPoint 0 0) polygon \/
  exists a b (k : nat),
    In (a, b) (combine polygon (successors polygon)) /\
    (1 <= k <= 1)%nat /\
    dist (mkPoint 0 0) (mix a b (INR k / INR (1 + 1))) <= 2.
Proof.
  intro polygon.
  assert (U : forall call : nat, 0 <= (fun _ : nat => 0) call < 1)
    by (intros; lra).
  apply (addTornEdgeNoise_stays_near_the_edges (fun _ => 0) U polygon 2 1
           (mkRandom MathRandom 0) (mkPoint 0 0)); [lra|].
  assert (L : (3 <= length polygon)%nat) by (cbn; lia).
  destruct (addTornEdgeNoise_edges (fun _ => 0) polygon 2 1
              (mkRandom MathRandom 0) L) as [Ee _].
  destruct (noiseEdges_shape (fun _ => 0) (combine polygon (successors polygon))
              2 1 (mkRandom MathRandom 0)) as (_ & _ & _ & Hn).
  rewrite Ee.
  apply (nth_error_In _ (0 * (1 + 1))), (Hn 0%nat (mkPoint 0 0, mkPoint 4 0)).
  reflexivity.
Defined.

End NoiseOnReals.

(** ** [scatterFragments]

    The rest of [./engine/fracture]: the function that places the fragments
    around the play area before the first frame. *)

(** [Math.floor], as an array index reads it: the integer, or [None] where
    the number is NaN or infinite and no element is found. *)
Class Floor (num : Type) := {
  nfloor : num -> option Z
}.

Module Floors.

Definition ofFloat (f : float) : option Z :=
  match Prim2SF f with
  | S754_zero _ => Some 0%Z
  | S754_finite s m e =>
      let n := if s then Zneg m else Zpos m in
      Some (if (0 <=? e)%Z then n * 2 ^ e else n / 2 ^ (- e))%Z
  | _ => None
  end.

Definition ofReal (a : R) : option Z := Some (Int_part a).

End Floors.

#[export] Instance float_Floor : Floor float := { nfloor := Floors.ofFloat }.
#[export] Instance R_Floor : Floor R := { nfloor := Floors.ofReal }.

Example floor_of_floats :
  nfloor 3.75%float = Some 3%Z /\ nfloor (-0.5)%float = Some (-1)%Z /\
  nfloor (-0)%float = Some 0%Z /\ nfloor 4503599627370497%float = Some 4503599627370497%Z /\
  nfloor (1 / 0)%float = None /\ nfloor (0 / 0)%float = None.
Proof. vm_compute; repeat split. Qed.

Section Scatter.

Context {num : Type} {N : Number num} {T : Trig num} {F : Floor num}.
Local Open Scope num_scope.

Local Notation "'Pt'" := (Point num).
Local Notation "'Frag'" := (Fragment num).

Variable mathRandom : nat -> num.

Definition margin : num := of_Z 40.
(** Keep fragments away from leaf center initially. *)
Definition avoidRadius : num := of_Z 120.

(** The condition of the [do ... while] loop, after [tries] iterations. *)
Definition tooClose (tries : nat) (p leafCenter : Pt) : bool :=
  (tries <? 50)%nat
  && (nabs (x p - x leafCenter) <? avoidRadius)
  && (nabs (y p - y leafCenter) <? avoidRadius).

(** The [do ... while] loop that finds a position: one iteration, and one
    more as long as the condition holds; [tries] is [attempts] before the
    iteration, and [fuel] the number of further iterations allowed, of
    which 49 are enough. *)
Fixpoint scatterLoop (fuel : nat) (tries : nat) (canvasWidth canvasHeight : num)
    (leafCenter : Pt) (r : Random) : Pt * nat * Random :=
  let '(u, r) := callMathRandom mathRandom r in
  let px := margin + u * (canvasWidth - margin * of_Z 2) in
  let '(v, r) := callMathRandom mathRandom r in
  let py := margin + v * (canvasHeight - margin * of_Z 2) in
  let tries := S tries in
  match fuel with
  | O => (mkPoint px py, tries, r)
  | S fuel =>
      if tooClose tries (mkPoint px py) leafCenter
      then scatterLoop fuel tries canvasWidth canvasHeight leafCenter r
      else (mkPoint px py, tries, r)
  end.

(** Random rotation in 90° increments. *)
Definition rotations : list num :=
  [of_Z 0; npi / of_Z 2; npi; of_Z 3 * npi / of_Z 2].

(** [rotations[Math.floor(u * rotations.length)]]; [None] stands for
    [undefined], what an index outside the array gives. *)
Definition pickRotation (u : num) : option num :=
  match nfloor (u * of_Z (Z.of_nat (length rotations))) with
  | Some k => if (k <? 0)%Z then None else nth_error rotations (Z.to_nat k)
  | None => None
  end.

(** The body of the loop over the fragments, for the fragment at place
    [i].  The record [Fragment] has no place for a rotation that is
    [undefined]: the result is [None] then. *)
Definition scatterOne (canvasWidth canvasHeight : num) (leafCenter : Pt)
    (i : nat) (frag : Frag) (r : Random) : option (Frag * Random) :=
  let '(pos, _, r) := scatterLoop 49 0 canvasWidth canvasHeight leafCenter r in
  let frag := setCurrentPosition frag pos in
  let '(u, r) := callMathRandom mathRandom r in
  match pickRotation u with
  | Some rot => Some (setZIndex (setRotation frag rot) (Z.of_nat i), r)
  | None => None
  end.

Fixpoint scatterFrom (canvasWidth canvasHeight : num) (leafCenter : Pt)
    (i : nat) (fragments : list Frag) (r : Random)
  : option (list Frag * Random) :=
  match fragments with
  | [] => Some ([], r)
  | frag :: rest =>
      match scatterOne canvasWidth canvasHeight leafCenter i frag r with
      | Some (frag, r) =>
          match scatterFrom canvasWidth canvasHeight leafCenter (S i) rest r with
          | Some (rest, r) => Some (frag :: rest, r)
          | None => None
          end
      | None => None
      end
  end.

(** Scatter fragments around the play area (outside the central puzzle
    zone). *)
Definition scatterFragments (fragments : list Frag)
    (canvasWidth canvasHeight : num) (leafCenter : Pt) (r : Random)
  : option (list Frag * Random) :=
  scatterFrom canvasWidth canvasHeight leafCenter 0 fragments r.

(** *** What the loops keep *)

Lemma scatterLoop_spec (fuel tries : nat) (canvasWidth canvasHeight : num)
    (leafCenter : Pt) (r : Random) :
  let out := scatterLoop fuel tries canvasWidth canvasHeight leafCenter r in
  let p := fst (fst out) in
  let tries' := snd (fst out) in
  let r' := snd out in
  (tries < tries' <= tries + S fuel)%nat /\
  rng r' = rng r /\
  (ambient r' + 2 * tries = ambient r + 2 * tries')%nat /\
  p = mkPoint
        (margin + mathRandom (ambient r' - 2) * (canvasWidth - margin * of_Z 2))
        (margin + mathRandom (ambient r' - 1) * (canvasHeight - margin * of_Z 2)) /\
  ((50 <= tries + S fuel)%nat -> tooClose tries' p leafCenter = false).
Proof.
  revert tries r; induction fuel as [|fuel IH]; intros tries r;
    cbn [scatterLoop]; unfold callMathRandom; cbn [ambient rng].
  - cbn [fst snd ambient rng]; repeat split; try lia.
    + repeat f_equal; lia.
    + intro H; unfold tooClose.
      replace (S tries <? 50)%nat with false; [reflexivity|].
      symmetry; apply Nat.ltb_ge; lia.
  - match goal with
    | |- context [if ?c then _ else _] => destruct c eqn:E
    end.
    + match goal with
      | |- context [scatterLoop fuel (S tries) _ _ _ ?r1] =>
          specialize (IH (S tries) r1); cbn [ambient rng] in IH
      end.
      cbv zeta in IH; destruct IH as (Ht & Hr & Ha & Hp & Hx).
      repeat split; try lia; try assumption.
      intro H; apply Hx; lia.
    + cbn [fst snd ambient rng]; repeat split; try lia.
      * repeat f_equal; lia.
      * intros _; exact E.
Qed.

Lemma scatterOne_spec (canvasWidth canvasHeight : num) (leafCenter : Pt)
    (i : nat) (frag frag' : Frag) (r r' : Random) :
  scatterOne canvasWidth canvasHeight leafCenter i frag r = Some (frag', r') ->
  let out := scatterLoop 49 0 canvasWidth canvasHeight leafCenter r in
  id frag' = id frag /\ polygon frag' = polygon frag /\
  centroid frag' = centroid frag /\ correctPosition frag' = correctPosition frag /\
  isPlaced frag' = isPlaced frag /\ zIndex frag' = Z.of_nat i /\
  currentPosition frag' = fst (fst out) /\
  In (rotation frag') rotations /\
  rng r' = rng r /\
  (ambient r + 3 <= ambient r' <= ambient r + 101)%nat.
Proof.
  intros H; cbv zeta; unfold scatterOne in H.
  pose proof (scatterLoop_spec 49 0 canvasWidth canvasHeight leafCenter r) as S.
  cbv zeta in S.
  destruct (scatterLoop 49 0 canvasWidth canvasHeight leafCenter r)
    as [[pos tries] r1]; cbn [fst snd] in *.
  destruct S as (Ht & Hr & Ha & _ & _).
  unfold callMathRandom in H.
  destruct (pickRotation (mathRandom (ambient r1))) as [rot|] eqn:P;
    [|discriminate].
  injection H as <- <-; cbn [id polygon centroid correctPosition isPlaced zIndex
                               currentPosition rotation rng ambient
                               setZIndex setRotation setCurrentPosition].
  repeat split; try assumption; try lia.
  unfold pickRotation in P.
  destruct (nfloor _) as [k|]; [|discriminate].
  destruct (k <? 0)%Z; [discriminate|].
  now apply nth_error_In in P.
Qed.

Lemma scatterFrom_spec (canvasWidth canvasHeight : num) (leafCenter : Pt)
    (fragments : list Frag) (i : nat) (r : Random) (out : list Frag) (r' : Random) :
  scatterFrom canvasWidth canvasHeight leafCenter i fragments r = Some (out, r') ->
  length out = length fragments /\
  rng r' = rng r /\
  (ambient r + 3 * length fragments <= ambient r'
   <= ambient r + 101 * length fragments)%nat /\
  forall k f, nth_error fragments k = Some f ->
    exists f' r0,
      nth_error out k = Some f' /\
      (ambient r <= ambient r0)%nat /\
      scatterOne canvasWidth canvasHeight leafCenter (i + k) f r0 <> None /\
      id f' = id f /\ polygon f' = polygon f /\ centroid f' = centroid f /\
      correctPosition f' = correctPosition f /\ isPlaced f' = isPlaced f /\
      zIndex f' = Z.of_nat (i + k) /\
      currentPosition f'
      = fst (fst (scatterLoop 49 0 canvasWidth canvasHeight leafCenter r0)) /\
      In (rotation f') rotations.
Proof.
  revert i r out r'; induction fragments as [|frag rest IH];
    intros i r out r' H; cbn [scatterFrom] in H.
  - injection H as <- <-; cbn [length]; repeat split; try lia.
    intros [|k] f E; discriminate.
  - destruct (scatterOne canvasWidth canvasHeight leafCenter i frag r)
      as [[frag1 r1]|] eqn:E1; [|discriminate].
    destruct (scatterFrom canvasWidth canvasHeight leafCenter (S i) rest r1)
      as [[rest1 r2]|] eqn:E2; [|discriminate].
    injection H as <- <-.
    pose proof (scatterOne_spec _ _ _ _ _ _ _ _ E1) as S1; cbv zeta in S1.
    destruct S1 as (I1 & I2 & I3 & I4 & I5 & I6 & I7 & I8 & Hr1 & Ha1).
    destruct (IH _ _ _ _ E2) as (Hl & Hr2 & Ha2 & Hn).
    cbn [length]; repeat split; try lia; try congruence.
    intros [|k] f Hf; cbn [nth_error] in *.
    + injection Hf as <-; exists frag1, r.
      rewrite Nat.add_0_r, E1; repeat split; try assumption; try lia.
      discriminate.
    + destruct (Hn k f Hf) as (f' & r0 & A & B & C & D).
      exists f', r0; replace (i + S k)%nat with (S i + k)%nat by lia.
      repeat split; try tauto; lia.
Qed.

Lemma scatterLoop_fuel (fuel fuel' tries : nat) (canvasWidth canvasHeight : num)
    (leafCenter : Pt) (r : Random) :
  (50 <= tries + S fuel)%nat -> (fuel <= fuel')%nat ->
  scatterLoop fuel' tries canvasWidth canvasHeight leafCenter r
  = scatterLoop fuel tries canvasWidth canvasHeight leafCenter r.
Proof.
  revert fuel' tries r; induction fuel as [|fuel IH]; intros fuel' tries r H L.
  - destruct fuel' as [|fuel']; [reflexivity|].
    cbn [scatterLoop]; unfold callMathRandom, tooClose.
    replace (S tries <? 50)%nat with false; [reflexivity|].
    symmetry; apply Nat.ltb_ge; lia.
  - destruct fuel' as [|fuel']; [lia|].
    cbn [scatterLoop]; unfold callMathRandom.
    match goal with
    | |- context [if ?c then _ else _] => destruct c
    end; [|reflexivity].
    apply IH; lia.
Qed.

(** X16.  The search for a position makes one attempt, and another as
    long as fewer than 50 were made and the position found is within 120 of
    the leaf centre on both axes.  It draws two numbers per attempt, makes
    50 attempts at most, and the position it returns comes from its last
    two draws; more fuel than 49 changes nothing. *)
Theorem scatter_search_stops_within_fifty_attempts
    (canvasWidth canvasHeight : num) (leafCenter : Pt) (r : Random) (extra : nat) :
  let out := scatterLoop 49 0 canvasWidth canvasHeight leafCenter r in
  let p := fst (fst out) in
  let tries := snd (fst out) in
  let r' := snd out in
  scatterLoop (49 + extra) 0 canvasWidth canvasHeight leafCenter r = out /\
  (1 <= tries <= 50)%nat /\
  ambient r' = (ambient r + 2 * tries)%nat /\
  p = mkPoint
        (margin + mathRandom (ambient r' - 2) * (canvasWidth - margin * of_Z 2))
        (margin + mathRandom (ambient r' - 1) * (canvasHeight - margin * of_Z 2)) /\
  ((tries < 50)%nat ->
   (nabs (x p - x leafCenter) <? avoidRadius)
   && (nabs (y p - y leafCenter) <? avoidRadius) = false).
Proof.
  cbv zeta.
  pose proof (scatterLoop_spec 49 0 canvasWidth canvasHeight leafCenter r) as S.
  cbv zeta in S; destruct S as (Ht & _ & Ha & Hp & Hx).
  split; [apply scatterLoop_fuel; lia|].
  repeat split; try lia; try assumption.
  intro Hlt; specialize (Hx ltac:(lia)); unfold tooClose in Hx.
  apply Nat.ltb_lt in Hlt; rewrite Hlt in Hx; exact Hx.
Qed.

(** X17.  When [scatterFragments] returns, it returns as many fragments,
    in the same order; each one keeps its id, polygon, centroid,
    [correctPosition] and [isPlaced], gets its place in the array as
    [zIndex] and one of the four quarter turns as rotation.  Per fragment
    [Math.random] answers 3 times at least and 101 times at most, and the
    seeded generator is not used. *)
Theorem scatterFragments_keeps_the_fragments
    (fragments : list Frag) (canvasWidth canvasHeight : num) (leafCenter : Pt)
    (r : Random) (out : list Frag) (r' : Random) :
  scatterFragments fragments canvasWidth canvasHeight leafCenter r = Some (out, r') ->
  length out = length fragments /\
  (forall k f, nth_error fragments k = Some f ->
     exists f',
       nth_error out k = Some f' /\
       id f' = id f /\ polygon f' = polygon f /\ centroid f' = centroid f /\
       correctPosition f' = correctPosition f /\ isPlaced f' = isPlaced f /\
       zIndex f' = Z.of_nat k /\
       In (rotation f') rotations) /\
  rng r' = rng r /\
  (ambient r + 3 * length fragments <= ambient r'
   <= ambient r + 101 * length fragments)%nat.
Proof.
  intro H; apply scatterFrom_spec in H.
  destruct H as (Hl & Hr & Ha & Hn); repeat split; try assumption; try lia.
  intros k f Hf; destruct (Hn k f Hf) as (f' & r0 & A & _ & _ & B).
  exists f'; split; [exact A|]; tauto.
Qed.

End Scatter.

Module ScatterOnReals.

Import OnReals.
Local Open Scope R_scope.

Section UnitDraws.

Variable mathRandom : nat -> R.
Hypothesis unit_interval : forall call, 0 <= mathRandom call < 1.

Lemma Int_part_quarter (u : R) :
  0 <= u < 1 -> (0 <= Int_part (u * 4) <= 3)%Z.
Proof.
  intro Hu; destruct (base_Int_part (u * 4)) as [Hle Hgt].
  split.
  - assert (H : (-1 < Int_part (u * 4))%Z) by (apply lt_IZR; lra); lia.
  - assert (H : (Int_part (u * 4) < 4)%Z) by (apply lt_IZR; lra); lia.
Qed.

Lemma pickRotation_unit (u : R) :
  0 <= u < 1 -> exists rot, pickRotation u = Some rot.
Proof.
  intro Hu; unfold pickRotation.
  cbn [nfloor R_Floor Floors.ofReal length rotations Z.of_nat Pos.of_succ_nat
       Pos.succ nmul of_Z R_Number].
  unfold Floors.ofReal.
  pose proof (Int_part_quarter u Hu) as Hk.
  assert (E : (Int_part (u * 4) <? 0)%Z = false) by (apply Z.ltb_ge; lia).
  rewrite E.
  destruct (nth_error [0; PI / 2; PI; 3 * PI / 2] (Z.to_nat (Int_part (u * 4))))
    as [rot|] eqn:En; [now exists rot|].
  apply nth_error_None in En; cbn [length] in En; lia.
Qed.

Lemma scatterOne_succeeds (canvasWidth canvasHeight : R) (leafCenter : Point R)
    (i : nat) (frag : Fragment R) (r : Random) :
  scatterOne mathRandom canvasWidth canvasHeight leafCenter i frag r <> None.
Proof.
  unfold scatterOne.
  destruct (scatterLoop mathRandom 49 0 canvasWidth canvasHeight leafCenter r)
    as [[pos tries] r1].
  unfold callMathRandom.
  destruct (pickRotation_unit (mathRandom (ambient r1)) (unit_interval _))
    as [rot ->].
  discriminate.
Qed.

Lemma scatterFrom_succeeds (canvasWidth canvasHeight : R) (leafCenter : Point R)
    (fragments : list (Fragment R)) (i : nat) (r : Random) :
  exists out r',
    scatterFrom mathRandom canvasWidth canvasHeight leafCenter i fragments r
    = Some (out, r').
Proof.
  revert i r; induction fragments as [|frag rest IH]; intros i r;
    cbn [scatterFrom].
  - now exists [], r.
  - pose proof (scatterOne_succeeds canvasWidth canvasHeight leafCenter i frag r)
      as H1.
    destruct (scatterOne mathRandom canvasWidth canvasHeight leafCenter i frag r)
      as [[frag1 r1]|]; [|congruence].
    destruct (IH (S i) r1) as (rest1 & r2 & ->).
    now exists (frag1 :: rest1), r2.
Qed.

(** X18.  With the numbers of [Math.random] in [0, 1) and a canvas of 80
    by 80 at least, [scatterFragments] returns, and every fragment it
    returns is at a position within the margins of 40 on the four sides,
    under a rotation of 0, π/2, π or 3π/2. *)
Theorem scatterFragments_stays_within_the_margins
    (fragments : list (Fragment R)) (canvasWidth canvasHeight : R)
    (leafCenter : Point R) (r : Random) :
  80 <= canvasWidth -> 80 <= canvasHeight ->
  exists out r',
    scatterFragments mathRandom fragments canvasWidth canvasHeight leafCenter r
    = Some (out, r') /\
    length out = length fragments /\
    forall f', In f' out ->
      40 <= x (currentPosition f') <= canvasWidth - 40 /\
      40 <= y (currentPosition f') <= canvasHeight - 40 /\
      (rotation f' = 0 \/ rotation f' = PI / 2 \/ rotation f' = PI \/
       rotation f' = 3 * PI / 2).
Proof.
  intros Hw Hh; unfold scatterFragments.
  destruct (scatterFrom_succeeds canvasWidth canvasHeight leafCenter fragments 0 r)
    as (out & r' & E).
  exists out, r'; split; [exact E|].
  apply scatterFrom_spec in E; destruct E as (Hl & _ & _ & Hn).
  split; [exact Hl|].
  intros f' Hf'; apply In_nth_error in Hf'; destruct Hf' as [k Hk].
  assert (Hlt : (k < length fragments)%nat).
  { rewrite <- Hl; apply nth_error_Some; congruence. }
  destruct (nth_error fragments k) as [f|] eqn:Ef;
    [|apply nth_error_None in Ef; lia].
  destruct (Hn k f Ef) as (f1 & r0 & A & _ & _ & _ & _ & _ & _ & _ & _ & Hp & Hrot).
  assert (f1 = f') by congruence; subst f1.
  destruct (scatterLoop_spec mathRandom 49 0 canvasWidth canvasHeight leafCenter r0)
    as (_ & _ & _ & Hpos & _).
  rewrite <- Hp in Hpos; rewrite Hpos; cbn [x y].
  unfold margin; cbn [nadd nsub nmul of_Z R_Number].
  match goal with
  | |- context [mathRandom ?a * (canvasWidth - _)] =>
      pose proof (unit_interval a)
  end.
  match goal with
  | |- context [mathRandom ?a * (canvasHeight - _)] =>
      pose proof (unit_interval a)
  end.
  repeat split; try nra.
  unfold rotations in Hrot; cbn [nmul ndiv of_Z npi R_Number R_Trig In] in Hrot.
  intuition.
Qed.

End UnitDraws.

(** A fragment on a canvas of 800 by 600, under draws that are all 0. *)
Definition zeros : nat -> R := fun _ => 0.

Lemma zeros_unit : forall call, 0 <= zeros call < 1.
Proof. intro; unfold zeros; lra. Qed.

Lemma scatterFragments_stays_within_the_margins_witness :
  exists out r',
    scatterFragments zeros [Monotonic.loosePiece] 800 600 (mkPoint 400 300)
      (mkRandom MathRandom 0)
    = Some (out, r') /\
    length out = 1%nat /\
    forall f', In f' out ->
      40 <= x (currentPosition f') <= 800 - 40 /\
      40 <= y (currentPosition f') <= 600 - 40 /\
      (rotation f' = 0 \/ rotation f' = PI / 2 \/ rotation f' = PI \/
       rotation f' = 3 * PI / 2).
Proof.
  apply (scatterFragments_stays_within_the_margins zeros zeros_unit
           [Monotonic.loosePiece] 800 600 (mkPoint 400 300)
           (mkRandom MathRandom 0)); lra.
Defined.

Lemma scatterFragments_keeps_the_fragments_witness :
  exists out r',
    scatterFragments zeros [Monotonic.loosePiece] 800 600 (mkPoint 400 300)
      (mkRandom MathRandom 0)
    = Some (out, r') /\
    length out = 1%nat /\
    (forall k f, nth_error [Monotonic.loosePiece] k = Some f ->
       exists f',
         nth_error out k = Some f' /\
         id f' = id f /\ polygon f' = polygon f /\ centroid f' = centroid f /\
         correctPosition f' = correctPosition f /\ isPlaced f' = isPlaced f /\
         zIndex f' = Z.of_nat k /\
         In (rotation f') rotations) /\
    rng r' = MathRandom /\
    (0 + 3 * 1 <= ambient r' <= 0 + 101 * 1)%nat.
Proof.
  destruct (scatterFrom_succeeds zeros zeros_unit 800 600 (mkPoint 400 300)
              [Monotonic.loosePiece] 0 (mkRandom MathRandom 0))
    as (out & r' & E).
  exists out, r'; split; [exact E|].
  exact (scatterFragments_keeps_the_fragments zeros [Monotonic.loosePiece]
           800 600 (mkPoint 400 300) (mkRandom MathRandom 0) out r' E).
Defined.

End ScatterOnReals.
(** ** [PuzzleCanvas.jsx]: what the handlers do *)

Module Interaction.

Import PuzzleCanvas Monotonic.

Section Handlers.

Context {num : Type} {N : Number num} {T : Trig num}.
Local Open Scope num_scope.

Local Notation "'Frag'" := (Fragment num).

(** *** The order of [findFragment] and of the rotate button *)

(** Larger [zIndex] first. *)
Definition topmostFirst (a b : nat * Frag) : Prop :=
  (zIndex (snd b) <= zIndex (snd a))%Z.

Lemma insertByZ_In_rev (e a : nat * Frag) (sorted : list (nat * Frag)) :
  a = e \/ In a sorted -> In a (insertByZ e sorted).
Proof.
  induction sorted as [|b sorted IH]; cbn [insertByZ].
  - intros [->|[]]; now left.
  - destruct (zIndex (snd b) <? zIndex (snd e))%Z.
    + intros [->|H]; [now left|now right].
    + intros [->|[->|H]].
      * right; apply IH; now left.
      * now left.
      * right; apply IH; now right.
Qed.

Lemma insertByZ_sorted (e : nat * Frag) (sorted : list (nat * Frag)) :
  StronglySorted topmostFirst sorted ->
  StronglySorted topmostFirst (insertByZ e sorted).
Proof.
  induction 1 as [|b sorted Hs IH Hb]; cbn [insertByZ].
  - constructor; constructor.
  - destruct (zIndex (snd b) <? zIndex (snd e))%Z eqn:E.
    + apply Z.ltb_lt in E.
      constructor; [constructor; assumption|].
      constructor; [unfold topmostFirst; lia|].
      eapply Forall_impl; [|exact Hb]; unfold topmostFirst; intros; lia.
    + apply Z.ltb_ge in E.
      constructor; [exact IH|].
      apply Forall_forall; intros a Ha.
      apply insertByZ_In in Ha; destruct Ha as [->|Ha].
      * exact E.
      * rewrite Forall_forall in Hb; now apply Hb.
Qed.

Lemma sortTopmostFirst_spec (l : list (nat * Frag)) :
  StronglySorted topmostFirst (sortTopmostFirst l) /\
  forall a, In a l -> In a (sortTopmostFirst l).
Proof.
  unfold sortTopmostFirst.
  assert (G : forall acc,
             StronglySorted topmostFirst acc ->
             StronglySorted topmostFirst
               (fold_left (fun sorted e => insertByZ e sorted) l acc) /\
             forall a, In a acc \/ In a l ->
                       In a (fold_left (fun sorted e => insertByZ e sorted) l acc)).
  { induction l as [|e l IH]; intros acc Hacc; cbn [fold_left].
    - split; [exact Hacc|intros a [H|[]]; exact H].
    - destruct (IH (insertByZ e acc) (insertByZ_sorted e acc Hacc)) as [Hs Hi].
      split; [exact Hs|].
      intros a [H|[->|H]]; apply Hi.
      + left; apply insertByZ_In_rev; now right.
      + left; apply insertByZ_In_rev; now left.
      + now right. }
  destruct (G [] (SSorted_nil _)) as [Hs Hi].
  split; [exact Hs|intros a Ha; apply Hi; now right].
Qed.

Lemma places_In_rev (fs : list Frag) (k i : nat) (f : Frag) :
  nth_error fs i = Some f ->
  In ((k + i)%nat, f) (mapi_from (fun i f => (i, f)) k fs).
Proof.
  revert k i; induction fs as [|a fs IH]; intros k [|i] H; cbn in H;
    try discriminate; cbn [mapi_from].
  - injection H as ->; left; f_equal; lia.
  - right; replace (k + S i)%nat with (S k + i)%nat by lia; now apply IH.
Qed.

Lemma unplacedTopmostFirst_spec (fs : list Frag) :
  StronglySorted topmostFirst (unplacedTopmostFirst fs) /\
  forall i f, In (i, f) (unplacedTopmostFirst fs) <->
              nth_error fs i = Some f /\ isPlaced f = false.
Proof.
  unfold unplacedTopmostFirst.
  destruct (sortTopmostFirst_spec
              (filter (fun e => negb (isPlaced (snd e))) (places fs))) as [Hs Hi].
  split; [exact Hs|].
  intros i f; split; [apply unplacedTopmostFirst_In|].
  intros [Hn Hp]; apply Hi, filter_In; split.
  - apply (places_In_rev fs 0 i f Hn).
  - cbn [snd]; now rewrite Hp.
Qed.

Lemma find_first {A : Type} (p : A -> bool) (l : list A) (a : A) :
  find p l = Some a ->
  exists l1 l2, l = l1 ++ a :: l2 /\ p a = true /\ forall b, In b l1 -> p b = false.
Proof.
  induction l as [|c l IH]; cbn [find]; [discriminate|].
  destruct (p c) eqn:E.
  - intro H; injection H as <-.
    exists [], l; repeat split; [exact E|intros b []].
  - intro H; destruct (IH H) as (l1 & l2 & -> & Ha & Hb).
    exists (c :: l1), l2; repeat split; [exact Ha|].
    intros b [<-|Hin]; [exact E|now apply Hb].
Qed.

(** X19.  [findFragment] returns the topmost unplaced fragment at the
    point: the fragment found is not placed and passes the hit test at the
    scale of the canvas, and no unplaced fragment that passes it has a
    larger [zIndex]; it returns [null] exactly when no unplaced fragment
    passes the hit test. *)
Theorem findFragment_picks_the_topmost (c : Canvas num) (pos : Point num) :
  (forall i, findFragment c pos = Some i ->
     exists f,
       nth_error (fragments c) i = Some f /\ isPlaced f = false /\
       hitTestFragment pos (scaledFrag f (scale c)) = true /\
       forall j g, nth_error (fragments c) j = Some g -> isPlaced g = false ->
                   hitTestFragment pos (scaledFrag g (scale c)) = true ->
                   (zIndex g <= zIndex f)%Z) /\
  (findFragment c pos = None <->
   forall j g, nth_error (fragments c) j = Some g -> isPlaced g = false ->
               hitTestFragment pos (scaledFrag g (scale c)) = false).
Proof.
  unfold findFragment.
  destruct (unplacedTopmostFirst_spec (fragments c)) as [Hs Hi].
  split.
  - intros i H.
    destruct (find _ _) as [[i' f]|] eqn:E; cbn [option_map fst] in H;
      [|discriminate].
    injection H as ->.
    destruct (find_first _ _ _ E) as (l1 & l2 & El & Hhit & Hbefore).
    assert (Hin : In (i, f) (unplacedTopmostFirst (fragments c)))
      by (rewrite El; apply in_or_app; right; now left).
    apply Hi in Hin; destruct Hin as [Hn Hp].
    exists f; repeat split; try assumption.
    intros j g Hg Hgp Hghit.
    assert (Hgin : In (j, g) (unplacedTopmostFirst (fragments c)))
      by (apply Hi; now split).
    rewrite El in Hgin, Hs.
    apply in_app_or in Hgin; destruct Hgin as [Hg1|[Hg2|Hg3]].
    + apply Hbefore in Hg1; cbn [snd] in Hg1; congruence.
    + injection Hg2 as _ <-; lia.
    + clear -Hs Hg3; induction l1 as [|b l1 IH]; cbn [app] in Hs.
      * apply StronglySorted_inv in Hs; destruct Hs as [_ Hall].
        rewrite Forall_forall in Hall; exact (Hall _ Hg3).
      * apply StronglySorted_inv in Hs; destruct Hs as [Hs _]; now apply IH.
  - split.
    + intros H j g Hg Hgp.
      destruct (find _ _) as [e|] eqn:E; [discriminate|].
      assert (Hgin : In (j, g) (unplacedTopmostFirst (fragments c)))
        by (apply Hi; now split).
      exact (find_none _ _ E _ Hgin).
    + intro H; destruct (find _ _) as [[i f]|] eqn:E; [|reflexivity].
      apply find_some in E; destruct E as [Hin Hhit]; cbn [snd] in Hhit.
      apply Hi in Hin; destruct Hin as [Hn Hp].
      rewrite (H i f Hn Hp) in Hhit; discriminate.
Qed.

Lemma handleRotateBtn_all_placed (c : Canvas num) :
  (forall f, In f (fragments c) -> isPlaced f = true) -> handleRotateBtn c = c.
Proof.
  intro Hall; unfold handleRotateBtn.
  destruct (unplacedTopmostFirst (fragments c)) as [|[i f] rest] eqn:E;
    [reflexivity|].
  assert (Hin : In (i, f) (unplacedTopmostFirst (fragments c)))
    by (rewrite E; now left).
  apply unplacedTopmostFirst_In in Hin; destruct Hin as [Hn Hp].
  apply nth_error_In in Hn; rewrite (Hall f Hn) in Hp; discriminate.
Qed.

(** X20.  The rotate button turns by a quarter the unplaced fragment of
    the largest [zIndex], and nothing else; when every fragment is placed
    it changes nothing. *)
Theorem handleRotateBtn_turns_the_topmost_unplaced (c : Canvas num) :
  ((forall f, In f (fragments c) -> isPlaced f = true) ->
   handleRotateBtn c = c) /\
  ((exists f, In f (fragments c) /\ isPlaced f = false) ->
   exists i f,
     nth_error (fragments c) i = Some f /\ isPlaced f = false /\
     (forall j g, nth_error (fragments c) j = Some g -> isPlaced g = false ->
                  (zIndex g <= zIndex f)%Z) /\
     handleRotateBtn c
     = withFragments c
         (updateAt i (fun f => setRotation f (rotation f + ROTATE_STEP))
            (fragments c))).
Proof.
  split; [apply handleRotateBtn_all_placed|].
  unfold handleRotateBtn.
  destruct (unplacedTopmostFirst_spec (fragments c)) as [Hs Hi].
  - intros (g & Hg & Hgp); apply In_nth_error in Hg; destruct Hg as [j Hj].
    assert (Hin : In (j, g) (unplacedTopmostFirst (fragments c)))
      by (apply Hi; now split).
    destruct (unplacedTopmostFirst (fragments c)) as [|[i f] rest];
      [contradiction|].
    destruct (proj1 (Hi i f) (or_introl eq_refl)) as [Hn Hp].
    exists i, f; repeat split; try assumption.
    intros j' g' Hg' Hgp'.
    assert (Hin' : In (j', g') ((i, f) :: rest)) by (apply Hi; now split).
    destruct Hin' as [E|Hin']; [injection E as _ <-; lia|].
    apply StronglySorted_inv in Hs; destruct Hs as [_ Hall].
    rewrite Forall_forall in Hall; exact (Hall _ Hin').
Qed.

(** *** Picking up, dragging, releasing *)

Lemma maxZIndex_ge (fs : list Frag) (g : Frag) :
  In g fs -> (zIndex g <= maxZIndex fs)%Z.
Proof.
  unfold maxZIndex; destruct fs as [|f rest]; [intros []|].
  assert (G : forall (l : list Z) (a : Z),
             (a <= fold_left Z.max l a)%Z /\
             forall z, In z l -> (z <= fold_left Z.max l a)%Z).
  { induction l as [|b l IH]; intro a; cbn [fold_left].
    - split; [lia|intros z []].
    - destruct (IH (Z.max a b)) as [H1 H2]; split; [lia|].
      intros z [<-|Hz]; [lia|now apply H2]. }
  destruct (G (map (@zIndex num) rest) (zIndex f)) as [H1 H2].
  intros [<-|Hg]; [exact H1|apply H2; now apply in_map].
Qed.

Lemma updateAt_same (g : Frag -> Frag) (i : nat) (fs : list Frag) (f : Frag) :
  nth_error fs i = Some f -> nth_error (updateAt i g fs) i = Some (g f).
Proof.
  revert i; induction fs as [|a fs IH]; intros [|i] H; cbn in *;
    try discriminate.
  - now injection H as ->.
  - now apply IH.
Qed.

Lemma findById_NoDup (fs : list Frag) (i : nat) (f : Frag) :
  NoDup (map (@id num) fs) -> nth_error fs i = Some f ->
  findById fs (id f) = Some (i, f).
Proof.
  intros Hnd Hn; unfold findById.
  destruct (find (fun e => Z.eqb (id (snd e)) (id f)) (places fs))
    as [[j g]|] eqn:E.
  - pose proof (findById_Some fs (id f) j g E) as [Hj Hid].
    assert (g = f).
    { apply (NoDup_ids_In fs); try assumption;
        eapply nth_error_In; eassumption. }
    subst g; f_equal; f_equal.
    clear E; revert i j Hn Hj Hnd; induction fs as [|a fs IH];
      intros [|i] [|j] Hn Hj Hnd; cbn in *; try discriminate; try reflexivity.
    + injection Hn as ->; apply nth_error_In in Hj.
      inversion Hnd as [|? ? Hnot _]; exfalso; apply Hnot.
      now apply in_map.
    + injection Hj as ->; apply nth_error_In in Hn.
      inversion Hnd as [|? ? Hnot _]; exfalso; apply Hnot.
      now apply in_map.
    + f_equal; inversion Hnd; now apply IH.
  - exfalso.
    pose proof (find_none _ _ E (i, f) (places_In_rev fs 0 i f Hn)) as H.
    cbn [snd] in H; rewrite Z.eqb_refl in H; discriminate.
Qed.

(** The canvas after a pointer down that finds a fragment. *)
Lemma handlePointerDown_hit (c : Canvas num) (pos : Point num) (i : nat) (f : Frag) :
  isVictory c = false -> findFragment c pos = Some i ->
  nth_error (fragments c) i = Some f ->
  handlePointerDown c pos
  = withDragging
      (withFragments c
         (updateAt i (fun f => setZIndex f (maxZIndex (fragments c) + 1)%Z)
            (fragments c)))
      (Some (mkDragging (id f) (x pos - x (currentPosition f))
               (y pos - y (currentPosition f)))).
Proof.
  intros Hv Hfind Hn; unfold handlePointerDown; now rewrite Hv, Hfind, Hn.
Qed.

(** X21.  A pointer down on a fragment, outside victory, picks it up: the
    fragment gets a [zIndex] above every fragment of the canvas, the drag
    records its id and the offset of the pointer from its position, and
    no other fragment changes.  Under victory, or when no fragment is
    found, nothing changes. *)
Theorem handlePointerDown_picks_up_and_raises (c : Canvas num) (pos : Point num) :
  (isVictory c = true \/ findFragment c pos = None ->
   handlePointerDown c pos = c) /\
  (forall i f,
     isVictory c = false -> findFragment c pos = Some i ->
     nth_error (fragments c) i = Some f ->
     let c' := handlePointerDown c pos in
     dragging c'
     = Some (mkDragging (id f) (x pos - x (currentPosition f))
               (y pos - y (currentPosition f))) /\
     nth_error (fragments c') i
     = Some (setZIndex f (maxZIndex (fragments c) + 1)) /\
     (forall g, In g (fragments c) ->
                (zIndex g < maxZIndex (fragments c) + 1)%Z) /\
     (forall j, j <> i ->
                nth_error (fragments c') j = nth_error (fragments c) j)).
Proof.
  split.
  - unfold handlePointerDown; intros [H|H]; rewrite H; [reflexivity|].
    now destruct (isVictory c).
  - intros i f Hv Hfind Hn; cbv zeta.
    rewrite (handlePointerDown_hit c pos i f Hv Hfind Hn).
    cbn [dragging fragments withDragging withFragments].
    repeat split.
    + now apply (updateAt_same
                   (fun f => setZIndex f (maxZIndex (fragments c) + 1)%Z)).
    + intros g Hg; pose proof (maxZIndex_ge _ _ Hg); lia.
    + intros j Hj; apply updateAt_other; congruence.
Qed.

(** The canvas after a pointer move during a drag. *)
Lemma handlePointerMove_drag (c : Canvas num) (pos : Point num)
    (d : Dragging num) (i : nat) (f : Frag) :
  NoDup (map (@id num) (fragments c)) ->
  dragging c = Some d -> nth_error (fragments c) i = Some f ->
  id f = fragmentId d ->
  handlePointerMove c pos
  = withFragments c
      (updateAt i
         (fun f => setCurrentPosition f
                     (mkPoint (x pos - offsetX d) (y pos - offsetY d)))
         (fragments c)).
Proof.
  intros Hnd Hd Hn Hid; unfold handlePointerMove; rewrite Hd, <- Hid.
  now rewrite (findById_NoDup _ _ _ Hnd Hn).
Qed.

(** X22.  While a fragment is dragged, a pointer move puts it at the
    pointer minus the recorded offset and changes nothing else; without a
    drag a pointer move changes nothing.  (The ids of the fragments are
    all different.) *)
Theorem handlePointerMove_follows_the_pointer
    (c : Canvas num) (pos : Point num) :
  NoDup (map (@id num) (fragments c)) ->
  (dragging c = None -> handlePointerMove c pos = c) /\
  (forall d i f,
     dragging c = Some d -> nth_error (fragments c) i = Some f ->
     id f = fragmentId d ->
     let c' := handlePointerMove c pos in
     nth_error (fragments c') i
     = Some (setCurrentPosition f
               (mkPoint (x pos - offsetX d) (y pos - offsetY d))) /\
     (forall j, j <> i ->
                nth_error (fragments c') j = nth_error (fragments c) j) /\
     dragging c' = dragging c).
Proof.
  intro Hnd; split.
  - unfold handlePointerMove; now intros ->.
  - intros d i f Hd Hn Hid; cbv zeta.
    rewrite (handlePointerMove_drag c pos d i f Hnd Hd Hn Hid).
    cbn [fragments dragging withFragments]; repeat split.
    + now apply (updateAt_same
                   (fun f => setCurrentPosition f
                               (mkPoint (x pos - offsetX d) (y pos - offsetY d)))).
    + intros j Hj; apply updateAt_other; congruence.
Qed.

Lemma filter_all {A : Type} (p : A -> bool) (l : list A) :
  length (filter p l) = length l -> forall a, In a l -> p a = true.
Proof.
  induction l as [|b l IH]; cbn [filter length]; [intros _ a []|].
  destruct (p b) eqn:E; cbn [length].
  - intros H a [<-|Ha]; [exact E|apply IH; [lia|exact Ha]].
  - intro H; pose proof (filter_length_le p l); lia.
Qed.

Lemma filter_all_rev {A : Type} (p : A -> bool) (l : list A) :
  (forall a, In a l -> p a = true) -> length (filter p l) = length l.
Proof.
  induction l as [|b l IH]; intro H; cbn [filter length]; [reflexivity|].
  rewrite (H b (or_introl eq_refl)); cbn [length]; f_equal.
  apply IH; intros a Ha; apply H; now right.
Qed.

Lemma handlePointerUp_ends_the_drag (c : Canvas num) :
  dragging (handlePointerUp c) = None.
Proof.
  unfold handlePointerUp.
  destruct (dragging c) as [d|] eqn:Hd; [|exact Hd].
  destruct (findById (fragments c) (fragmentId d)) as [[i f]|];
    [|reflexivity].
  cbn [leafOrigin scale fragments dragging withDragging withFragments].
  destruct (_ && _); [|reflexivity].
  destruct (_ =? _)%nat; reflexivity.
Qed.

(** X23.  A pointer up always ends the drag.  It snaps the dragged
    fragment exactly when [checkSnap] accepts the fragment scaled for the
    canvas: the fragment is then put where [snapFragment] puts the scaled
    fragment, with rotation 0, and marked placed; the victory flag is
    raised when every fragment is then placed.  Otherwise the fragments
    stay as they are. *)
Theorem handlePointerUp_snaps_when_checkSnap_accepts (c : Canvas num) :
  dragging (handlePointerUp c) = None /\
  (dragging c = None -> handlePointerUp c = c) /\
  (forall d i f,
     dragging c = Some d ->
     findById (fragments c) (fragmentId d) = Some (i, f) ->
     let scaled := scaledFrag f (scale c) in
     let c' := handlePointerUp c in
     if checkSnap scaled (leafOrigin c) SNAP_DISTANCE SNAP_ANGLE then
       fragments c'
       = updateAt i
           (fun f => setIsPlaced
                       (setRotation
                          (setCurrentPosition f
                             (currentPosition (snapFragment scaled (leafOrigin c))))
                          (of_Z 0))
                       true)
           (fragments c) /\
       (isVictory c' = true <->
        isVictory c = true \/ forall g, In g (fragments c') -> isPlaced g = true)
     else
       fragments c' = fragments c /\ isVictory c' = isVictory c).
Proof.
  split; [apply handlePointerUp_ends_the_drag|].
  unfold handlePointerUp; split.
  - now intros ->.
  - intros d i f Hd Hf; rewrite Hd, Hf.
    cbn [leafOrigin scale fragments dragging withDragging withFragments].
    unfold checkSnap.
    cbn [centroid currentPosition rotation scaledFrag snapFragment
         setCurrentPosition setRotation setIsPlaced x y].
    destruct (_ && _).
    + unfold snapTo.
      set (fs' := updateAt i _ (fragments c)).
      destruct (length (filter (@isPlaced num) fs') =? length fs')%nat eqn:E;
        cbn [fragments isVictory]; split; try reflexivity.
      * split; [intros _; right|reflexivity].
        apply Nat.eqb_eq in E; now apply filter_all.
      * split; [now left|].
        intros [H|H]; [exact H|].
        apply filter_all_rev in H; apply Nat.eqb_neq in E; contradiction.
    + cbn [fragments isVictory]; now split.
Qed.

(** *** Victory *)

Definition allPlaced (c : Canvas num) : Prop :=
  forall f, In f (fragments c) -> isPlaced f = true.

Lemma allPlaced_map (c c' : Canvas num) :
  map (@isPlaced num) (fragments c') = map (@isPlaced num) (fragments c) ->
  allPlaced c' <-> allPlaced c.
Proof.
  unfold allPlaced.
  assert (G : forall fs : list Frag,
             (forall f, In f fs -> isPlaced f = true) <->
             Forall (fun b => b = true) (map (@isPlaced num) fs)).
  { intro fs; rewrite Forall_forall; split.
    - intros H b Hb; apply in_map_iff in Hb; destruct Hb as (f & <- & Hf).
      now apply H.
    - intros H f Hf; apply H; now apply in_map. }
  intro E; now rewrite !G, E.
Qed.

Lemma updateAt_isPlaced (g : Frag -> Frag) (i : nat) (fs : list Frag) :
  (forall f, isPlaced (g f) = isPlaced f) ->
  map (@isPlaced num) (updateAt i g fs) = map (@isPlaced num) fs.
Proof.
  intro Hg; revert i; induction fs as [|a fs IH]; intros [|i]; cbn;
    try reflexivity.
  - now rewrite Hg.
  - now rewrite IH.
Qed.

(** Every handler but the pointer up leaves the victory flag and the
    placed marks as they are. *)
Lemma handle_keeps_marks (c : Canvas num) (e : Event num) :
  e <> PointerUp ->
  isVictory (handle c e) = isVictory c /\
  map (@isPlaced num) (fragments (handle c e)) = map (@isPlaced num) (fragments c).
Proof.
  intro He; destruct e as [pos|pos| | | |deltaY| ]; cbn [handle];
    try congruence.
  - unfold handlePointerDown.
    destruct (isVictory c) eqn:V; [now rewrite V|].
    destruct (findFragment c pos) as [i|]; [|now rewrite V].
    destruct (nth_error (fragments c) i) as [frag|]; [|now rewrite V].
    cbn [isVictory fragments withDragging withFragments]; split; [exact V|].
    now apply updateAt_isPlaced.
  - unfold handlePointerMove.
    destruct (dragging c) as [d|]; [|now split].
    destruct (findById (fragments c) (fragmentId d)) as [[i f]|]; [|now split].
    cbn [isVictory fragments withFragments]; split; [reflexivity|].
    now apply updateAt_isPlaced.
  - unfold handleKeyR, rotateDragged.
    destruct (dragging c) as [d|]; [|now split].
    destruct (findById (fragments c) (fragmentId d)) as [[i f]|]; [|now split].
    cbn [isVictory fragments withFragments]; split; [reflexivity|].
    now apply updateAt_isPlaced.
  - now split.
  - unfold handleWheel, rotateDragged.
    destruct (dragging c) as [d|]; [|now split].
    destruct (findById (fragments c) (fragmentId d)) as [[i f]|]; [|now split].
    cbn [isVictory fragments withFragments]; split; [reflexivity|].
    now apply updateAt_isPlaced.
  - unfold handleRotateBtn.
    destruct (unplacedTopmostFirst (fragments c)) as [|[i f] rest]; [now split|].
    cbn [isVictory fragments withFragments]; split; [reflexivity|].
    now apply updateAt_isPlaced.
Qed.

(** Under victory, with nothing dragged and every fragment placed, no
    handler changes a fragment. *)
Lemma handle_frozen (c : Canvas num) (e : Event num) :
  isVictory c = true -> dragging c = None -> allPlaced c ->
  fragments (handle c e) = fragments c /\
  dragging (handle c e) = None /\ isVictory (handle c e) = true.
Proof.
  intros V D A; destruct e as [pos|pos| | | |deltaY| ]; cbn [handle].
  - unfold handlePointerDown; rewrite V; now repeat split.
  - unfold handlePointerMove; rewrite D; now repeat split.
  - unfold handlePointerUp; rewrite D; now repeat split.
  - unfold handleKeyR, rotateDragged; rewrite D; now repeat split.
  - now repeat split.
  - unfold handleWheel, rotateDragged; rewrite D; now repeat split.
  - rewrite (handleRotateBtn_all_placed c A); now repeat split.
Qed.

(** The state of a session in which victory is declared exactly when every
    fragment is placed, and with nothing dragged then. *)
Definition decided (c : Canvas num) : Prop :=
  wellFormed c /\
  (isVictory c = true <-> allPlaced c) /\
  (isVictory c = true -> dragging c = None).

(** A pointer up declares victory exactly when it places the last
    fragment. *)
Lemma handlePointerUp_decides (c : Canvas num) :
  isVictory c = false -> ~ allPlaced c ->
  (isVictory (handlePointerUp c) = true <-> allPlaced (handlePointerUp c)).
Proof.
  intros Ev Hnot; unfold handlePointerUp, allPlaced in *.
  destruct (dragging c) as [d|] eqn:Ed.
  2:{ rewrite Ev; split; [intro; discriminate|intro A; contradiction]. }
  destruct (findById (fragments c) (fragmentId d)) as [[i f]|] eqn:Ef.
  2:{ cbn [isVictory fragments withDragging]; rewrite Ev.
      split; [intro; discriminate|intro A; contradiction]. }
  cbn [leafOrigin scale fragments dragging withDragging withFragments].
  destruct (_ && _).
  - set (fs' := updateAt i _ (fragments c)).
    destruct (length (filter (@isPlaced num) fs') =? length fs')%nat eqn:E;
      cbn [fragments isVictory withFragments withDragging].
    + split; [intros _|reflexivity].
      apply Nat.eqb_eq in E; now apply filter_all.
    + rewrite Ev; split; [intro; discriminate|].
      intro A; apply filter_all_rev in A; apply Nat.eqb_neq in E; contradiction.
  - cbn [isVictory fragments withDragging]; rewrite Ev.
    split; [intro; discriminate|intro A; contradiction].
Qed.

Lemma handle_decided (c : Canvas num) (e : Event num) :
  decided c -> decided (handle c e).
Proof.
  intros (W & V & D).
  destruct (handle_keeps c e W) as [W' _].
  split; [exact W'|].
  destruct (isVictory c) eqn:Ev.
  - destruct (handle_frozen c e Ev (D eq_refl) (proj1 V eq_refl))
      as (Hf & Hd & Hv).
    split; [|intros _; exact Hd].
    rewrite Hv; split; [intros _|reflexivity].
    unfold allPlaced; rewrite Hf; now apply V.
  - assert (Hnot : ~ allPlaced c) by (intro A; apply V in A; discriminate).
    destruct e as [pos|pos| | | |deltaY| ];
      try (match goal with
           | |- context [handle c ?e] =>
               destruct (handle_keeps_marks c e ltac:(discriminate)) as [Hv Hm]
           end;
           rewrite Hv, Ev; split; [|intro; discriminate];
           split; [intro; discriminate|];
           intro A; apply (allPlaced_map c _ Hm) in A; contradiction).
    cbn [handle]; split.
    + now apply handlePointerUp_decides.
    + intros _; apply handlePointerUp_ends_the_drag.
Qed.

Lemma run_decided (events : list (Event num)) (c : Canvas num) :
  decided c -> decided (run c events).
Proof.
  revert c; induction events as [|e events IH]; intros c H; [exact H|].
  apply IH, handle_decided, H.
Qed.

Lemma run_frozen (events : list (Event num)) (c : Canvas num) :
  isVictory c = true -> dragging c = None -> allPlaced c ->
  fragments (run c events) = fragments c /\ isVictory (run c events) = true.
Proof.
  revert c; induction events as [|e events IH]; intros c V D A; [now split|].
  destruct (handle_frozen c e V D A) as (Hf & Hd & Hv).
  assert (A' : allPlaced (handle c e)) by (unfold allPlaced; now rewrite Hf).
  destruct (IH _ Hv Hd A') as [H1 H2].
  unfold run in *; cbn [fold_left]; split; [congruence|exact H2].
Qed.

(** X24.  In a session that starts with distinct ids, nothing dragged, no
    victory and a fragment that is not placed, victory is declared exactly
    when every fragment is placed; and once it is declared no event changes
    a fragment or takes the victory back. *)
Theorem victory_is_declared_when_all_are_placed_and_is_final
    (c : Canvas num) (events more : list (Event num)) :
  NoDup (map (@id num) (fragments c)) ->
  dragging c = None -> isVictory c = false ->
  (exists f, In f (fragments c) /\ isPlaced f = false) ->
  let c' := run c events in
  (isVictory c' = true <-> forall f, In f (fragments c') -> isPlaced f = true) /\
  (isVictory c' = true ->
   fragments (run c (events ++ more)) = fragments c' /\
   isVictory (run c (events ++ more)) = true).
Proof.
  intros Hnd Hd Hv (f & Hf & Hp) c'.
  assert (I : decided c).
  { split; [split; [exact Hnd|intros d E; congruence]|].
    split; [|intro; congruence].
    split; [intro; congruence|].
    intro A; rewrite (A f Hf) in Hp; discriminate. }
  pose proof (run_decided events c I) as (W' & V' & D'); fold c' in W', V', D'.
  split; [exact V'|].
  intro E; rewrite run_app; fold c'.
  apply run_frozen; [exact E|now apply D'|now apply V'].
Qed.

End Handlers.

End Interaction.
Module InteractionOnReals.

Import PuzzleCanvas Monotonic OnReals Plane Interaction.
Local Open Scope R_scope.

Lemma session_ids : NoDup (map (@id R) (fragments session)).
Proof.
  cbn; constructor; [intros [E|[]]; discriminate E|].
  constructor; [intros []|constructor].
Qed.

Lemma handlePointerMove_follows_the_pointer_witness :
  (dragging session = None -> handlePointerMove session (mkPoint 5 5) = session) /\
  (forall d i f,
     dragging session = Some d -> nth_error (fragments session) i = Some f ->
     id f = fragmentId d ->
     let c' := handlePointerMove session (mkPoint 5 5) in
     nth_error (fragments c') i
     = Some (setCurrentPosition f
               (mkPoint (x (mkPoint 5 5) - offsetX d) (y (mkPoint 5 5) - offsetY d))) /\
     (forall j, j <> i ->
                nth_error (fragments c') j = nth_error (fragments session) j) /\
     dragging c' = dragging session).
Proof.
  exact (handlePointerMove_follows_the_pointer session (mkPoint 5 5) session_ids).
Defined.

Lemma victory_is_declared_when_all_are_placed_and_is_final_witness :
  let c' := run session gestures in
  (isVictory c' = true <-> forall f, In f (fragments c') -> isPlaced f = true) /\
  (isVictory c' = true ->
   fragments (run session (gestures ++ [KeyR])) = fragments c' /\
   isVictory (run session (gestures ++ [KeyR])) = true).
Proof.
  apply (victory_is_declared_when_all_are_placed_and_is_final
           session gestures [KeyR] session_ids eq_refl eq_refl).
  exists loosePiece; split; [right; now left|reflexivity].
Defined.

(** *** Quarter turns *)

Lemma iter_turns (n : nat) (r0 : R) :
  Nat.iter n (fun rot => (rot + ROTATE_STEP)%num) r0 = r0 + INR n * (PI / 2).
Proof.
  induction n as [|n IH]; [cbn; ring|].
  rewrite Nat.iter_succ, IH, S_INR.
  unfold ROTATE_STEP; cbn [nadd ndiv of_Z npi R_Number R_Trig]; ring.
Qed.

Lemma nth_rotations (j : nat) :
  (j < 4)%nat -> nth j (rotations (num := R)) 0 = INR j * (PI / 2).
Proof.
  intro H; unfold rotations; cbn [nmul ndiv of_Z npi R_Number R_Trig].
  destruct j as [|[|[|[|j]]]]; cbn [nth INR]; try lia; lra.
Qed.

Lemma normalizedRotation_quarters (m : nat) :
  normalizedRotation (INR m * (PI / 2)) = INR (m mod 4) * (PI / 2).
Proof.
  pose proof twoPi_bounds as Hpi.
  destruct (normalizedRotation_spec (INR m * (PI / 2))) as [Hr [k Hk]].
  pose proof (Nat.div_mod_eq m 4) as Hm.
  pose proof (Nat.mod_upper_bound m 4 ltac:(lia)) as Ht.
  set (q := (m / 4)%nat) in *; set (t := (m mod 4)%nat) in *.
  clearbody q t.
  assert (Et : INR m = 4 * INR q + INR t)
    by (rewrite Hm, plus_INR, mult_INR; cbn [INR]; ring).
  assert (Ht' : 0 <= INR t <= 3).
  { split; [apply pos_INR|].
    replace 3 with (INR 3) by (cbn [INR]; ring); apply le_INR; lia. }
  apply (representative_unique _ _ (Z.of_nat q + k)).
  - exact Hr.
  - unfold twoPi in *; nra.
  - rewrite Hk, Et, plus_IZR, <- INR_IZR_INZ; unfold twoPi; field.
Qed.

(** X25.  A fragment scattered under the [j]-th quarter turn and turned
    [n] times by the key R is within the snap angle exactly when [j + n]
    is a multiple of 4: the rotation is not reduced on the way, and the
    snap test reads it modulo 2π. *)
Theorem quarter_turns_align_every_fourth (j n : nat) :
  (j < 4)%nat ->
  angleOk (Nat.iter n (fun rot => (rot + ROTATE_STEP)%num) (nth j rotations 0))
          SNAP_ANGLE = true
  <-> ((j + n) mod 4 = 0)%nat.
Proof.
  intro Hj; rewrite iter_turns, nth_rotations by exact Hj.
  replace (INR j * (PI / 2) + INR n * (PI / 2)) with (INR (j + n) * (PI / 2))
    by (rewrite plus_INR; ring).
  unfold angleOk; rewrite normalizedRotation_quarters.
  pose proof twoPi_bounds as Hpi; unfold twoPi in Hpi.
  pose proof (Nat.mod_upper_bound (j + n) 4 ltac:(lia)) as Ht.
  unfold SNAP_ANGLE; cbn [nlt nsub nmul ndiv of_Z npi R_Number R_Trig].
  destruct ((j + n) mod 4)%nat as [|[|[|[|t]]]]; cbn [INR]; try lia.
  - split; [reflexivity|intros _].
    apply orb_true_iff; left; apply ltb_true; lra.
  - split; [|discriminate]; intro H.
    apply orb_true_iff in H; destruct H as [H|H]; apply ltb_true in H; lra.
  - split; [|discriminate]; intro H.
    apply orb_true_iff in H; destruct H as [H|H]; apply ltb_true in H; lra.
  - split; [|discriminate]; intro H.
    apply orb_true_iff in H; destruct H as [H|H]; apply ltb_true in H; lra.
Qed.

Lemma quarter_turns_align_every_fourth_witness :
  angleOk (Nat.iter 3 (fun rot => (rot + ROTATE_STEP)%num) (nth 1 rotations 0))
          SNAP_ANGLE = true
  <-> ((1 + 3) mod 4 = 0)%nat.
Proof. apply (quarter_turns_align_every_fourth 1 3); lia. Defined.

(** *** A drag *)

(** X26.  A pointer down on a fragment followed by a pointer move
    displaces the fragment by the displacement of the pointer, and leaves
    its rotation, its polygon and its placed mark alone. *)
Theorem drag_moves_by_the_pointer_displacement
    (c : Canvas R) (down move : Point R) (i : nat) (f : Fragment R) :
  NoDup (map (@id R) (fragments c)) -> dragging c = None ->
  isVictory c = false ->
  findFragment c down = Some i -> nth_error (fragments c) i = Some f ->
  exists f',
    nth_error (fragments (handlePointerMove (handlePointerDown c down) move)) i
    = Some f' /\
    currentPosition f'
    = mkPoint (x (currentPosition f) + (x move - x down))
              (y (currentPosition f) + (y move - y down)) /\
    rotation f' = rotation f /\ polygon f' = polygon f /\
    centroid f' = centroid f /\ isPlaced f' = isPlaced f.
Proof.
  intros Hnd Hd Hv Hfind Hn.
  assert (W : wellFormed c) by (split; [exact Hnd|intros d E; congruence]).
  destruct (handlePointerDown_keeps c down W) as [[Hnd1 _] _].
  rewrite (handlePointerDown_hit c down i f Hv Hfind Hn) in *.
  set (raised := fun f : Fragment R => setZIndex f (maxZIndex (fragments c) + 1)%Z)
    in *.
  set (d := mkDragging (id f) (x down - x (currentPosition f))
              (y down - y (currentPosition f))).
  assert (Hnth : nth_error (updateAt i raised (fragments c)) i = Some (raised f))
    by now apply updateAt_same.
  rewrite (handlePointerMove_drag _ move d i (raised f) Hnd1 eq_refl Hnth eq_refl).
  cbn [fragments withDragging withFragments].
  eexists; split; [apply updateAt_same; exact Hnth|].
  unfold raised, d.
  cbn [currentPosition rotation polygon centroid isPlaced setCurrentPosition
       setZIndex offsetX offsetY x y].
  repeat split; f_equal; cbn [nsub R_Number]; ring.
Qed.

(** The square fragment of the hit test, alone on a canvas at scale 1. *)
Definition board : Canvas R :=
  mkCanvas [squareFragment] None (mkPoint 0 0) 1 true false.

Lemma squareFragment_hit :
  hitTestFragment (mkPoint 100 100) (scaledFrag squareFragment 1) = true.
Proof.
  unfold hitTestFragment, localPoint, scaledFrag; simpl.
  rewrite Ropp_0, cos_0, sin_0.
  unfold pointInPolygon; simpl; unfold Real.ltb.
  decide_comparisons; reflexivity.
Qed.

Lemma board_hit : findFragment board (mkPoint 100 100) = Some 0%nat.
Proof.
  unfold findFragment, unplacedTopmostFirst, places, sortTopmostFirst.
  cbn [board fragments scale mapi_from filter snd].
  change (isPlaced squareFragment) with false.
  cbn [negb fold_left insertByZ find snd].
  now rewrite squareFragment_hit.
Qed.

Lemma drag_moves_by_the_pointer_displacement_witness :
  exists f',
    nth_error (fragments (handlePointerMove
                            (handlePointerDown board (mkPoint 100 100))
                            (mkPoint 130 90))) 0
    = Some f' /\
    currentPosition f'
    = mkPoint (x (currentPosition squareFragment) + (x (mkPoint 130 90) - x (mkPoint 100 100)))
              (y (currentPosition squareFragment) + (y (mkPoint 130 90) - y (mkPoint 100 100))) /\
    rotation f' = rotation squareFragment /\ polygon f' = polygon squareFragment /\
    centroid f' = centroid squareFragment /\ isPlaced f' = isPlaced squareFragment.
Proof.
  apply (drag_moves_by_the_pointer_displacement board (mkPoint 100 100)
           (mkPoint 130 90) 0 squareFragment).
  - cbn; constructor; [intros []|constructor].
  - reflexivity.
  - reflexivity.
  - exact board_hit.
  - reflexivity.
Defined.

(** *** The hit test and [transformPoint] *)

(** Whether a point hits a fragment depends on the offset of the
    point from the position of the fragment, and on the polygon relative
    to the centroid: shifting the point together with the fragment, or the
    polygon together with the centroid, changes nothing. *)
Lemma hitTestFragment_ignores_common_shifts
    (p : Point R) (f : Fragment R) (d e : Point R) :
  hitTestFragment (translate d p)
    (setCurrentPosition f (translate d (currentPosition f)))
  = hitTestFragment p f /\
  hitTestFragment p
    (mkFragment (id f) (map (translate e) (polygon f)) (translate e (centroid f))
       (correctPosition f) (currentPosition f) (rotation f) (isPlaced f) (zIndex f))
  = hitTestFragment p f.
Proof.
  unfold hitTestFragment, localPoint, translate.
  cbn [currentPosition rotation polygon centroid setCurrentPosition x y
       nsub nadd nmul nopp R_Number]; split.
  - f_equal; f_equal; ring.
  - f_equal; rewrite map_map; apply map_ext; intro v; cbn [x y]; f_equal; ring.
Qed.

(** X28.  [transformPoint] is a rigid motion: it keeps the distance
    between two points; with rotation 0 it is the translation; and a turn
    by [a] about the origin followed by [transformPoint] with rotation [b]
    is [transformPoint] with rotation [a + b]. *)
Theorem transformPoint_is_a_rigid_motion (p q t : Point R) (a b : R) :
  dist (transformPoint p a t) (transformPoint q a t) = dist p q /\
  transformPoint p 0 t = translate t p /\
  transformPoint (transformPoint p a (mkPoint 0 0)) b t = transformPoint p (a + b) t.
Proof.
  unfold transformPoint, translate;
    cbn [x y nsub nadd nmul ncos nsin R_Number R_Trig]; repeat split.
  - rewrite !dist_sqDist; f_equal; unfold sqDist; cbn [x y].
    pose proof (sin2_cos2 a) as H; unfold Rsqr in H.
    transitivity (((x p - x q) * (x p - x q) + (y p - y q) * (y p - y q))
                  * (sin a * sin a + cos a * cos a)); [ring|rewrite H; ring].
  - rewrite cos_0, sin_0; f_equal; ring.
  - rewrite cos_plus, sin_plus; f_equal; ring.
Qed.

End InteractionOnReals.
(** ** The timer display of [PuzzleCanvas.jsx] *)

Module Clock.

(** [String(z)], for an integer. *)
Definition toString (z : Z) : string := NilZero.string_of_int (Z.to_int z).

Fixpoint replicate (n : nat) (c : ascii) : string :=
  match n with
  | O => EmptyString
  | S n => String c (replicate n c)
  end.

(** [s.padStart(targetLength, pad)], for a pad of one character. *)
Definition padStart (targetLength : nat) (pad : ascii) (s : string) : string :=
  (replicate (targetLength - String.length s) pad ++ s)%string.

(** Format time as M:SS.  [seconds] is a whole number of seconds:
    [Math.floor] of the quotient by 60 is the quotient rounded down, and
    [%] the remainder that has the sign of [seconds]. *)
Definition formatTime (seconds : Z) : string :=
  let m := (seconds / 60)%Z in
  let s := Z.rem seconds 60 in
  (toString m ++ ":" ++ padStart 2 "0"%char (toString s))%string.

(** The seconds field, for each remainder from 0 to 59. *)
Definition secondsField (r : nat) : string :=
  padStart 2 "0"%char (toString (Z.of_nat r)).

Lemma secondsField_table :
  forallb (fun r =>
             String.eqb (secondsField r)
               (if (r <? 10)%nat then ("0" ++ toString (Z.of_nat r))%string
                else toString (Z.of_nat r))
             && (String.length (secondsField r) =? 2)%nat
             && forallb (fun r' => implb (String.eqb (secondsField r)
                                                     (secondsField r'))
                                         (r =? r')%nat)
                        (seq 0 60))
          (seq 0 60) = true.
Proof. vm_compute; reflexivity. Qed.

Lemma secondsField_spec (r : nat) :
  (r < 60)%nat ->
  secondsField r = (if (r <? 10)%nat then ("0" ++ toString (Z.of_nat r))%string
                    else toString (Z.of_nat r)) /\
  String.length (secondsField r) = 2%nat /\
  forall r', (r' < 60)%nat -> secondsField r = secondsField r' -> r = r'.
Proof.
  intro H; pose proof secondsField_table as T.
  rewrite forallb_forall in T; specialize (T r).
  rewrite in_seq in T; specialize (T ltac:(lia)).
  apply andb_true_iff in T; destruct T as [T T3].
  apply andb_true_iff in T; destruct T as [T1 T2].
  apply String.eqb_eq in T1; apply Nat.eqb_eq in T2.
  split; [exact T1|]; split; [exact T2|].
  intros r' H' E; rewrite forallb_forall in T3; specialize (T3 r').
  rewrite in_seq in T3; specialize (T3 ltac:(lia)).
  rewrite E, String.eqb_refl in T3; cbn [implb] in T3.
  now apply Nat.eqb_eq.
Qed.

Lemma negativeField_table :
  forallb (fun r => String.eqb (padStart 2 "0"%char (toString (- Z.of_nat (S r))))
                               (toString (- Z.of_nat (S r))))
          (seq 0 59) = true.
Proof. vm_compute; reflexivity. Qed.

Lemma toString_inj (a b : Z) : toString a = toString b -> a = b.
Proof.
  unfold toString; intro H.
  assert (G : forall z, NilZero.int_of_string (NilZero.string_of_int (Z.to_int z))
                        = Some (Z.to_int z)).
  { intro z; apply NilZero.isi; destruct z as [|p|p]; cbn; try discriminate;
      intro E; injection E as E;
      exact (DecimalPos.Unsigned.to_uint_nonnil p E). }
  apply (f_equal NilZero.int_of_string) in H; rewrite !G in H.
  injection H as H; now apply DecimalZ.to_int_inj.
Qed.

Lemma append_same_length (a b c d : string) :
  (a ++ b)%string = (c ++ d)%string -> String.length b = String.length d ->
  a = c /\ b = d.
Proof.
  assert (L : forall u v, String.length (u ++ v) = (String.length u + String.length v)%nat).
  { induction u as [|ch u IH]; intro v; cbn; [reflexivity|now rewrite IH]. }
  revert c; induction a as [|ch a IH]; intros [|ch' c] H Hl; cbn in H.
  - now split.
  - apply (f_equal String.length) in H; cbn in H; rewrite L in H; lia.
  - apply (f_equal String.length) in H; cbn in H; rewrite L in H; lia.
  - injection H as -> H; destruct (IH c H Hl) as [-> ->]; now split.
Qed.

(** X29.  For a number of seconds that is not negative, [formatTime]
    shows the whole minutes, a colon and the remaining seconds on exactly
    two digits, and two different times are never shown alike.  Minutes
    are not folded into hours.  For a time from -59 to -1 the display is
    [-1:] followed by the negative number itself. *)
Theorem formatTime_shows_minutes_and_two_digits :
  (forall seconds : Z,
      (0 <= seconds)%Z ->
      formatTime seconds
      = (toString (seconds / 60) ++ ":" ++
         (if (seconds mod 60 <? 10)%Z
          then "0" ++ toString (seconds mod 60)
          else toString (seconds mod 60)))%string /\
      String.length (formatTime seconds)
      = (String.length (toString (seconds / 60)) + 3)%nat) /\
  (forall a b : Z,
      (0 <= a)%Z -> (0 <= b)%Z -> formatTime a = formatTime b -> a = b) /\
  (forall seconds : Z,
      (-60 < seconds < 0)%Z ->
      formatTime seconds = ("-1:" ++ toString seconds)%string).
Proof.
  assert (L : forall u v, String.length (u ++ v) = (String.length u + String.length v)%nat).
  { induction u as [|ch u IH]; intro v; cbn; [reflexivity|now rewrite IH]. }
  assert (F : forall seconds : Z,
             (0 <= seconds)%Z ->
             formatTime seconds
             = (toString (seconds / 60) ++ ":" ++
                secondsField (Z.to_nat (seconds mod 60)))%string /\
             (Z.to_nat (seconds mod 60) < 60)%nat).
  { intros seconds H; unfold formatTime, secondsField.
    pose proof (Z.mod_pos_bound seconds 60 ltac:(lia)) as Hm.
    rewrite Z.rem_mod_nonneg by lia.
    rewrite Z2Nat.id by lia; split; [reflexivity|lia]. }
  split; [|split].
  - intros seconds H; destruct (F seconds H) as [E Hr].
    destruct (secondsField_spec _ Hr) as (E1 & E2 & _).
    pose proof (Z.mod_pos_bound seconds 60 ltac:(lia)) as Hm.
    rewrite E; split.
    + rewrite E1, Z2Nat.id by lia.
      replace (Z.to_nat (seconds mod 60) <? 10)%nat with (seconds mod 60 <? 10)%Z;
        [reflexivity|].
      destruct (seconds mod 60 <? 10)%Z eqn:Ez; symmetry.
      * apply Nat.ltb_lt; apply Z.ltb_lt in Ez; lia.
      * apply Nat.ltb_ge; apply Z.ltb_ge in Ez; lia.
    + rewrite !L, E2; cbn; lia.
  - intros a b Ha Hb E.
    destruct (F a Ha) as [Ea Hra]; destruct (F b Hb) as [Eb Hrb].
    rewrite Ea, Eb in E.
    destruct (secondsField_spec _ Hra) as (_ & La & Ia).
    destruct (secondsField_spec _ Hrb) as (_ & Lb & _).
    apply append_same_length in E;
      [|cbn [append String.length]; rewrite La, Lb; reflexivity].
    destruct E as [Em Es]; apply toString_inj in Em.
    injection Es as Es; apply (Ia _ Hrb) in Es.
    pose proof (Z.mod_pos_bound a 60 ltac:(lia)).
    pose proof (Z.mod_pos_bound b 60 ltac:(lia)).
    rewrite (Z.div_mod a 60), (Z.div_mod b 60) by lia.
    rewrite Em; f_equal; lia.
  - intros seconds H; unfold formatTime.
    assert (Ed : (seconds / 60 = -1)%Z).
    { symmetry; apply (Z.div_unique seconds 60 (-1) (seconds + 60)); lia. }
    assert (Er : Z.rem seconds 60 = seconds)
      by (apply Z.rem_small_iff; lia).
    rewrite Ed, Er.
    pose proof negativeField_table as T; rewrite forallb_forall in T.
    specialize (T (Z.to_nat (- seconds) - 1)%nat).
    rewrite in_seq in T; specialize (T ltac:(lia)).
    apply String.eqb_eq in T.
    replace (- Z.of_nat (S (Z.to_nat (- seconds) - 1)))%Z with seconds in T by lia.
    now rewrite T.
Qed.

End Clock.
(** ** The start of a puzzle *)

Section Start.

Context {num : Type} {N : Number num} {T : Trig num} {F : Floor num}.
Local Open Scope num_scope.

Variable mathRandom : nat -> num.

(** The fragments [initPuzzle] stores in [fragmentsRef.current]: those of
    [generateFragments] for the seed of the puzzle, scattered around the
    centre of the canvas.  [calls] is the number of calls [Math.random]
    has answered before. *)
Definition initPuzzleFragments (calls : nat) (outline : list (Point num))
    (difficulty : JSValue) (puzzleSeed : Z) (cw ch : num)
  : option (list (Fragment num) * Random) :=
  let leafOrigin := mkPoint (cw / of_Z 2) (ch / of_Z 2) in
  let '(fragments, r) :=
    generateFragmentsFrom mathRandom calls outline difficulty (Some puzzleSeed) in
  scatterFragments mathRandom fragments cw ch leafOrigin r.

Lemma generateFragmentsFrom_calls (calls : nat) (outline : list (Point num))
    (difficulty : JSValue) (seed : option Z) :
  let frags := fst (generateFragmentsFrom mathRandom calls outline difficulty seed) in
  StronglySorted Z.lt (map (@id num) frags) /\
  NoDup (map (@id num) frags) /\
  (length frags
   <= match pieceCount difficulty with CountNum n => n | CountNaN => 3 end)%nat /\
  forall f, In f frags -> isPlaced f = false.
Proof.
  unfold generateFragmentsFrom.
  pose proof (fragmentCells_length mathRandom outline (pieceCount difficulty)
                (mkRandom (match seed with
                           | Some seed => mulberry32 seed
                           | None => MathRandom
                           end) calls)) as Hl.
  pose proof (initialSeeds_at_most mathRandom outline (pieceCount difficulty)
                (mkRandom (match seed with
                           | Some seed => mulberry32 seed
                           | None => MathRandom
                           end) calls)) as Hm.
  destruct (fragmentCells _ _ _ _) as [cells r]; cbn [fst] in *.
  split; [apply buildFragments_sorted|].
  split; [apply buildFragments_ids|].
  split.
  - rewrite buildFragments_length.
    eapply Nat.le_trans; [apply filter_length_le|].
    rewrite Hl; eapply Nat.le_trans; [exact Hm|].
    destruct (pieceCount difficulty) as [k|] eqn:E; [|lia].
    apply pieceCount_tiers in E; lia.
  - intros f Hf; now apply buildFragments_fields in Hf.
Qed.

Lemma initPuzzleFragments_spec (calls : nat) (outline : list (Point num))
    (difficulty : JSValue) (puzzleSeed : Z) (cw ch : num)
    (frags : list (Fragment num)) (r' : Random) :
  initPuzzleFragments calls outline difficulty puzzleSeed cw ch = Some (frags, r') ->
  NoDup (map (@id num) frags) /\
  (length frags
   <= match pieceCount difficulty with CountNum n => n | CountNaN => 3 end)%nat /\
  (forall k f, nth_error frags k = Some f ->
               isPlaced f = false /\ zIndex f = Z.of_nat k /\
               In (rotation f) rotations) /\
  map (@polygon num) frags
  = map (@polygon num)
      (fst (generateFragmentsFrom mathRandom calls outline difficulty
              (Some puzzleSeed))).
Proof.
  unfold initPuzzleFragments; intro H.
  pose proof (generateFragmentsFrom_calls calls outline difficulty (Some puzzleSeed))
    as G; cbv zeta in G.
  destruct (generateFragmentsFrom mathRandom calls outline difficulty (Some puzzleSeed))
    as [generated r]; cbn [fst] in *.
  destruct G as (_ & Hnd & Hlen & Hloose).
  apply scatterFrom_spec in H; destruct H as (Hl & _ & _ & Hn).
  assert (Hk : forall k f', nth_error frags k = Some f' ->
             exists f, nth_error generated k = Some f /\
                       id f' = id f /\ polygon f' = polygon f /\
                       isPlaced f' = isPlaced f /\ zIndex f' = Z.of_nat k /\
                       In (rotation f') rotations).
  { intros k f' Hf'.
    assert (Hlt : (k < length generated)%nat)
      by (rewrite <- Hl; apply nth_error_Some; congruence).
    destruct (nth_error generated k) as [f|] eqn:Ef;
      [|apply nth_error_None in Ef; lia].
    destruct (Hn k f Ef) as (f1 & r0 & A & _ & _ & B).
    assert (f1 = f') by congruence; subst f1.
    exists f; cbn [Nat.add] in B; tauto. }
  assert (Hmap : forall (A : Type) (g : Fragment num -> A),
             (forall k f', nth_error frags k = Some f' ->
                exists f, nth_error generated k = Some f /\ g f' = g f) ->
             map g frags = map g generated).
  { intros A g Hg; apply nth_error_ext; intro k.
    rewrite !nth_error_map.
    destruct (nth_error frags k) as [f'|] eqn:Ef'.
    - destruct (Hg k f' Ef') as (f & Ef & Eg); rewrite Ef.
      cbn [option_map]; now rewrite Eg.
    - apply nth_error_None in Ef'; rewrite Hl in Ef'.
      apply nth_error_None in Ef'; now rewrite Ef'. }
  repeat split.
  - rewrite (Hmap _ (@id num)); [exact Hnd|].
    intros k f' Hf'; destruct (Hk k f' Hf') as (f & A & B & _); now exists f.
  - now rewrite Hl.
  - destruct (Hk k f H) as (f0 & A & _ & _ & B & _).
    rewrite B; apply Hloose; now apply nth_error_In in A.
  - destruct (Hk k f H) as (f0 & _ & _ & _ & _ & B & _); exact B.
  - destruct (Hk k f H) as (f0 & _ & _ & _ & _ & _ & B); exact B.
  - apply Hmap; intros k f' Hf'.
    destruct (Hk k f' Hf') as (f & A & _ & B & _); now exists f.
Qed.

End Start.

Module StartOnReals.

Import PuzzleCanvas Monotonic OnReals Cells ScatterOnReals.
Local Open Scope R_scope.

(** X30.  With the numbers of [Math.random] in [0, 1), the fragments
    [initPuzzle] stores are there: at most as many as the difficulty asks
    for, with ids all different, none placed, each with its place in the
    array as [zIndex] and a quarter turn as rotation, and with the
    polygons [generateFragments] gave; a canvas that holds them with
    nothing dragged is a session in which placed fragments stay locked. *)
Theorem initPuzzle_starts_a_session
    (mathRandom : nat -> R) (calls : nat) (outline : list (Point R))
    (difficulty : JSValue) (puzzleSeed : Z) (cw ch : R) :
  (forall call, 0 <= mathRandom call < 1) ->
  exists frags r',
    initPuzzleFragments mathRandom calls outline difficulty puzzleSeed cw ch
    = Some (frags, r') /\
    NoDup (map (@id R) frags) /\
    (length frags
     <= match pieceCount difficulty with CountNum n => n | CountNaN => 3 end)%nat /\
    (forall k f, nth_error frags k = Some f ->
                 isPlaced f = false /\ zIndex f = Z.of_nat k /\
                 In (rotation f) rotations) /\
    map (@polygon R) frags
    = map (@polygon R)
        (fst (generateFragmentsFrom mathRandom calls outline difficulty
                (Some puzzleSeed))) /\
    forall (scale : R) (ghost : bool) (events : list (Event R)),
      wellFormed
        (run (mkCanvas frags None (mkPoint (cw / 2) (ch / 2)) scale ghost false)
             events).
Proof.
  intro U.
  assert (E : exists frags r',
             initPuzzleFragments mathRandom calls outline difficulty puzzleSeed cw ch
             = Some (frags, r')).
  { unfold initPuzzleFragments.
    destruct (generateFragmentsFrom mathRandom calls outline difficulty
                (Some puzzleSeed)) as [generated r].
    apply scatterFrom_succeeds; exact U. }
  destruct E as (frags & r' & E); exists frags, r'; split; [exact E|].
  pose proof (initPuzzleFragments_spec mathRandom _ _ _ _ _ _ _ _ E)
    as (Hnd & Hlen & Hk & Hp).
  repeat split; try assumption; try (now apply (Hk k f)).
  - apply run_keeps; split; [exact Hnd|intros d Hd; discriminate].
  - apply run_keeps; split; [exact Hnd|intros d Hd; discriminate].
Qed.

Lemma initPuzzle_starts_a_session_witness :
  exists frags r',
    initPuzzleFragments zeros 0 pointOutline (JSString "easy") 42 800 600
    = Some (frags, r') /\
    NoDup (map (@id R) frags) /\
    (length frags
     <= match pieceCount (JSString "easy") with CountNum n => n | CountNaN => 3 end)%nat /\
    (forall k f, nth_error frags k = Some f ->
                 isPlaced f = false /\ zIndex f = Z.of_nat k /\
                 In (rotation f) rotations) /\
    map (@polygon R) frags
    = map (@polygon R)
        (fst (generateFragmentsFrom zeros 0 pointOutline (JSString "easy")
                (Some 42%Z))) /\
    forall (scale : R) (ghost : bool) (events : list (Event R)),
      wellFormed
        (run (mkCanvas frags None (mkPoint (800 / 2) (600 / 2)) scale ghost false)
             events).
Proof.
  exact (initPuzzle_starts_a_session zeros 0 pointOutline (JSString "easy") 42
           800 600 zeros_unit).
Defined.

End StartOnReals.
